(** * TangentCNC: the G-code engine of [script.js]

    A shallow embedding of the path-to-G-code core of TangentCNC
    (spline sampler, heading resolver, positional and oriented code
    generators, G-code parser, playback path model) and the proofs of
    its specified properties.

    Numbers.  JavaScript numbers are IEEE-754 binary64 values.  The
    engine is written once, over an interface [JSNumber] that lists the
    operations the source uses and assumes no law about them.  Two
    instances are given:
    - [Exact]: rationals extended with NaN and the two infinities;
      arithmetic is exact (no rounding, no overflow, one zero);
    - [Binary64]: the kernel's primitive binary64 floats, on which the
      source's arithmetic is reproduced bit for bit.
    Structural properties are proved for every instance; properties that
    need arithmetic laws are proved on [Exact]; what rounding does to the
    code is evaluated on [Binary64].

    Host functions.  [Math.hypot], [Math.atan2] and [Math.PI] are
    parameters of the functions that call them.  [toFixed] and
    [parseFloat] are modelled on [Exact] only.

    Loops.  A [while]/[for] loop over a number is a function with fuel
    that returns [None] when the fuel runs out.

    Text.  Strings are lists of characters (code units below 256). *)

From Stdlib Require Import Ascii String ZArith QArith Qabs Qround Bool List.
From Stdlib Require Import Lia Lqa Floats.
Import ListNotations.

Set Implicit Arguments.
Set Warnings "-inexact-float".

(* ================================================================= *)
(** ** Characters and strings *)

Definition str := list ascii.

Definition lit (s : string) : str := list_ascii_of_string s.

Definition code (c : ascii) : N := N_of_ascii c.

Definition isChar (k : N) (c : ascii) : bool := N.eqb (code c) k.

(** [\d] *)
Definition isDigit (c : ascii) : bool :=
  (N.leb 48 (code c) && N.leb (code c) 57)%bool.

(** [\s] and the characters [trim] removes, among code units below 256. *)
Definition isSpace (c : ascii) : bool :=
  (N.leb 9 (code c) && N.leb (code c) 13 || isChar 32 c || isChar 160 c)%bool.

(** The line terminators, which [.] does not match. *)
Definition isLineTerm (c : ascii) : bool := (isChar 10 c || isChar 13 c)%bool.

(** A letter given by its upper-case code, in either case: [[xX]]. *)
Definition isLetter (upper : N) (c : ascii) : bool :=
  (isChar upper c || isChar (upper + 32) c)%bool.

Definition chX : N := 88.
Definition chY : N := 89.
Definition chZ : N := 90.
Definition chC : N := 67.
Definition chF : N := 70.
Definition chG : N := 71.

(** The degree sign of the oriented header, code unit 176. *)
Definition degreeSign : ascii := ascii_of_N 176.

Definition NL : ascii := ascii_of_N 10.
Definition CR : ascii := ascii_of_N 13.

(** [lines.join("\n")] *)
Fixpoint join (ls : list str) : str :=
  match ls with
  | [] => []
  | l :: rest =>
      match rest with
      | [] => l
      | _ :: _ => l ++ NL :: join rest
      end
  end.

(** [text.split(/\r?\n/)]: a line ends at a line feed, which takes a
    carriage return just before it along.  The result is never empty:
    the empty text splits into one empty line. *)
Fixpoint splitLines (s : str) : list str :=
  match s with
  | [] => [[]]
  | c :: rest =>
      if isChar 10 c then [] :: splitLines rest
      else
        match rest with
        | d :: rest' =>
            if (isChar 13 c && isChar 10 d)%bool then [] :: splitLines rest'
            else
              match splitLines rest with
              | l :: ls => (c :: l) :: ls
              | [] => [[c]]
              end
        | [] => [[c]]
        end
  end.

(** [raw.replace(/;.*$/, '')]: the text is cut at the first semicolon
    after which no line terminator stands ([.] does not match one, and
    [$] is the end of the string). *)
Fixpoint stripSemicolon (s : str) : str :=
  match s with
  | [] => []
  | c :: rest =>
      if (isChar 59 c && forallb (fun d => negb (isLineTerm d)) rest)%bool
      then []
      else c :: stripSemicolon rest
  end.

(** Whether a closing parenthesis comes before any line terminator. *)
Fixpoint closesParen (s : str) : bool :=
  match s with
  | [] => false
  | c :: rest =>
      if isChar 41 c then true
      else if isLineTerm c then false
      else closesParen rest
  end.

(** [s.replace(/\(.*?\)/g, '')]: every block from an opening parenthesis
    to the nearest closing one on the same line is removed, scanning from
    the left.  [inside] says that the scan is within such a block. *)
Fixpoint stripParensFrom (inside : bool) (s : str) : str :=
  match s with
  | [] => []
  | c :: rest =>
      if inside then stripParensFrom (negb (isChar 41 c)) rest
      else if (isChar 40 c && closesParen rest)%bool
           then stripParensFrom true rest
           else c :: stripParensFrom false rest
  end.

Definition stripParens (s : str) : str := stripParensFrom false s.

Fixpoint trimStart (s : str) : str :=
  match s with
  | [] => []
  | c :: rest => if isSpace c then trimStart rest else s
  end.

(** [s.trim()] *)
Definition trim (s : str) : str := rev (trimStart (rev (trimStart s))).

(** [/[xX]/.test(s)] for the letter [upper]. *)
Definition hasLetter (upper : N) (s : str) : bool := existsb (isLetter upper) s.

(** [/[gG][0-9]+/.test(s)] *)
Fixpoint hasGDigits (s : str) : bool :=
  match s with
  | [] => false
  | c :: rest =>
      match rest with
      | d :: _ => (isLetter chG c && isDigit d || hasGDigits rest)%bool
      | [] => false
      end
  end.

(** [/[gG]k\s/.test(s)] for the digits [k] accepted by [ok]: the first
    place where a G, such a digit and a blank follow one another, with
    the digit found there. *)
Fixpoint findGMove (ok : ascii -> bool) (s : str) : option ascii :=
  match s with
  | [] => None
  | c :: rest =>
      match rest with
      | d :: e :: _ =>
          if (isLetter chG c && ok d && isSpace e)%bool then Some d
          else findGMove ok rest
      | _ => None
      end
  end.

Definition is0or1 (c : ascii) : bool := (isChar 48 c || isChar 49 c)%bool.

(** The longest run of digits at the head of [s], and the rest. *)
Fixpoint spanDigits (s : str) : str * str :=
  match s with
  | [] => ([], [])
  | c :: rest =>
      if isDigit c
      then let (ds, r) := spanDigits rest in (c :: ds, r)
      else ([], s)
  end.

(** The capture group of [/-?\d*\.?\d+/] anchored at the head of [s].
    After the optional sign the greedy [\d*] takes the digits [ds]; a
    point followed by a digit continues the number with all the digits
    after it; otherwise the match backtracks to end within [ds], which
    must then hold a digit. *)
Definition matchNumber (s : str) : option str :=
  let (sign, s1) :=
    match s with
    | c :: rest => if isChar 45 c then ([c], rest) else ([], s)
    | [] => ([], s)
    end in
  let (ds, s2) := spanDigits s1 in
  match s2 with
  | c :: rest =>
      if isChar 46 c then
        match spanDigits rest with
        | (d :: fs, _) => Some (sign ++ ds ++ c :: d :: fs)
        | ([], _) => match ds with [] => None | _ => Some (sign ++ ds) end
        end
      else match ds with [] => None | _ => Some (sign ++ ds) end
  | [] => match ds with [] => None | _ => Some (sign ++ ds) end
  end.

(** [line.match(/[xX](-?\d*\.?\d+)/)]: the capture group at the leftmost
    letter where the whole pattern matches, [None] for JavaScript's
    [null]. *)
Fixpoint matchField (upper : N) (s : str) : option str :=
  match s with
  | [] => None
  | c :: rest =>
      if isLetter upper c then
        match matchNumber rest with
        | Some n => Some n
        | None => matchField upper rest
        end
      else matchField upper rest
  end.

(* ================================================================= *)
(** ** Numbers *)

(** The operations of JavaScript numbers that the engine uses. *)
Class JSNumber (num : Type) := {
  ofZ : Z -> num;                  (* an integer literal *)
  ofDec : Z -> nat -> num;         (* the literal m * 10^-k: 0.5, 1e-6, 1e-9 *)
  add : num -> num -> num;
  sub : num -> num -> num;
  mul : num -> num -> num;
  div : num -> num -> num;
  rem : num -> num -> num;         (* the % operator *)
  neg : num -> num;
  abs : num -> num;                (* Math.abs *)
  nmin : num -> num -> num;        (* Math.min *)
  nmax : num -> num -> num;        (* Math.max *)
  ltb : num -> num -> bool;        (* < *)
  leb : num -> num -> bool;        (* <= *)
  truthy : num -> bool             (* ToBoolean: false on 0 and NaN *)
}.

Declare Scope js_scope.
Delimit Scope js_scope with js.
Infix "+" := add : js_scope.
Infix "-" := sub : js_scope.
Infix "*" := mul : js_scope.
Infix "/" := div : js_scope.
Infix "mod" := rem : js_scope.
Notation "- a" := (neg a) : js_scope.
Infix "<?" := ltb : js_scope.
Infix "<=?" := leb : js_scope.
Notation "a >? b" := (ltb b a) : js_scope.

(* ----------------------------------------------------------------- *)
(** *** Exact numbers *)

(** Rationals with the three special values of IEEE arithmetic. *)
Inductive xnum : Type :=
  | Fin (q : Q)
  | PInf
  | NInf
  | NaN.

Definition Qltb (a b : Q) : bool := negb (Qle_bool b a).

(** The integer part of [q], rounded towards zero. *)
Definition Qtrunc (q : Q) : Z :=
  if Qle_bool 0 q then Qfloor q else Qceiling q.

Definition xneg (a : xnum) : xnum :=
  match a with
  | Fin q => Fin (- q)
  | PInf => NInf
  | NInf => PInf
  | NaN => NaN
  end.

Definition xadd (a b : xnum) : xnum :=
  match a, b with
  | Fin p, Fin q => Fin (p + q)
  | NaN, _ | _, NaN => NaN
  | PInf, NInf | NInf, PInf => NaN
  | PInf, _ | _, PInf => PInf
  | NInf, _ | _, NInf => NInf
  end.

Definition xsub (a b : xnum) : xnum := xadd a (xneg b).

(** The infinity of the sign of [q], NaN at zero. *)
Definition xinf (q : Q) : xnum :=
  if Qeq_bool q 0 then NaN else if Qle_bool 0 q then PInf else NInf.

Definition xsign (a : xnum) : Q :=
  match a with
  | Fin q => q
  | PInf => 1
  | NInf => - (1)
  | NaN => 0
  end.

Definition xmul (a b : xnum) : xnum :=
  match a, b with
  | Fin p, Fin q => Fin (p * q)
  | NaN, _ | _, NaN => NaN
  | _, _ => xinf (xsign a * xsign b)
  end.

(** Division; a zero divisor counts as the positive zero. *)
Definition xdiv (a b : xnum) : xnum :=
  match a, b with
  | Fin p, Fin q => if Qeq_bool q 0 then xinf p else Fin (p / q)
  | NaN, _ | _, NaN => NaN
  | Fin _, _ => Fin 0
  | _, Fin q => if Qeq_bool q 0 then a else xinf (xsign a * q)
  | _, _ => NaN
  end.

(** The remainder has the sign of the dividend. *)
Definition xrem (a b : xnum) : xnum :=
  match a, b with
  | Fin p, Fin q =>
      if Qeq_bool q 0 then NaN else Fin (p - q * inject_Z (Qtrunc (p / q)))
  | Fin p, PInf | Fin p, NInf => Fin p
  | _, _ => NaN
  end.

Definition xabs (a : xnum) : xnum :=
  match a with
  | Fin q => Fin (Qabs q)
  | PInf | NInf => PInf
  | NaN => NaN
  end.

Definition xltb (a b : xnum) : bool :=
  match a, b with
  | Fin p, Fin q => Qltb p q
  | NaN, _ | _, NaN => false
  | NInf, NInf | PInf, _ => false
  | NInf, _ | _, PInf => true
  | Fin _, NInf => false
  end.

Definition xleb (a b : xnum) : bool :=
  match a, b with
  | Fin p, Fin q => Qle_bool p q
  | NaN, _ | _, NaN => false
  | NInf, _ | _, PInf => true
  | PInf, _ | Fin _, NInf => false
  end.

Definition xmin (a b : xnum) : xnum :=
  match a, b with
  | NaN, _ | _, NaN => NaN
  | _, _ => if xltb b a then b else a
  end.

Definition xmax (a b : xnum) : xnum :=
  match a, b with
  | NaN, _ | _, NaN => NaN
  | _, _ => if xltb a b then b else a
  end.

Definition xtruthy (a : xnum) : bool :=
  match a with
  | Fin q => negb (Qeq_bool q 0)
  | PInf | NInf => true
  | NaN => false
  end.

Definition xdec (m : Z) (k : nat) : xnum := Fin (m # Z.to_pos (10 ^ Z.of_nat k)).

#[export] Instance Exact : JSNumber xnum := {
  ofZ z := Fin (inject_Z z);
  ofDec := xdec;
  add := xadd; sub := xsub; mul := xmul; div := xdiv; rem := xrem;
  neg := xneg; abs := xabs; nmin := xmin; nmax := xmax;
  ltb := xltb; leb := xleb; truthy := xtruthy
}.

(** [Number.isFinite] *)
Definition finite (a : xnum) : Prop :=
  match a with Fin _ => True | _ => False end.

(** The rational a finite number stands for (0 for the others). *)
Definition toQ (a : xnum) : Q :=
  match a with Fin q => q | _ => 0 end.

(** Numerical equality, [a === b]. *)
Definition xeq (a b : xnum) : Prop :=
  match a, b with
  | Fin p, Fin q => p == q
  | PInf, PInf | NInf, NInf => True
  | _, _ => False
  end.

(* ----------------------------------------------------------------- *)
(** *** Binary64 numbers *)

Definition fofZ (z : Z) : float :=
  match z with
  | Z0 => 0%float
  | Zpos _ => PrimFloat.of_uint63 (Uint63.of_Z z)
  | Zneg p => PrimFloat.opp (PrimFloat.of_uint63 (Uint63.of_Z (Zpos p)))
  end.

(** A literal [m * 10^-k] whose two parts are exact in binary64 is the
    correctly rounded quotient of the two. *)
Definition fdec (m : Z) (k : nat) : float :=
  PrimFloat.div (fofZ m) (fofZ (10 ^ Z.of_nat k)).

(** A finite float as [(m, e)] with value [m * 2^e]. *)
Definition fparts (a : float) : option (Z * Z) :=
  match Prim2SF a with
  | S754_zero _ => Some (0, 0)%Z
  | S754_finite s m e => Some (if s then Zneg m else Zpos m, e)
  | _ => None
  end.

(** The % operator: the exact remainder of the truncated division. *)
Definition frem (a b : float) : float :=
  match fparts a, fparts b with
  | Some (ma, ea), Some (mb, eb) =>
      if (mb =? 0)%Z then PrimFloat.nan
      else if (ma =? 0)%Z then a
      else
        let e := Z.min ea eb in
        let r := Z.rem (ma * 2 ^ (ea - e)) (mb * 2 ^ (eb - e)) in
        if (r =? 0)%Z
        then (if (ma <? 0)%Z then PrimFloat.opp 0%float else 0%float)
        else Z.ldexp (fofZ r) e
  | Some _, None => if PrimFloat.is_nan b then PrimFloat.nan else a
  | None, _ => PrimFloat.nan
  end.

Definition fmin (a b : float) : float :=
  if (PrimFloat.is_nan a || PrimFloat.is_nan b)%bool then PrimFloat.nan
  else if PrimFloat.ltb b a then b else a.

Definition fmax (a b : float) : float :=
  if (PrimFloat.is_nan a || PrimFloat.is_nan b)%bool then PrimFloat.nan
  else if PrimFloat.ltb a b then b else a.

Definition ftruthy (a : float) : bool :=
  negb (PrimFloat.is_nan a || PrimFloat.is_zero a).

#[export] Instance Binary64 : JSNumber float := {
  ofZ := fofZ;
  ofDec := fdec;
  add := PrimFloat.add; sub := PrimFloat.sub; mul := PrimFloat.mul;
  div := PrimFloat.div; rem := frem;
  neg := PrimFloat.opp; abs := PrimFloat.abs; nmin := fmin; nmax := fmax;
  ltb := PrimFloat.ltb; leb := PrimFloat.leb; truthy := ftruthy
}.

(* ----------------------------------------------------------------- *)
(** *** Numbers as text *)

(** What the engine prints and reads: [n.toFixed(3)], the number inside
    a template literal, and [parseFloat]. *)
Class NumText (num : Type) := {
  toFixed3 : num -> str;
  toStr : num -> str;
  parseFloat : str -> num
}.

Definition digitChar (d : Z) : ascii := ascii_of_N (48 + Z.to_N d).

Definition digitVal (c : ascii) : Z := Z.of_N (code c) - 48.

(** The last [w] decimal digits of [n], most significant first. *)
Fixpoint showDigits (w : nat) (n : Z) : str :=
  match w with
  | O => []
  | S w' => showDigits w' (n / 10) ++ [digitChar (n mod 10)]
  end.

Fixpoint countDigits (fuel : nat) (n : Z) : nat :=
  match fuel with
  | O => 1
  | S k => if (n <? 10)%Z then 1%nat else S (countDigits k (n / 10))
  end.

(** The decimal digits of a natural number, without leading zeros. *)
Definition showNat (n : Z) : str :=
  showDigits (countDigits (Z.to_nat (Z.log2 n)) n) n.

(** The value of a run of digits. *)
Definition digitsValue (s : str) : Z :=
  fold_left (fun a c => (10 * a + digitVal c)%Z) s 0%Z.

(** The integer nearest to [1000 * |q|], the larger one at a tie. *)
Definition thousandths (q : Q) : Z := Qfloor (Qabs q * 1000 + (1 # 2)).

Fixpoint dropTrailingZeros (rev_digits : str) : str :=
  match rev_digits with
  | [] => []
  | c :: rest => if isChar 48 c then dropTrailingZeros rest else rev_digits
  end.

(** The exponent notation of a number of magnitude 1e21 or more: its
    first digit, the following significant digits up to the 17th, and
    the exponent. *)
Definition showExponent (negative : bool) (n : Z) : str :=
  let digits := showNat n in
  let e := (Z.of_nat (List.length digits) - 1)%Z in
  let more := rev (dropTrailingZeros (rev (firstn 16 (tl digits)))) in
  (if negative then lit "-" else []) ++ firstn 1 digits ++
  match more with [] => [] | _ => lit "." ++ more end ++
  lit "e+" ++ showNat e.

(** [q.toFixed(3)]: fixed notation below 1e21, and from there on the
    exponent notation of [String(q)]. *)
Definition toFixed3Q (q : Q) : str :=
  if Qle_bool (inject_Z (10 ^ 21)) (Qabs q)
  then showExponent (Qltb q 0) (Qfloor (Qabs q))
  else
    let n := thousandths q in
    (if Qltb q 0 then lit "-" else []) ++
    showNat (n / 1000) ++ lit "." ++ showDigits 3 (n mod 1000).

Definition xtoFixed3 (a : xnum) : str :=
  match a with
  | Fin q => toFixed3Q q
  | PInf => lit "Infinity"
  | NInf => lit "-Infinity"
  | NaN => lit "NaN"
  end.

(** [String(q)]: the decimal expansion of [q], cut after 17 fraction
    digits, without trailing zeros; the exponent notation from 1e21 on.
    It only appears inside a comment of the generated program. *)
Definition toStrQ (q : Q) : str :=
  if Qle_bool (inject_Z (10 ^ 21)) (Qabs q)
  then showExponent (Qltb q 0) (Qfloor (Qabs q))
  else
    let a := Qabs q in
    let n := Qfloor (a * inject_Z (10 ^ 17)) in
    let frac := rev (dropTrailingZeros (rev (showDigits 17 (n mod 10 ^ 17)))) in
    (if Qltb q 0 then lit "-" else []) ++
    showNat (n / 10 ^ 17) ++
    match frac with [] => [] | _ => lit "." ++ frac end.

Definition xtoStr (a : xnum) : str :=
  match a with
  | Fin q => toStrQ q
  | PInf => lit "Infinity"
  | NInf => lit "-Infinity"
  | NaN => lit "NaN"
  end.

(** The value of [sign digits . digits] with at least one digit, the
    form of number that the field pattern captures. *)
Definition parseDecimal (s : str) : option Q :=
  let (negative, s1) :=
    match s with
    | c :: rest => if isChar 45 c then (true, rest) else (false, s)
    | [] => (false, s)
    end in
  let (ip, s2) := spanDigits s1 in
  let fp :=
    match s2 with
    | c :: rest => if isChar 46 c then fst (spanDigits rest) else []
    | [] => []
    end in
  match ip, fp with
  | [], [] => None
  | _, _ =>
      let v := inject_Z (digitsValue ip)
               + inject_Z (digitsValue fp) / inject_Z (10 ^ Z.of_nat (length fp)) in
      Some (if negative then - v else v)
  end.

(** [parseFloat] on such text; NaN where no number starts. *)
Definition xparseFloat (s : str) : xnum :=
  match parseDecimal s with
  | Some q => Fin q
  | None => NaN
  end.

#[export] Instance ExactText : NumText xnum := {
  toFixed3 := xtoFixed3;
  toStr := xtoStr;
  parseFloat := xparseFloat
}.

(* ================================================================= *)
(** ** The engine *)

(** [machineSettings.unit]: ['mm'] or ['inch']. *)
Inductive Unit : Type := Mm | Inch.

(** [machineSettings.angleMode]: ['-180-180'], or ['0-360'] (which the
    code takes for every other value). *)
Inductive AngleMode : Type := Mode180 | Mode360.

Section Engine.

Context {num : Type} {JN : JSNumber num}.
Local Open Scope js_scope.

(** [{x, y}] *)
Record Point : Type := mkPoint { px : num; py : num }.

Record MachineSettings : Type := mkSettings {
  unit_ : Unit;
  scaleFactor : num;
  safeHeight : num;
  cutDepth : num;
  feedRate : num;
  rapidRate : num;
  angleMode : AngleMode;
  angleOffset : num;
  shortestPath : bool
}.

(* ----------------------------------------------------------------- *)
(** *** Spline sampler *)

Definition catmullRomSpline (p0 p1 p2 p3 : Point) (t : num) : Point :=
  let t2 := t * t in
  let t3 := t2 * t in
  let x := ofDec 5 1 * (
    (ofZ 2 * px p1) +
    (- px p0 + px p2) * t +
    (ofZ 2 * px p0 - ofZ 5 * px p1 + ofZ 4 * px p2 - px p3) * t2 +
    (- px p0 + ofZ 3 * px p1 - ofZ 3 * px p2 + px p3) * t3) in
  let y := ofDec 5 1 * (
    (ofZ 2 * py p1) +
    (- py p0 + py p2) * t +
    (ofZ 2 * py p0 - ofZ 5 * py p1 + ofZ 4 * py p2 - py p3) * t2 +
    (- py p0 + ofZ 3 * py p1 - ofZ 3 * py p2 + py p3) * t3) in
  mkPoint x y.

(** [for (let t = t0; t <= 1 + 1e-9; t += step) poly.push(f(t))] *)
Fixpoint sweep (fuel : nat) (step : num) (f : num -> Point) (t : num)
  : option (list Point) :=
  match fuel with
  | O => None
  | S k =>
      if t <=? ofZ 1 + ofDec 1 9 then
        match sweep k step f (t + step) with
        | Some ps => Some (f t :: ps)
        | None => None
        end
      else Some []
  end.

Definition origin : Point := mkPoint (ofZ 0) (ofZ 0).

(** [points[i]], for an index within the list. *)
Definition pointAt (points : list Point) (i : nat) : Point := nth i points origin.

(** The body of [for (let i = 0; i < points.length - 1; i++)], over the
    indices [idxs]. *)
Fixpoint sampleSegments (fuel : nat) (points : list Point) (step : num)
    (idxs : list nat) : option (list Point) :=
  match idxs with
  | [] => Some []
  | i :: rest =>
      let p0 := pointAt points (Nat.max 0 (i - 1)) in
      let p1 := pointAt points i in
      let p2 := pointAt points (i + 1) in
      let p3 := pointAt points (Nat.min (List.length points - 1) (i + 2)) in
      let tStart := step in
      match sweep fuel step
              (fun t => catmullRomSpline p0 p1 p2 p3 (nmin t (ofZ 1))) tStart with
      | Some ps =>
          match sampleSegments fuel points step rest with
          | Some qs => Some (ps ++ qs)
          | None => None
          end
      | None => None
      end
  end.

(** [samplePolylinePoints()], with the globals [points] and
    [curveResolution] as arguments. *)
Definition samplePolylinePoints (fuel : nat) (points : list Point)
    (curveResolution : num) : option (list Point) :=
  let step := ofZ 1 / curveResolution in
  match points with
  | [] => Some []
  | first :: others =>
      match others with
      | [] => Some [mkPoint (px first) (py first)]
      | p2 :: more =>
          let p1 := first in
          match more with
          | [] =>
              match sweep fuel step
                      (fun t => mkPoint (px p1 + (px p2 - px p1) * t)
                                        (py p1 + (py p2 - py p1) * t)) step with
              | Some ps => Some (mkPoint (px first) (py first) :: ps)
              | None => None
              end
          | _ :: _ =>
              match sampleSegments fuel points step
                      (seq 0 (List.length points - 1)) with
              | Some ps => Some (mkPoint (px first) (py first) :: ps)
              | None => None
              end
          end
      end
  end.

(* ----------------------------------------------------------------- *)
(** *** Heading resolver *)

Section Heading.

(** [Math.atan2] and [Math.PI] *)
Variable atan2 : num -> num -> num.
Variable PI : num.

Definition angleDeg (dx dyCanvas : num) : num :=
  let dy := - dyCanvas in
  let ang := atan2 dy dx * ofZ 180 / PI in
  ((ang mod ofZ 360) + ofZ 360) mod ofZ 360.

End Heading.

(** [while (n > 180) n -= 360] *)
Fixpoint foldDown (fuel : nat) (n : num) : option num :=
  match fuel with
  | O => None
  | S k => if n >? ofZ 180 then foldDown k (n - ofZ 360) else Some n
  end.

(** [while (n <= -180) n += 360] *)
Fixpoint foldUp (fuel : nat) (n : num) : option num :=
  match fuel with
  | O => None
  | S k => if n <=? - ofZ 180 then foldUp k (n + ofZ 360) else Some n
  end.

(** The two loops that bring a number into (-180, 180]. *)
Definition fold180 (fuel : nat) (n : num) : option num :=
  match foldDown fuel n with
  | Some m => foldUp fuel m
  | None => None
  end.

(** [normalizeAngle(angle, prevAngle)]; [None] for [prevAngle] is
    [null]. *)
Definition normalizeAngle (cfg : MachineSettings) (fuel : nat)
    (angle : num) (prevAngle : option num) : option num :=
  let normalized := angle + angleOffset cfg in
  let folded :=
    match angleMode cfg with
    | Mode180 => fold180 fuel normalized
    | Mode360 => Some (((normalized mod ofZ 360) + ofZ 360) mod ofZ 360)
    end in
  match folded with
  | None => None
  | Some normalized =>
      match prevAngle with
      | Some prev =>
          if shortestPath cfg then
            let diff := normalized - prev in
            if diff >? ofZ 180 then Some (normalized - ofZ 360)
            else if diff <? - ofZ 180 then Some (normalized + ofZ 360)
            else Some normalized
          else Some normalized
      | None => Some normalized
      end
  end.

Definition getAngleDifference (fuel : nat) (angle1 angle2 : num) : option num :=
  let diff := angle2 - angle1 in
  match fold180 fuel diff with
  | Some d => Some (abs d)
  | None => None
  end.

End Engine.

Arguments Point : clear implicits.
Arguments MachineSettings : clear implicits.

Section TextEngine.

Context {num : Type} {JN : JSNumber num} {NT : NumText num}.
Local Open Scope js_scope.

(** [formatNum(n)]: [Number.parseFloat(n).toFixed(3)], where [n] is a
    number already. *)
Definition formatNum (n : num) : str := toFixed3 n.

Definition unitName (u : Unit) : str :=
  match u with Mm => lit "mm" | Inch => lit "inch" end.

Definition unitCode (u : Unit) : str :=
  match u with Inch => lit "G20" | Mm => lit "G21" end.

(* ----------------------------------------------------------------- *)
(** *** Positional generator *)

(** The four comment lines at the head of a program; [now] is
    [new Date().toISOString()]. *)
Definition headerLines (title : str) (now : str) (cfg : MachineSettings num)
  : list str :=
  [ title;
    lit "; Generated: " ++ now;
    lit "; Units: " ++ unitName (unit_ cfg);
    lit "; Scale: " ++ toStr (scaleFactor cfg) ++ lit " (canvas pixels to "
      ++ unitName (unit_ cfg) ++ lit ")" ].

Definition modeLines (cfg : MachineSettings num) : list str :=
  [ lit "G90    ; Absolute positioning";
    unitCode (unit_ cfg) ++ lit "   ; Unit: " ++ unitName (unit_ cfg);
    lit "G17    ; XY plane";
    lit "F" ++ formatNum (rapidRate cfg) ++ lit " ; Rapid feed rate" ].

(** The lines written for a polyline; [flipY] is [true] in the first
    copy of the engine ([-p.y * scaleFactor]) and [false] in the second
    ([p.y * scaleFactor]). *)
Definition cutLine (flipY : bool) (cfg : MachineSettings num) (p : Point num)
  : str :=
  let x := px p * scaleFactor cfg in
  let y := (if flipY then - py p else py p) * scaleFactor cfg in
  lit "G1 X" ++ formatNum x ++ lit " Y" ++ formatNum y ++ lit " F"
    ++ formatNum (feedRate cfg).

Definition pathLines (flipY : bool) (cfg : MachineSettings num)
    (poly : list (Point num)) : list str :=
  match poly with
  | [] => []
  | p0 :: rest =>
      let x0 := px p0 * scaleFactor cfg in
      let y0 := (if flipY then - py p0 else py p0) * scaleFactor cfg in
      [ lit "G0 Z" ++ formatNum (safeHeight cfg) ++ lit " ; Safe height";
        lit "G0 X" ++ formatNum x0 ++ lit " Y" ++ formatNum y0;
        lit "G1 Z" ++ formatNum (cutDepth cfg) ++ lit " F"
          ++ formatNum (feedRate cfg) ++ lit " ; Plunge to cut depth" ]
      ++ map (cutLine flipY cfg) rest
      ++ [ lit "G0 Z" ++ formatNum (safeHeight cfg) ++ lit " ; Retract" ]
  end.

(** The program text for an already sampled polyline. *)
Definition gcodeOfPolyline (flipY : bool) (now : str)
    (cfg : MachineSettings num) (poly : list (Point num)) : str :=
  join (headerLines (lit "; TangentCNC G-code") now cfg
        ++ modeLines cfg
        ++ pathLines flipY cfg poly
        ++ [ lit "M2     ; Program end" ]).

(** [generateGCodeString()] of the first copy. *)
Definition generateGCodeString (fuel : nat) (now : str)
    (cfg : MachineSettings num) (points : list (Point num))
    (curveResolution : num) : option str :=
  match samplePolylinePoints fuel points curveResolution with
  | Some poly => Some (gcodeOfPolyline true now cfg poly)
  | None => None
  end.

(** [generateGCodeString()] of the second copy. *)
Definition generateGCodeString2 (fuel : nat) (now : str)
    (cfg : MachineSettings num) (points : list (Point num))
    (curveResolution : num) : option str :=
  match samplePolylinePoints fuel points curveResolution with
  | Some poly => Some (gcodeOfPolyline false now cfg poly)
  | None => None
  end.

(* ----------------------------------------------------------------- *)
(** *** Parser *)

(** [raw.replace(/;.*$/,'').replace(/\(.*?\)/g,'').trim()] *)
Definition cleanLine (raw : str) : str :=
  trim (stripParens (stripSemicolon raw)).

Definition isEmpty (s : str) : bool :=
  match s with [] => true | _ => false end.

(** [if (m) last = parseFloat(m[1])] *)
Definition updateField (upper : N) (line : str) (last : option num)
  : option num :=
  match matchField upper line with
  | Some m => Some (parseFloat m)
  | None => last
  end.

(** The test that lets a line of [parseGCode] through. *)
Definition looksLikeMotion (line : str) : bool :=
  (hasGDigits line || hasLetter chX line || hasLetter chY line)%bool.

(** The loop of [parseGCode] over the lines, from the modal state
    [lastX], [lastY]; [emit] makes the sample out of the two modal
    values. *)
Fixpoint parseLines (emit : num -> num -> Point num)
    (lastX lastY : option num) (lines : list str) : list (Point num) :=
  match lines with
  | [] => []
  | raw :: rest =>
      let line := cleanLine raw in
      if isEmpty line then parseLines emit lastX lastY rest
      else if negb (looksLikeMotion line) then parseLines emit lastX lastY rest
      else
        let lastX := updateField chX line lastX in
        let lastY := updateField chY line lastY in
        match lastX, lastY with
        | Some x, Some y => emit x y :: parseLines emit lastX lastY rest
        | _, _ => parseLines emit lastX lastY rest
        end
  end.

(** [Number(machineSettings.scaleFactor) || 1] *)
Definition guardedScale (cfg : MachineSettings num) : num :=
  if truthy (scaleFactor cfg) then scaleFactor cfg else ofZ 1.

(** [parseGCode(text)] of the first copy. *)
Definition parseGCode (cfg : MachineSettings num) (text : str)
  : list (Point num) :=
  let sf := guardedScale cfg in
  parseLines (fun lastX lastY => mkPoint (lastX / sf) (- lastY / sf))
    None None (splitLines text).

(** [parseGCode(text)] of the second copy. *)
Definition parseGCode2 (text : str) : list (Point num) :=
  parseLines (fun lastX lastY => mkPoint lastX lastY)
    None None (splitLines text).

End TextEngine.

(* ----------------------------------------------------------------- *)
(** *** Playback path model *)

Section Preview.

Context {num : Type} {JN : JSNumber num}.
Local Open Scope js_scope.

(** An entry of [moves]: [{x, y, c}], [None] for a [null] heading. *)
Record Move : Type := mkMove { mx : num; my : num; mc : option num }.

(** An entry of [preview.segments]. *)
Record Segment : Type := mkSegment {
  x1 : num; y1 : num; x2 : num; y2 : num;
  len : num;
  cumStart : num;
  cumEnd : num;
  angle : option num;
  angleDiff : num
}.

(** What [buildPreviewFromGCode] leaves in [preview]. *)
Record Preview : Type := mkPreview {
  segments : list Segment;
  totalLength : num
}.

(** The result of [distToPoint]. *)
Record Position : Type := mkPosition {
  pos_x : num; pos_y : num;
  pos_nx : num; pos_ny : num;
  pos_angle : option num;
  pos_angleDiff : num
}.

(** [Math.hypot] *)
Variable hypot : num -> num -> num.

Section Moves.

Context {NT : NumText num}.

(** The first loop of [buildPreviewFromGCode]: the moves read from the
    lines, from the modal state [lastX], [lastY], [lastC].  [flipY] is
    [true] in the first copy ([-lastY / scaleFactor]) and [false] in the
    second. *)
Fixpoint previewMoves (flipY : bool) (cfg : MachineSettings num)
    (lastX lastY lastC : option num) (lines : list str) : list Move :=
  match lines with
  | [] => []
  | raw :: rest =>
      let line := cleanLine raw in
      if isEmpty line then previewMoves flipY cfg lastX lastY lastC rest
      else
        let isMove :=
          match findGMove is0or1 line with Some _ => true | None => false end in
        if (negb isMove && negb (hasLetter chX line)
            && negb (hasLetter chY line))%bool
        then previewMoves flipY cfg lastX lastY lastC rest
        else
          let lastX := updateField chX line lastX in
          let lastY := updateField chY line lastY in
          let lastC := updateField chC line lastC in
          match lastX, lastY with
          | Some x, Some y =>
              let canvasX := x / scaleFactor cfg in
              let canvasY := (if flipY then - y else y) / scaleFactor cfg in
              mkMove canvasX canvasY lastC
                :: previewMoves flipY cfg lastX lastY lastC rest
          | _, _ => previewMoves flipY cfg lastX lastY lastC rest
          end
  end.

End Moves.

(** The second loop of [buildPreviewFromGCode]: the segments between the
    consecutive moves [a :: rest], from the running length [cum]; the
    result carries the final [cum]. *)
Fixpoint buildSegments (fuel : nat) (cum : num) (a : Move) (rest : list Move)
  : option (list Segment * num) :=
  match rest with
  | [] => Some ([], cum)
  | b :: rest' =>
      let dx := mx b - mx a in
      let dy := my b - my a in
      let len := hypot dx dy in
      if len <=? ofDec 1 6 then buildSegments fuel cum b rest'
      else
        let angleDiff :=
          match mc a, mc b with
          | Some ca, Some cb => getAngleDifference fuel ca cb
          | _, _ => Some (ofZ 0)
          end in
        match angleDiff with
        | None => None
        | Some angleDiff =>
            let seg := mkSegment (mx a) (my a) (mx b) (my b) len cum (cum + len)
                         (mc b) angleDiff in
            match buildSegments fuel (cum + len) b rest' with
            | Some (segs, total) => Some (seg :: segs, total)
            | None => None
            end
        end
  end.

Definition previewOfMoves (fuel : nat) (moves : list Move) : option Preview :=
  match moves with
  | [] => Some (mkPreview [] (ofZ 0))
  | a :: rest =>
      match buildSegments fuel (ofZ 0) a rest with
      | Some (segs, total) => Some (mkPreview segs total)
      | None => None
      end
  end.

(** [buildPreviewFromGCode(gcodeText)] of the first copy. *)
Definition buildPreviewFromGCode {NT : NumText num} (fuel : nat)
    (cfg : MachineSettings num) (gcodeText : str) : option Preview :=
  previewOfMoves fuel
    (previewMoves true cfg None None None (splitLines gcodeText)).

(** [buildPreviewFromGCode(gcodeText)] of the second copy. *)
Definition buildPreviewFromGCode2 {NT : NumText num} (fuel : nat)
    (cfg : MachineSettings num) (gcodeText : str) : option Preview :=
  previewOfMoves fuel
    (previewMoves false cfg None None None (splitLines gcodeText)).

(** [x || other] on numbers. *)
Definition orElse (x other : num) : num := if truthy x then x else other.

(** The point of a segment at parameter [t], with the segment's unit
    tangent and heading. *)
Definition positionOn (seg : Segment) (x y : num) : Position :=
  let tx := x2 seg - x1 seg in
  let ty := y2 seg - y1 seg in
  let tl := orElse (hypot tx ty) (ofZ 1) in
  mkPosition x y (tx / tl) (ty / tl) (angle seg)
    (orElse (angleDiff seg) (ofZ 0)).

(** The [for (const seg of preview.segments)] loop of [distToPoint];
    [None] when no segment holds [d]. *)
Fixpoint findSegment (d : num) (segs : list Segment) : option Position :=
  match segs with
  | [] => None
  | seg :: rest =>
      if d <=? cumEnd seg then
        let t := if len seg >? ofZ 0
                 then (d - cumStart seg) / len seg else ofZ 0 in
        let x := x1 seg + (x2 seg - x1 seg) * t in
        let y := y1 seg + (y2 seg - y1 seg) * t in
        Some (positionOn seg x y)
      else findSegment d rest
  end.

(** [distToPoint(d)]; [None] is [null]. *)
Definition distToPoint (pv : Preview) (d : num) : option Position :=
  match segments pv with
  | [] => None
  | first :: others =>
      match findSegment d (segments pv) with
      | Some p => Some p
      | None =>
          let last := List.last others first in
          Some (positionOn last (x2 last) (y2 last))
      end
  end.

End Preview.

Arguments Move : clear implicits.
Arguments Segment : clear implicits.
Arguments Preview : clear implicits.
Arguments Position : clear implicits.

(** A stand-in for [Math.hypot] on exact numbers: the root of
    [dx^2 + dy^2] rounded up to a multiple of 1e-9 (exact where the root
    is such a multiple).  It serves to run the model on concrete input;
    the theorems hold for every [hypot]. *)
Definition hypotUp (dx dy : xnum) : xnum :=
  match dx, dy with
  | Fin a, Fin b =>
      let s := a * a + b * b in
      Fin (Z.sqrt_up (Qceiling (s * inject_Z (10 ^ 18))) # 10 ^ 9)
  | NaN, _ | _, NaN => NaN
  | _, _ => PInf
  end.

(* ----------------------------------------------------------------- *)
(** *** Oriented generators *)

(** The comment that [raw.match] captures after a semicolon: the text
    after the first semicolon that no line terminator follows; empty
    when there is none. *)
Fixpoint commentOf (raw : str) : str :=
  match raw with
  | [] => []
  | c :: rest =>
      if (isChar 59 c && forallb (fun d => negb (isLineTerm d)) rest)%bool
      then rest
      else commentOf rest
  end.

Section Oriented.

Context {num : Type} {JN : JSNumber num} {NT : NumText num}.
Local Open Scope js_scope.

Variable hypot : num -> num -> num.
Variable atan2 : num -> num -> num.
Variable PI : num.

(** The first pass of [generateOrientedGCodeFromBase]: the modal XY
    position after every line that is not blank, once both are known. *)
Fixpoint baseMoves (lastX lastY : option num) (lines : list str)
  : list (Point num) :=
  match lines with
  | [] => []
  | raw :: rest =>
      let line := trim (stripSemicolon raw) in
      if isEmpty line then baseMoves lastX lastY rest
      else
        let lastX := updateField chX line lastX in
        let lastY := updateField chY line lastY in
        match lastX, lastY with
        | Some x, Some y => mkPoint x y :: baseMoves lastX lastY rest
        | _, _ => baseMoves lastX lastY rest
        end
  end.

(** The tangent heading before normalization at move [moveIndex]. *)
Definition baseHeading (moves : list (Point num)) (moveIndex : nat) : num :=
  match moveIndex with
  | S i =>
      let prev := pointAt moves i in
      let curr := pointAt moves moveIndex in
      let dx := px curr - px prev in
      let dy := py curr - py prev in
      if hypot dx dy >? ofDec 1 6 then angleDeg atan2 PI dx dy else ofZ 0
  | O =>
      if (1 <? List.length moves)%nat then
        let curr := pointAt moves 0 in
        let next := pointAt moves 1 in
        let dx := px next - px curr in
        let dy := py next - py curr in
        if hypot dx dy >? ofDec 1 6 then angleDeg atan2 PI dx dy else ofZ 0
      else ofZ 0
  end.

Definition optField (letter : string) (m : option str) : str :=
  match m with
  | Some v => lit letter ++ v ++ lit " "
  | None => []
  end.

(** The rewritten line of the second pass. *)
Definition orientedLine (line comment : str) (lastX lastY : num) (angle : num)
  : str :=
  let gMatch := findGMove is0or1 line in
  let newLine :=
    match gMatch with Some g => lit "G" ++ [g] ++ lit " " | None => [] end
    ++ optField "X" (option_map (fun _ => formatNum lastX) (matchField chX line))
    ++ optField "Y" (option_map (fun _ => formatNum lastY) (matchField chY line))
    ++ optField "Z" (matchField chZ line)
    ++ lit "C" ++ formatNum angle ++ lit " "
    ++ optField "F" (matchField chF line) in
  trim newLine ++ lit " ; ORI=" ++ formatNum angle ++ lit "deg"
    ++ match comment with [] => [] | _ => lit " " ++ comment end.

(** The second pass: the output lines, from the state [lastX], [lastY],
    [moveIndex], [prevAngle]. *)
Fixpoint orientLines (cfg : MachineSettings num) (fuel : nat)
    (moves : list (Point num)) (lastX lastY : option num) (moveIndex : nat)
    (prevAngle : option num) (lines : list str) : option (list str) :=
  match lines with
  | [] => Some []
  | raw :: rest =>
      let comment := commentOf raw in
      let line := trim (stripSemicolon raw) in
      let pass lastX lastY moveIndex prevAngle :=
        match orientLines cfg fuel moves lastX lastY moveIndex prevAngle rest with
        | Some out => Some (raw :: out)
        | None => None
        end in
      if isEmpty line then pass lastX lastY moveIndex prevAngle
      else if (negb (match findGMove is0or1 line with Some _ => true | None => false end)
               && negb (hasLetter chX line) && negb (hasLetter chY line))%bool
      then pass lastX lastY moveIndex prevAngle
      else
        let lastX := updateField chX line lastX in
        let lastY := updateField chY line lastY in
        match lastX, lastY with
        | Some x, Some y =>
            if (moveIndex <? List.length moves)%nat then
              match normalizeAngle cfg fuel (baseHeading moves moveIndex) prevAngle with
              | Some angle =>
                  match orientLines cfg fuel moves lastX lastY (S moveIndex)
                          (Some angle) rest with
                  | Some out => Some (orientedLine line comment x y angle :: out)
                  | None => None
                  end
              | None => None
              end
            else pass lastX lastY moveIndex prevAngle
        | _, _ => pass lastX lastY moveIndex prevAngle
        end
  end.

(** [generateOrientedGCodeFromBase(baseGcode)] *)
Definition generateOrientedGCodeFromBase (cfg : MachineSettings num)
    (fuel : nat) (baseGcode : str) : option str :=
  let lines := splitLines baseGcode in
  let moves := baseMoves None None lines in
  match orientLines cfg fuel moves None None 0 None lines with
  | Some out => Some (join out)
  | None => None
  end.

(** The lines of the loop of [generateOrientedGCodeFromPoints] over the
    samples after [prev], from the heading [prevAngle]. *)
Fixpoint orientedCutLines (flipY : bool) (cfg : MachineSettings num)
    (fuel : nat) (prev : Point num) (prevAngle : num)
    (rest : list (Point num)) : option (list str) :=
  match rest with
  | [] => Some []
  | p :: rest' =>
      let dx := px p - px prev in
      let dy := py p - py prev in
      let c := angleDeg atan2 PI dx dy in
      match normalizeAngle cfg fuel c (Some prevAngle) with
      | Some normalizedC =>
          let x := px p * scaleFactor cfg in
          let y := (if flipY then - py p else py p) * scaleFactor cfg in
          let l := lit "G1 X" ++ formatNum x ++ lit " Y" ++ formatNum y
                   ++ lit " C" ++ formatNum normalizedC
                   ++ lit " F" ++ formatNum (feedRate cfg)
                   ++ lit " ; ORI=" ++ formatNum normalizedC ++ lit "deg" in
          match orientedCutLines flipY cfg fuel p normalizedC rest' with
          | Some out => Some (l :: out)
          | None => None
          end
      | None => None
      end
  end.

Definition orientedPathLines (flipY : bool) (cfg : MachineSettings num)
    (fuel : nat) (poly : list (Point num)) : option (list str) :=
  match poly with
  | [] => Some []
  | p0 :: rest =>
      let x0 := px p0 * scaleFactor cfg in
      let y0 := (if flipY then - py p0 else py p0) * scaleFactor cfg in
      let c0 :=
        match rest with
        | p1 :: _ => angleDeg atan2 PI (px p1 - px p0) (py p1 - py p0)
        | [] => ofZ 0
        end in
      match normalizeAngle cfg fuel c0 None with
      | Some c0 =>
          match orientedCutLines flipY cfg fuel p0 c0 rest with
          | Some cuts =>
              Some ([ lit "G0 Z" ++ formatNum (safeHeight cfg) ++ lit " ; Safe height";
                      lit "G0 X" ++ formatNum x0 ++ lit " Y" ++ formatNum y0
                        ++ lit " C" ++ formatNum c0
                        ++ lit " ; ORI=" ++ formatNum c0 ++ lit "deg";
                      lit "G1 Z" ++ formatNum (cutDepth cfg) ++ lit " F"
                        ++ formatNum (feedRate cfg) ++ lit " ; Plunge to cut depth" ]
                    ++ cuts
                    ++ [ lit "G0 Z" ++ formatNum (safeHeight cfg) ++ lit " ; Retract" ])
          | None => None
          end
      | None => None
      end
  end.

(** [generateOrientedGCodeFromPoints()] of the first copy ([flipY] true)
    and of the second. *)
Definition orientedOfPoints (flipY : bool) (fuel : nat) (now : str)
    (cfg : MachineSettings num) (points : list (Point num))
    (curveResolution : num) : option str :=
  match samplePolylinePoints fuel points curveResolution with
  | Some poly =>
      match orientedPathLines flipY cfg fuel poly with
      | Some body =>
          Some (join (headerLines (lit "; TangentCNC G-code (with orientation)") now cfg
                      ++ [ lit "; Orientation C: heading in degrees (0" ++ [degreeSign]
                             ++ lit " = +X, CCW+, Y up)";
                           lit "; ORI: same heading in comment for controllers without C-axis" ]
                      ++ modeLines cfg
                      ++ body
                      ++ [ lit "M2     ; Program end" ]))
      | None => None
      end
  | None => None
  end.

Definition generateOrientedGCodeFromPoints := orientedOfPoints true.

Definition generateOrientedGCodeFromPoints2 := orientedOfPoints false.

End Oriented.

(** A stand-in for [Math.PI] on exact numbers. *)
Definition piApprox : xnum := Fin (355 # 113).

(** A stand-in for [Math.atan2] on exact numbers: the multiple of
    [piApprox / 4] along the axes and the diagonals, NaN in every other
    direction.  With [piApprox] it makes [angleDeg] exact in the eight
    compass directions, which is all that the evaluations below use. *)
Definition atan2Compass (dy dx : xnum) : xnum :=
  match dy, dx with
  | Fin y, Fin x =>
      let eighth (k : Z) := Fin (inject_Z k * (355 # 113) / 4) in
      match (x ?= 0), (y ?= 0) with
      | Eq, Eq => eighth 0%Z
      | Gt, Eq => eighth 0%Z
      | Lt, Eq => eighth 4%Z
      | Eq, Gt => eighth 2%Z
      | Eq, Lt => eighth (-2)%Z
      | Gt, Gt => if Qeq_bool x y then eighth 1%Z else NaN
      | Lt, Gt => if Qeq_bool (- x) y then eighth 3%Z else NaN
      | Lt, Lt => if Qeq_bool x y then eighth (-3)%Z else NaN
      | Gt, Lt => if Qeq_bool x (- y) then eighth (-1)%Z else NaN
      end
  | _, _ => NaN
  end.

(* ----------------------------------------------------------------- *)
(** *** Playback state *)

Section Playback.

Context {num : Type} {JN : JSNumber num}.
Local Open Scope js_scope.

(** The fields of [preview] that the playback functions read and
    write; [pb_path] holds [segments] and [totalLength].  Drawing and
    the texts written into the page are left out. *)
Record Playback : Type := mkPlayback {
  pb_path : Preview num;
  pb_playing : bool;
  pb_speedPxPerSec : num;
  pb_currentDist : num;
  pb_lastTs : option num;
  pb_gcodeLoaded : bool
}.

Definition withDist (d : num) (st : Playback) : Playback :=
  mkPlayback (pb_path st) (pb_playing st) (pb_speedPxPerSec st) d
    (pb_lastTs st) (pb_gcodeLoaded st).

Definition withLastTs (t : option num) (st : Playback) : Playback :=
  mkPlayback (pb_path st) (pb_playing st) (pb_speedPxPerSec st)
    (pb_currentDist st) t (pb_gcodeLoaded st).

Definition withPlaying (b : bool) (st : Playback) : Playback :=
  mkPlayback (pb_path st) b (pb_speedPxPerSec st) (pb_currentDist st)
    (pb_lastTs st) (pb_gcodeLoaded st).

(** What a call of [togglePlay] does besides changing the state: one of
    its two alerts, or the request of a frame for [step], or nothing
    more than the pause. *)
Inductive PlayOutcome : Type :=
  | AlertNoGCode
  | AlertNoPath
  | FrameRequested
  | Paused.

(** [togglePlay(forceState)]; [None] for a call without argument. *)
Definition togglePlay (forceState : option bool) (st : Playback)
  : Playback * PlayOutcome :=
  if negb (pb_gcodeLoaded st) then (st, AlertNoGCode)
  else
    let want := match forceState with
                | Some b => b
                | None => negb (pb_playing st)
                end in
    if totalLength (pb_path st) <=? ofZ 0 then (st, AlertNoPath)
    else
      let st := withPlaying want st in
      if want then (withLastTs None st, FrameRequested) else (st, Paused).

(** [step(ts)]: the new state, and whether another frame is
    requested. *)
Definition step (ts : num) (st : Playback) : Playback * bool :=
  if negb (pb_playing st) then (st, false)
  else
    let lastTs := match pb_lastTs st with
                  | None => ts
                  | Some l => l
                  end in
    let dt := (ts - lastTs) / ofZ 1000 in
    let st := withLastTs (Some ts) st in
    let st := withDist (pb_currentDist st + pb_speedPxPerSec st * dt) st in
    if totalLength (pb_path st) <=? pb_currentDist st then
      let st := withDist (totalLength (pb_path st)) st in
      (fst (togglePlay (Some false) st), false)
    else (st, true).

(** [resetPreview()] *)
Definition resetPreview (st : Playback) : Playback :=
  fst (togglePlay (Some false) (withLastTs None (withDist (ofZ 0) st))).

(** [clampPreviewDist()] *)
Definition clampPreviewDist (st : Playback) : Playback :=
  let st := if pb_currentDist st <? ofZ 0 then withDist (ofZ 0) st else st in
  if pb_currentDist st >? totalLength (pb_path st)
  then withDist (totalLength (pb_path st)) st
  else st.

(** The handler of the progress slider, for the parsed value [v]. *)
Definition scrubTo (v : num) (st : Playback) : Playback :=
  clampPreviewDist (withDist (totalLength (pb_path st) * (v / ofZ 100)) st).

(** The percentage that [updateProgressUI] shows. *)
Definition progressPercent (st : Playback) : num :=
  if totalLength (pb_path st) >? ofZ 0
  then (pb_currentDist st / totalLength (pb_path st)) * ofZ 100
  else ofZ 0.

(** [rebuildPreviewPathPreserveProgress()] *)
Definition rebuildPreviewPathPreserveProgress (st : Playback) : Playback :=
  mkPlayback (mkPreview [] (ofZ 0)) (pb_playing st) (pb_speedPxPerSec st)
    (ofZ 0) (pb_lastTs st) false.

(** What [buildPreviewFromGCode] leaves in [preview] besides the path. *)
Definition loadPreview (pv : Preview num) (st : Playback) : Playback :=
  mkPlayback pv (pb_playing st) (pb_speedPxPerSec st) (ofZ 0) (pb_lastTs st) true.

End Playback.

Arguments Playback : clear implicits.

(* ----------------------------------------------------------------- *)
(** *** Editing the control points *)

Section Editor.

Context {num : Type} {JN : JSNumber num}.
Local Open Scope js_scope.

(** [Math.sqrt], and [x ** 2] *)
Variable sqrt : num -> num.
Variable square : num -> num.

(** [Math.sqrt((p.x - x) ** 2 + (p.y - y) ** 2)] *)
Definition hitDistance (p : Point num) (x y : num) : num :=
  sqrt (square (px p - x) + square (py p - y)).

(** The loop of [getPointAt] over the points from index [i] on. *)
Fixpoint firstHit (hitRadius x y : num) (i : nat) (points : list (Point num))
  : option nat :=
  match points with
  | [] => None
  | p :: rest =>
      if hitDistance p x y <? hitRadius then Some i
      else firstHit hitRadius x y (S i) rest
  end.

(** The radius that [getPointAt] uses; [isMobile] is
    [window.innerWidth <= 768]. *)
Definition hitRadiusOf (isMobile : bool) (radius : num) : num :=
  if isMobile then ofZ 20 else radius.

(** [getPointAt(x, y, radius)]; [None] is [null]. *)
Definition getPointAt (isMobile : bool) (points : list (Point num))
    (x y radius : num) : option nat :=
  firstHit (hitRadiusOf isMobile radius) x y 0 points.

(** [points.splice(idx, 1)] for an index within the list. *)
Definition removeAt (idx : nat) (points : list (Point num)) : list (Point num) :=
  firstn idx points ++ skipn (S idx) points.

(** The points after the click handler of the canvas has run for a
    click at [(x, y)]. *)
Definition clickAt (isDragging deleteMode isMobile : bool)
    (points : list (Point num)) (x y : num) : list (Point num) :=
  if isDragging then points
  else
    match getPointAt isMobile points x y (ofZ 8) with
    | Some idx => if deleteMode then removeAt idx points else points
    | None => points ++ [mkPoint x y]
    end.

(** The points after the context-menu handler has run. *)
Definition contextMenuAt (isMobile : bool) (points : list (Point num))
    (x y : num) : list (Point num) :=
  match getPointAt isMobile points x y (ofZ 8) with
  | Some idx => removeAt idx points
  | None => points
  end.

End Editor.

(* ================================================================= *)
(** ** The parser's modal semantics, as the specification words it *)

Section ModalSpec.

Context {num : Type} {JN : JSNumber num} {NT : NumText num}.
Local Open Scope js_scope.

(** The X, Y and C fields a line holds. *)
Definition Fields : Type := (option num * option num * option num)%type.

Definition fieldX (f : Fields) : option num := fst (fst f).
Definition fieldY (f : Fields) : option num := snd (fst f).
Definition fieldC (f : Fields) : option num := snd f.

(** What [parseGCode] reads on a line: [None] when it passes the line
    over, else the fields found (it reads no C). *)
Definition parserFields (raw : str) : option Fields :=
  let line := cleanLine raw in
  if isEmpty line then None
  else if negb (looksLikeMotion line) then None
  else Some (option_map parseFloat (matchField chX line),
             option_map parseFloat (matchField chY line),
             None).

(** What the first loop of [buildPreviewFromGCode] reads on a line. *)
Definition previewFields (raw : str) : option Fields :=
  let line := cleanLine raw in
  if isEmpty line then None
  else if (negb (match findGMove is0or1 line with Some _ => true | None => false end)
           && negb (hasLetter chX line) && negb (hasLetter chY line))%bool
  then None
  else Some (option_map parseFloat (matchField chX line),
             option_map parseFloat (matchField chY line),
             option_map parseFloat (matchField chC line)).

(** The running value of a field: the one of the last line, among the
    lines [evs] read so far, that holds the field. *)
Definition lastSeen (sel : Fields -> option num) (evs : list (option Fields))
  : option num :=
  fold_left
    (fun acc e =>
       match e with
       | Some f => match sel f with Some v => Some v | None => acc end
       | None => acc
       end) evs None.

(** The sample of line [k], if any: the line must be one the parser
    reads, and X and Y must each have been seen on a line up to [k]. *)
Definition sampleAt {A : Type} (emit : num -> num -> option num -> A)
    (evs : list (option Fields)) (k : nat) : list A :=
  match nth k evs None with
  | None => []
  | Some _ =>
      let seen := firstn (S k) evs in
      match lastSeen fieldX seen, lastSeen fieldY seen with
      | Some x, Some y => [emit x y (lastSeen fieldC seen)]
      | _, _ => []
      end
  end.

Definition modalSamples {A : Type} (emit : num -> num -> option num -> A)
    (evs : list (option Fields)) : list A :=
  flat_map (sampleAt emit evs) (seq 0 (List.length evs)).

End ModalSpec.

(* ================================================================= *)
(** ** Sample inputs *)

(** The default [machineSettings], on binary64 and on exact numbers. *)
Definition defaultSettings64 : MachineSettings float :=
  mkSettings Mm (fdec 1 1) 5%float (-1)%float 300%float 1000%float
    Mode180 0%float true.

Definition defaultSettings : MachineSettings xnum :=
  mkSettings Mm (Fin (1 # 10)) (Fin 5) (Fin (-1)) (Fin 300) (Fin 1000)
    Mode180 (Fin 0) true.

Definition withScale (sf : xnum) (cfg : MachineSettings xnum)
  : MachineSettings xnum :=
  mkSettings (unit_ cfg) sf (safeHeight cfg) (cutDepth cfg) (feedRate cfg)
    (rapidRate cfg) (angleMode cfg) (angleOffset cfg) (shortestPath cfg).

Definition withAngles (mode : AngleMode) (offset : xnum)
    (cfg : MachineSettings xnum) : MachineSettings xnum :=
  mkSettings (unit_ cfg) (scaleFactor cfg) (safeHeight cfg) (cutDepth cfg)
    (feedRate cfg) (rapidRate cfg) mode offset (shortestPath cfg).

Definition sampleDate : str := lit "2024-01-01T00:00:00.000Z".

(* ================================================================= *)
(** ** Notions used in the statements *)

(** The range a heading is folded into. *)
Definition inRange (mode : AngleMode) (v : Q) : Prop :=
  match mode with
  | Mode180 => -180 < v <= 180
  | Mode360 => 0 <= v < 360
  end.

(** [q'] is [q] moved by a whole number of turns. *)
Definition turnsApart (q q' : Q) : Prop :=
  exists j : Z, q' == q + 360 * inject_Z j.

(** Fuel that suffices to fold [q] into (-180, 180]: the number of
    turns in [|q|]. *)
Definition turnsOf (q : Q) : nat := Z.to_nat (Qceiling (Qabs q / 360)).

(** The remainder of the division by 360, and the fold of the ['0-360']
    mode built from it. *)
Definition rem360 (p : Q) : Q := p - 360 * inject_Z (Qtrunc (p / 360)).

Definition fold360 (p : Q) : Q := rem360 (rem360 p + 360).

(** An offset of a quarter turn, in the ['0-360'] mode. *)
Definition quarterTurn : MachineSettings xnum :=
  withAngles Mode360 (Fin 90) defaultSettings.

(** 1e19, a binary64 value whose neighbours are 2048 apart. *)
Definition huge : float := 10000000000000000000%float.

(** The move that the first loop of [buildPreviewFromGCode] stores for
    the modal values [x], [y], [c]. *)
Definition moveOf {num : Type} {JN : JSNumber num} (flipY : bool)
    (cfg : MachineSettings num) (x y : num) (c : option num) : Move num :=
  mkMove (x / scaleFactor cfg)%js
         ((if flipY then - y else y) / scaleFactor cfg)%js c.

(** A segment list that starts at the running length [cum], each segment
    starting where the one before ends, and that ends at [total]. *)
Fixpoint partitionFrom {num : Type} {JN : JSNumber num} (cum : num)
    (segs : list (Segment num)) (total : num) : Prop :=
  match segs with
  | [] => total = cum
  | s :: rest =>
      cumStart s = cum
      /\ cumEnd s = (cumStart s + len s)%js
      /\ (len s <=? ofDec 1 6)%js = false
      /\ partitionFrom (cumEnd s) rest total
  end.

(** [segs] are consecutive: each starts where the one before ends. *)
Definition contiguous {num : Type} (segs : list (Segment num)) : Prop :=
  forall (i : nat) (s s' : Segment num),
    nth_error segs i = Some s -> nth_error segs (S i) = Some s' ->
    cumStart s' = cumEnd s.

Definition finiteMove (m : Move xnum) : Prop := finite (mx m) /\ finite (my m).

(** A segment of positive length between finite points. *)
Definition properSegment (s : Segment xnum) : Prop :=
  finite (x1 s) /\ finite (y1 s) /\ finite (x2 s) /\ finite (y2 s)
  /\ finite (len s) /\ finite (cumStart s) /\ finite (cumEnd s)
  /\ 0 < toQ (len s) /\ toQ (cumStart s) < toQ (cumEnd s).

(** No two of [segs] overlap: a later one starts no earlier than an
    earlier one ends. *)
Definition nonOverlapping (segs : list (Segment xnum)) : Prop :=
  forall (i j : nat) (s s' : Segment xnum),
    (i < j)%nat -> nth_error segs i = Some s -> nth_error segs j = Some s' ->
    toQ (cumEnd s) <= toQ (cumStart s').

(** The characters of a printed number: a digit, the minus sign, the
    decimal point. *)
Definition numChar (c : ascii) : bool :=
  (isDigit c || isChar 45 c || isChar 46 c)%bool.

(** No character of [s] is the letter [upper], in either case. *)
Definition noLetter (upper : N) (s : str) : bool :=
  forallb (fun c => negb (isLetter upper c)) s.

(** No line terminator stands in [s]. *)
Definition oneLine (s : str) : bool := forallb (fun c => negb (isLineTerm c)) s.

(** Neither a semicolon, nor an opening parenthesis, nor a line
    terminator stands in [s]: cleaning a line leaves such text alone. *)
Definition plainText (s : str) : bool :=
  forallb (fun c => negb (isChar 59 c || isChar 40 c || isLineTerm c)) s.

(** A run of digits ends where [s] starts. *)
Definition stopsDigits (s : str) : bool :=
  match s with
  | [] => true
  | c :: _ => negb (isDigit c)
  end.

(** The number that [q.toFixed(3)] denotes: [q] rounded to thousandths. *)
Definition round3 (q : Q) : Q :=
  let v := inject_Z (thousandths q) / 1000 in
  if Qltb q 0 then - v else v.

(** A number that [toFixed] prints in fixed notation. *)
Definition printable (a : xnum) : Prop :=
  match a with
  | Fin q => Qabs q < inject_Z (10 ^ 21)
  | _ => False
  end.

(** A signed decimal with digits on both sides of the point: the form
    that [toFixed] prints. *)
Definition decimalText (negative : bool) (ip fp : str) : str :=
  (if negative then ["-"%char] else []) ++ ip ++ "."%char :: fp.

(** What the parser of the first copy returns for a sample that the
    generator of the first copy printed. *)
Definition parsedPoint (cfg : MachineSettings xnum) (p : Point xnum)
  : Point xnum :=
  let sf := scaleFactor cfg in
  mkPoint (parseFloat (formatNum (px p * sf)) / sf)%js
          (- parseFloat (formatNum (- py p * sf)) / sf)%js.

(** The sample [q] is finite and within [tol] of [p] in each
    coordinate. *)
Definition near (tol : Q) (p q : Point xnum) : Prop :=
  finite (px q) /\ finite (py q)
  /\ Qabs (toQ (px q) - toQ (px p)) <= tol
  /\ Qabs (toQ (py q) - toQ (py p)) <= tol.

(** A list with its first element once more in front and its last
    element once more at the end. *)
Definition framed {A : Type} (qs : list A) : list A :=
  match qs with
  | [] => []
  | q0 :: _ => q0 :: qs ++ [last qs q0]
  end.

(** The scaled coordinates of [p] are printed in fixed notation. *)
Definition printablePoint (cfg : MachineSettings xnum) (p : Point xnum) : Prop :=
  printable (px p * scaleFactor cfg)%js
  /\ printable (- py p * scaleFactor cfg)%js.

Definition finitePoint (p : Point xnum) : Prop := finite (px p) /\ finite (py p).

Definition optFinite (o : option xnum) : Prop :=
  match o with Some a => finite a | None => True end.

(** A short oriented program: three distinct positions, one repeated,
    with headings. *)
Definition sampleProgram : str :=
  join [ lit "; sample";
         lit "G0 X0 Y0 C0";
         lit "G1 Z-1.000 F300.000";
         lit "G1 X3 Y-4 C10";
         lit "G1 X3 Y-4 C20";
         lit "G1 X6 Y-8 C350";
         lit "M2" ].

(** A text that starts with a character other than a blank. *)
Definition startsClean (s : str) : bool :=
  match s with
  | c :: _ => negb (isSpace c)
  | [] => false
  end.

(** A printed number: digits, sign and point only, a digit at the end. *)
Definition printedNumber (f : str) : Prop :=
  forallb numChar f = true
  /\ exists (body : str) (d : ascii), f = body ++ [d] /\ isDigit d = true.

(** The X and Y fields that a parser reads on the line that a generator
    printed for [p]; [flipY] as in [cutLine]. *)
Definition readX (cfg : MachineSettings xnum) (p : Point xnum) : xnum :=
  parseFloat (formatNum (px p * scaleFactor cfg)%js).

Definition readY (flipY : bool) (cfg : MachineSettings xnum) (p : Point xnum)
  : xnum :=
  parseFloat (formatNum ((if flipY then - py p else py p) * scaleFactor cfg)%js).

(** The scaled coordinates of [p] are printed in fixed notation, in
    either copy. *)
Definition printableAs (flipY : bool) (cfg : MachineSettings xnum)
    (p : Point xnum) : Prop :=
  printable (px p * scaleFactor cfg)%js
  /\ printable ((if flipY then - py p else py p) * scaleFactor cfg)%js.

(** What the parser of the second copy returns for a sample that the
    generator of the second copy printed: the fields as read. *)
Definition parsedPoint2 (cfg : MachineSettings xnum) (p : Point xnum)
  : Point xnum :=
  mkPoint (readX cfg p) (readY false cfg p).

(** The sample that a parser makes, by [emit], of what it reads on the
    line of [p]. *)
Definition readBack (cfg : MachineSettings xnum) (flipY : bool)
    (emit : xnum -> xnum -> Point xnum) (p : Point xnum) : Point xnum :=
  emit (readX cfg p) (readY flipY cfg p).

(** The sample [q] is finite and within [tol] of [p] scaled by [s] in
    each coordinate. *)
Definition nearScaled (tol s : Q) (p q : Point xnum) : Prop :=
  finite (px q) /\ finite (py q)
  /\ Qabs (toQ (px q) - toQ (px p) * s) <= tol
  /\ Qabs (toQ (py q) - toQ (py p) * s) <= tol.

(** A stroke shorter than the printed precision at the default scale,
    and a stroke with a sample in the middle. *)
Definition shortStroke : list (Point xnum) :=
  [mkPoint (Fin 0) (Fin 0); mkPoint (Fin (1 # 250)) (Fin 0)].

Definition slantedStroke : list (Point xnum) :=
  [mkPoint (Fin 0) (Fin 0); mkPoint (Fin 30) (Fin 40)].

(** [slantedStroke] sampled at resolution 2. *)
Definition slantedPolyline : list (Point xnum) :=
  [mkPoint (Fin 0) (Fin 0); mkPoint (Fin (30 # 2)) (Fin (40 # 2));
   mkPoint (Fin (120 # 4)) (Fin (160 # 4))].

(** A stroke straight down the canvas. *)
Definition downStroke : list (Point xnum) :=
  [mkPoint (Fin 0) (Fin 0); mkPoint (Fin 0) (Fin 100)].

(** The lines of a program that hold a heading field. *)
Definition headingLines (text : str) : list str :=
  filter (fun l => match matchField chC (cleanLine l) with
                   | Some _ => true
                   | None => false
                   end)
    (splitLines text).

(** Two and three control points on binary64. *)
Definition rightStroke64 : list (Point float) :=
  [mkPoint 0%float 0%float; mkPoint 100%float 0%float].

Definition cornerStroke64 : list (Point float) :=
  [mkPoint 0%float 0%float; mkPoint 100%float 0%float;
   mkPoint 100%float 100%float].

(** A stand-in for [Math.hypot] on binary64: the rounded root of the
    rounded sum of squares.  Along an axis, at the lengths used below
    (2e10 and 1.1e-6), it returns the length itself, as [Math.hypot]
    does. *)
Definition hypot64 (dx dy : float) : float :=
  PrimFloat.sqrt (PrimFloat.add (PrimFloat.mul dx dx) (PrimFloat.mul dy dy)).

(** The moves of a long path with a short last step: from the origin
    along X to 2e10 with heading 0, then 1.1e-6 along Y with heading
    90. *)
Definition longPath64 : list (Move float) :=
  [mkMove 0%float 0%float (Some 0%float);
   mkMove 20000000000%float 0%float (Some 0%float);
   mkMove 20000000000%float (fdec 11 7) (Some 90%float)].

(** Two points with numerically equal coordinates. *)
Definition samePoint (p q : Point xnum) : Prop :=
  xeq (px p) (px q) /\ xeq (py p) (py q).

(** A line that the second pass of [generateOrientedGCodeFromBase]
    copies to the output as it is: empty once the comment is cut and
    the blanks are trimmed, or without G0, G1, X and Y. *)
Definition passesThrough (raw : str) : bool :=
  let line := trim (stripSemicolon raw) in
  (isEmpty line
   || (negb (match findGMove is0or1 line with Some _ => true | None => false end)
       && negb (hasLetter chX line) && negb (hasLetter chY line)))%bool.

(** The playback position is a finite distance within the path. *)
Definition withinPath (st : Playback xnum) : Prop :=
  finite (pb_currentDist st) /\ finite (totalLength (pb_path st))
  /\ 0 <= toQ (pb_currentDist st) <= toQ (totalLength (pb_path st)).

(** A playback state half way along a path of length 100, playing at
    200 px/s since the time stamp 1000. *)
Definition samplePlayback : Playback xnum :=
  mkPlayback (mkPreview [] (Fin 100)) true (Fin 200) (Fin 50) (Some (Fin 1000)) true.

(** The lines joined by carriage return and line feed. *)
Fixpoint joinCRLF (ls : list str) : str :=
  match ls with
  | [] => []
  | l :: rest =>
      match rest with
      | [] => l
      | _ :: _ => l ++ CR :: NL :: joinCRLF rest
      end
  end.

(** A line with a semicolon comment behind it. *)
Definition withComment (l : str * str) : str := fst l ++ ";"%char :: snd l.

(** Three lines of a program, each with a comment to put behind it. *)
Definition commentedLines : list (str * str) :=
  [ (lit "G0 X1 Y2", lit " start");
    (lit "G1 Z-1", lit "plunge; twice");
    (lit "G1 X3 Y4 ; cut", lit " again") ].

(* ================================================================= *)
(** * Properties *)

Unset Implicit Arguments.

(* ----------------------------------------------------------------- *)
(** ** Exact arithmetic: comparisons *)

Lemma Qltb_true (a b : Q) : Qltb a b = true <-> a < b.
Proof.
  unfold Qltb. rewrite negb_true_iff.
  split; intro H.
  - apply Qnot_le_lt. intro L. apply Qle_bool_iff in L. congruence.
  - destruct (Qle_bool b a) eqn:E; [|reflexivity].
    apply Qle_bool_iff in E. exfalso. lra.
Qed.

Lemma Qltb_false (a b : Q) : Qltb a b = false <-> b <= a.
Proof.
  unfold Qltb. rewrite negb_false_iff. apply Qle_bool_iff.
Qed.

Lemma Qle_bool_false (a b : Q) : Qle_bool a b = false <-> b < a.
Proof.
  rewrite <- Qltb_true. unfold Qltb.
  destruct (Qle_bool a b); simpl; intuition congruence.
Qed.

(** ** The folding loops on exact numbers *)

Local Open Scope Q_scope.

Lemma turnsApart_refl q : turnsApart q q.
Proof. exists 0%Z. change (inject_Z 0) with 0. lra. Qed.

Lemma turnsApart_trans a b c : turnsApart a b -> turnsApart b c -> turnsApart a c.
Proof.
  intros [j Hj] [k Hk]. exists (j + k)%Z. rewrite inject_Z_plus. lra.
Qed.

Lemma turnsApart_shift a b (k : Z) :
  turnsApart a b -> turnsApart (a + 360 * inject_Z k) b.
Proof.
  intros [j Hj]. exists (j - k)%Z.
  unfold Z.sub. rewrite inject_Z_plus, inject_Z_opp. lra.
Qed.

(** Two numbers of one half-open turn that are whole turns apart are
    equal. *)
Lemma turnsApart_unique (lo a b : Q) :
  turnsApart a b -> lo < a <= lo + 360 -> lo < b <= lo + 360 -> b == a.
Proof.
  intros [j Hj] Ha Hb.
  assert (Hz : (j = 0)%Z).
  { destruct (Z_lt_le_dec j 0) as [Hneg|Hnn].
    - assert (inject_Z j <= -1).
      { change (-1) with (inject_Z (-1)). rewrite <- Zle_Qle. lia. }
      lra.
    - destruct (Z_le_lt_eq_dec 0 j Hnn) as [Hpos|Heq]; [|congruence].
      assert (1 <= inject_Z j).
      { change 1 with (inject_Z 1). rewrite <- Zle_Qle. lia. }
      lra. }
  subst j. change (inject_Z 0) with 0 in Hj. lra.
Qed.

Lemma turnsApart_unique' (lo a b : Q) :
  turnsApart a b -> lo <= a < lo + 360 -> lo <= b < lo + 360 -> b == a.
Proof.
  intros [j Hj] Ha Hb.
  assert (Hz : (j = 0)%Z).
  { destruct (Z_lt_le_dec j 0) as [Hneg|Hnn].
    - assert (inject_Z j <= -1).
      { change (-1) with (inject_Z (-1)). rewrite <- Zle_Qle. lia. }
      lra.
    - destruct (Z_le_lt_eq_dec 0 j Hnn) as [Hpos|Heq]; [|congruence].
      assert (1 <= inject_Z j).
      { change 1 with (inject_Z 1). rewrite <- Zle_Qle. lia. }
      lra. }
  subst j. change (inject_Z 0) with 0 in Hj. lra.
Qed.

Lemma foldDown_step (fuel : nat) (q : Q) :
  foldDown (S fuel) (Fin q) =
  if Qltb 180 q then foldDown fuel (Fin (q + - 360)) else Some (Fin q).
Proof. reflexivity. Qed.

Lemma foldUp_step (fuel : nat) (q : Q) :
  foldUp (S fuel) (Fin q) =
  if Qle_bool q (- 180) then foldUp fuel (Fin (q + 360)) else Some (Fin q).
Proof. reflexivity. Qed.

Lemma inject_Z_S (k : nat) : inject_Z (Z.of_nat (S k)) == inject_Z (Z.of_nat k) + 1.
Proof. rewrite Nat2Z.inj_succ. unfold Z.succ. rewrite inject_Z_plus. reflexivity. Qed.

Lemma foldDown_exact (k : nat) : forall q : Q,
  q <= 180 + 360 * inject_Z (Z.of_nat k) ->
  exists q',
    (forall fuel, (k < fuel)%nat -> foldDown fuel (Fin q) = Some (Fin q'))
    /\ q' <= 180 /\ turnsApart q q'
    /\ (180 < q -> -180 < q') /\ (q <= 180 -> q' = q).
Proof.
  induction k as [|k IH]; intros q Hq.
  - change (inject_Z (Z.of_nat 0)) with 0 in Hq.
    exists q. repeat split; try lra; auto using turnsApart_refl.
    intros [|fuel] Hfuel; [lia|]. rewrite foldDown_step.
    replace (Qltb 180 q) with false by (symmetry; apply Qltb_false; lra).
    reflexivity.
  - rewrite inject_Z_S in Hq.
    destruct (Qltb 180 q) eqn:E.
    + apply Qltb_true in E.
      destruct (IH (q + - 360)) as (q' & Hrun & Hle & Hturn & Hgt & Hid); [lra|].
      exists q'. split.
      { intros [|fuel] Hfuel; [lia|]. rewrite foldDown_step.
        replace (Qltb 180 q) with true by (symmetry; apply Qltb_true; lra).
        apply Hrun. lia. }
      split; [exact Hle|]. split.
      { apply turnsApart_trans with (q + - 360); [|exact Hturn].
        exists (-1)%Z. change (inject_Z (-1)) with (-1). lra. }
      split; [|lra].
      intros _. destruct (Qlt_le_dec 180 (q + - 360)) as [Hbig|Hsmall].
      * auto.
      * rewrite (Hid Hsmall). lra.
    + exists q. apply Qltb_false in E.
      repeat split; try lra; auto using turnsApart_refl.
      intros [|fuel] Hfuel; [lia|]. rewrite foldDown_step.
      replace (Qltb 180 q) with false by (symmetry; apply Qltb_false; lra).
      reflexivity.
Qed.

Lemma foldUp_exact (k : nat) : forall q : Q,
  - 180 - 360 * inject_Z (Z.of_nat k) < q ->
  exists q',
    (forall fuel, (k < fuel)%nat -> foldUp fuel (Fin q) = Some (Fin q'))
    /\ -180 < q' /\ turnsApart q q'
    /\ (q <= -180 -> q' <= 180) /\ (-180 < q -> q' = q).
Proof.
  induction k as [|k IH]; intros q Hq.
  - change (inject_Z (Z.of_nat 0)) with 0 in Hq.
    exists q. repeat split; try lra; auto using turnsApart_refl.
    intros [|fuel] Hfuel; [lia|]. rewrite foldUp_step.
    replace (Qle_bool q (- 180)) with false by (symmetry; apply Qle_bool_false; lra).
    reflexivity.
  - rewrite inject_Z_S in Hq.
    destruct (Qle_bool q (- 180)) eqn:E.
    + apply Qle_bool_iff in E.
      destruct (IH (q + 360)) as (q' & Hrun & Hle & Hturn & Hgt & Hid); [lra|].
      exists q'. split.
      { intros [|fuel] Hfuel; [lia|]. rewrite foldUp_step.
        replace (Qle_bool q (- 180)) with true by (symmetry; apply Qle_bool_iff; lra).
        apply Hrun. lia. }
      split; [exact Hle|]. split.
      { apply turnsApart_trans with (q + 360); [|exact Hturn].
        exists 1%Z. change (inject_Z 1) with 1. lra. }
      split; [|lra].
      intros _. destruct (Qlt_le_dec (-180) (q + 360)) as [Hbig|Hsmall].
      * rewrite (Hid Hbig). lra.
      * auto.
    + exists q. apply Qle_bool_false in E.
      repeat split; try lra; auto using turnsApart_refl.
      intros [|fuel] Hfuel; [lia|]. rewrite foldUp_step.
      replace (Qle_bool q (- 180)) with false by (symmetry; apply Qle_bool_false; lra).
      reflexivity.
Qed.

Lemma turnsOf_bound (q : Q) : Qabs q <= 360 * inject_Z (Z.of_nat (turnsOf q)).
Proof.
  unfold turnsOf.
  assert (Hq : Qabs q == (Qabs q / 360) * 360) by field.
  pose proof (Qabs_nonneg q) as Hn.
  pose proof (Qle_ceiling (Qabs q / 360)) as H.
  set (x := Qabs q / 360) in *. clearbody x.
  assert (Hc : (0 <= Qceiling x)%Z).
  { change 0%Z with (Qceiling 0). apply Qceiling_resp_le. lra. }
  rewrite Z2Nat.id by exact Hc.
  lra.
Qed.

Lemma Qabs_bounds (q : Q) : - Qabs q <= q <= Qabs q.
Proof.
  split; [|apply Qle_Qabs].
  rewrite <- (Qopp_involutive q) at 2. apply Qopp_le_compat.
  rewrite <- Qabs_opp. apply Qle_Qabs.
Qed.

Lemma fold180_exact (q : Q) :
  exists q',
    (forall fuel, (turnsOf q < fuel)%nat -> fold180 fuel (Fin q) = Some (Fin q'))
    /\ -180 < q' <= 180 /\ turnsApart q q'.
Proof.
  unfold fold180.
  pose proof (turnsOf_bound q) as Hb. pose proof (Qabs_bounds q) as Ha.
  destruct (foldDown_exact (turnsOf q) q) as (m & Hrun & Hle & Hturn & Hgt & Hid);
    [lra|].
  destruct (Qlt_le_dec 180 q) as [Hbig|Hsmall].
  - specialize (Hgt Hbig).
    destruct (foldUp_exact 0 m) as (q' & Hrun' & Hlo & Hturn' & Hhi & Hid').
    { change (inject_Z (Z.of_nat 0)) with 0. lra. }
    rewrite (Hid' Hgt) in *.
    exists m. split; [|split; [lra|exact Hturn]].
    intros fuel Hfuel. rewrite (Hrun fuel Hfuel). apply Hrun'. lia.
  - rewrite (Hid Hsmall) in *.
    destruct (foldUp_exact (turnsOf q) q) as (q' & Hrun' & Hlo & Hturn' & Hhi & Hid');
      [lra|].
    exists q'. split; [|split; [|exact Hturn']].
    + intros fuel Hfuel. rewrite (Hrun fuel Hfuel). apply Hrun'. exact Hfuel.
    + split; [exact Hlo|].
      destruct (Qlt_le_dec (-180) q) as [Hin|Hout].
      * rewrite (Hid' Hin). exact Hsmall.
      * auto.
Qed.

Lemma xrem_360 (p : Q) : xrem (Fin p) (Fin 360) = Fin (rem360 p).
Proof. reflexivity. Qed.

Lemma rem360_spec (p : Q) :
  turnsApart p (rem360 p) /\ -360 < rem360 p < 360 /\ (0 <= p -> 0 <= rem360 p).
Proof.
  unfold rem360, Qtrunc.
  assert (Hp : p == (p / 360) * 360) by field.
  set (x := p / 360) in *. clearbody x.
  split.
  { exists (- (if Qle_bool 0 x then Qfloor x else Qceiling x))%Z.
    rewrite inject_Z_opp. lra. }
  destruct (Qle_bool 0 x) eqn:E.
  - apply Qle_bool_iff in E.
    pose proof (Qfloor_le x) as H1.
    pose proof (Qlt_floor x) as H2.
    rewrite inject_Z_plus in H2. change (inject_Z 1) with 1 in H2.
    split; [split; lra | intro; lra].
  - apply Qle_bool_false in E.
    pose proof (Qle_ceiling x) as H1.
    pose proof (Qceiling_lt x) as H2.
    unfold Z.sub in H2. rewrite inject_Z_plus in H2.
    rewrite inject_Z_opp in H2. change (inject_Z 1) with 1 in H2.
    split; [split; lra | intro; exfalso; lra].
Qed.

Lemma fold360_spec (p : Q) : turnsApart p (fold360 p) /\ 0 <= fold360 p < 360.
Proof.
  unfold fold360.
  destruct (rem360_spec p) as (T1 & R1 & _).
  destruct (rem360_spec (rem360 p + 360)) as (T2 & R2 & P2).
  split; [|split; [apply P2|]; lra].
  apply turnsApart_trans with (rem360 p); [exact T1|].
  apply turnsApart_trans with (rem360 p + 360); [|exact T2].
  exists 1%Z. change (inject_Z 1) with 1. lra.
Qed.

(** ** [normalizeAngle] and [getAngleDifference] on exact numbers *)

Lemma normalizeAngle_exact (cfg : MachineSettings xnum) (a off : Q) :
  angleOffset cfg = Fin off ->
  exists v,
    (forall fuel, (turnsOf (a + off) < fuel)%nat ->
       normalizeAngle cfg fuel (Fin a) None = Some (Fin v))
    /\ inRange (angleMode cfg) v /\ turnsApart (a + off) v.
Proof.
  intro Hoff. unfold normalizeAngle, inRange. rewrite Hoff.
  change (Fin a + Fin off)%js with (Fin (a + off)).
  destruct (angleMode cfg).
  - destruct (fold180_exact (a + off)) as (v & Hrun & Hin & Hturn).
    exists v. split; [|split; assumption].
    intros fuel Hfuel. rewrite (Hrun fuel Hfuel). reflexivity.
  - exists (fold360 (a + off)).
    destruct (fold360_spec (a + off)) as (Hturn & Hin).
    split; [|split; assumption]. intros fuel _. reflexivity.
Qed.

Lemma normalizeAngle_prev_exact (cfg : MachineSettings xnum) (a off p : Q) :
  angleOffset cfg = Fin off ->
  exists m,
    forall fuel, (turnsOf (a + off) < fuel)%nat ->
      normalizeAngle cfg fuel (Fin a) (Some (Fin p)) = Some (Fin m).
Proof.
  intro Hoff.
  destruct (normalizeAngle_exact cfg a off Hoff) as (v & Hrun & _ & _).
  assert (Hfolded : forall fuel, (turnsOf (a + off) < fuel)%nat ->
    match angleMode cfg with
    | Mode180 => fold180 fuel (Fin a + angleOffset cfg)%js
    | Mode360 => Some ((((Fin a + angleOffset cfg) mod ofZ 360) + ofZ 360) mod ofZ 360)%js
    end = Some (Fin v)).
  { intros fuel Hfuel. specialize (Hrun fuel Hfuel). unfold normalizeAngle in Hrun.
    destruct (angleMode cfg);
      [destruct (fold180 fuel (Fin a + angleOffset cfg)%js)|]; congruence. }
  unfold normalizeAngle.
  destruct (shortestPath cfg).
  - destruct (Qltb 180 (v + - p)) eqn:E1; [|destruct (Qltb (v + - p) (- 180)) eqn:E2].
    + exists (v + - 360). intros fuel Hfuel. rewrite (Hfolded fuel Hfuel).
      cbn. change (inject_Z 180) with 180. rewrite E1. reflexivity.
    + exists (v + 360). intros fuel Hfuel. rewrite (Hfolded fuel Hfuel).
      cbn. change (inject_Z 180) with 180. rewrite E1.
      change (- 180) with (- (180)) in E2. rewrite E2. reflexivity.
    + exists v. intros fuel Hfuel. rewrite (Hfolded fuel Hfuel).
      cbn. change (inject_Z 180) with 180. rewrite E1.
      change (- 180) with (- (180)) in E2. rewrite E2. reflexivity.
  - exists v. intros fuel Hfuel. rewrite (Hfolded fuel Hfuel). reflexivity.
Qed.

Lemma getAngleDifference_exact (a b : Q) :
  exists d,
    (forall fuel, (turnsOf (b + - a) < fuel)%nat ->
       getAngleDifference fuel (Fin a) (Fin b) = Some (Fin d))
    /\ 0 <= d <= 180.
Proof.
  unfold getAngleDifference.
  change (Fin b - Fin a)%js with (Fin (b + - a)).
  destruct (fold180_exact (b + - a)) as (v & Hrun & Hin & _).
  exists (Qabs v). split.
  - intros fuel Hfuel. rewrite (Hrun fuel Hfuel). reflexivity.
  - split; [apply Qabs_nonneg|]. apply Qabs_Qle_condition. lra.
Qed.

Lemma finite_inv (a : xnum) : finite a -> a = Fin (toQ a).
Proof. destruct a; simpl; intros H; try contradiction; reflexivity. Qed.



Local Open Scope float_scope.

Lemma foldDown_huge (fuel : nat) : foldDown (JN := Binary64) fuel huge = None.
Proof.
  induction fuel as [|fuel IH]; [reflexivity|].
  change (foldDown (S fuel) huge)
    with (if PrimFloat.ltb (fofZ 180) huge
          then foldDown (JN := Binary64) fuel (PrimFloat.sub huge (fofZ 360))
          else Some huge).
  replace (PrimFloat.ltb (fofZ 180) huge) with true by (vm_compute; reflexivity).
  replace (PrimFloat.sub huge (fofZ 360)) with huge by (vm_compute; reflexivity).
  exact IH.
Qed.



Local Open Scope Q_scope.






(* ----------------------------------------------------------------- *)
(** ** The parser's modal semantics *)

Section ModalProofs.

Context {num : Type} {JN : JSNumber num} {NT : NumText num}.

(** One line more: the running value is the line's field if it holds
    one, else the value before. *)
Lemma lastSeen_snoc (sel : Fields -> option num) (pre : list (option Fields))
    (e : option Fields) :
  lastSeen sel (pre ++ [e]) =
  match e with
  | Some f => match sel f with Some v => Some v | None => lastSeen sel pre end
  | None => lastSeen sel pre
  end.
Proof. unfold lastSeen. rewrite fold_left_app. reflexivity. Qed.

(** A value once seen stays seen. *)
Lemma lastSeen_app_some (sel : Fields -> option num) (pre post : list (option Fields)) :
  lastSeen sel pre <> None -> lastSeen sel (pre ++ post) <> None.
Proof.
  revert pre. induction post as [|e post IH]; intros pre H.
  - rewrite app_nil_r. exact H.
  - change (e :: post) with ([e] ++ post). rewrite app_assoc. apply IH.
    rewrite lastSeen_snoc. destruct e as [f|]; [destruct (sel f)|]; congruence.
Qed.

Lemma sampleAt_snoc {A : Type} (emit : num -> num -> option num -> A)
    (pre post : list (option Fields)) (e : option Fields) :
  sampleAt emit (pre ++ e :: post) (List.length pre) =
  match e with
  | None => []
  | Some _ =>
      match lastSeen fieldX (pre ++ [e]), lastSeen fieldY (pre ++ [e]) with
      | Some x, Some y => [emit x y (lastSeen fieldC (pre ++ [e]))]
      | _, _ => []
      end
  end.
Proof.
  unfold sampleAt.
  rewrite app_nth2, Nat.sub_diag by lia. cbn [nth].
  replace (firstn (S (List.length pre)) (pre ++ e :: post)) with (pre ++ [e]).
  - reflexivity.
  - rewrite firstn_app, firstn_all2 by lia.
    replace (S (List.length pre) - List.length pre)%nat with 1%nat by lia.
    reflexivity.
Qed.

Lemma modalSamples_from {A : Type} (emit : num -> num -> option num -> A)
    (pre : list (option Fields)) (e : option Fields) (post : list (option Fields)) :
  flat_map (sampleAt emit (pre ++ e :: post))
    (seq (List.length pre) (S (List.length post))) =
  sampleAt emit (pre ++ e :: post) (List.length pre)
  ++ flat_map (sampleAt emit ((pre ++ [e]) ++ post))
       (seq (List.length (pre ++ [e])) (List.length post)).
Proof.
  cbn [seq flat_map]. f_equal.
  rewrite <- app_assoc, length_app. cbn [List.length app].
  replace (List.length pre + 1)%nat with (S (List.length pre)) by lia.
  reflexivity.
Qed.

Lemma parseLines_modal (emit : num -> num -> Point num) (lines : list str) :
  forall pre : list (option Fields),
    parseLines emit (lastSeen fieldX pre) (lastSeen fieldY pre) lines =
    flat_map (sampleAt (fun x y _ => emit x y) (pre ++ map parserFields lines))
      (seq (List.length pre) (List.length lines)).
Proof.
  induction lines as [|raw rest IH]; intro pre; [reflexivity|].
  cbn [map List.length]. rewrite <- (length_map parserFields rest).
  rewrite modalSamples_from, sampleAt_snoc, length_map.
  specialize (IH (pre ++ [parserFields raw])).
  rewrite !lastSeen_snoc in *.
  cbn [parseLines]. unfold parserFields in *.
  destruct (isEmpty (cleanLine raw)); [exact IH|].
  destruct (looksLikeMotion (cleanLine raw)); cbn [negb] in *; [|exact IH].
  unfold updateField, fieldX, fieldY in *.
  destruct (matchField chX (cleanLine raw)) as [mx|],
           (matchField chY (cleanLine raw)) as [my|]; cbn [option_map fst snd] in *.
  - rewrite IH. reflexivity.
  - destruct (lastSeen (fun f => snd (fst f)) pre); rewrite IH; reflexivity.
  - destruct (lastSeen (fun f => fst (fst f)) pre); rewrite IH; reflexivity.
  - destruct (lastSeen (fun f => fst (fst f)) pre);
      destruct (lastSeen (fun f => snd (fst f)) pre); rewrite IH; reflexivity.
Qed.

Local Open Scope js_scope.

Lemma previewMoves_modal (flipY : bool) (cfg : MachineSettings num)
    (lines : list str) :
  forall pre : list (option Fields),
    previewMoves flipY cfg (lastSeen fieldX pre) (lastSeen fieldY pre)
      (lastSeen fieldC pre) lines =
    flat_map (sampleAt (moveOf flipY cfg) (pre ++ map previewFields lines))
      (seq (List.length pre) (List.length lines)).
Proof.
  induction lines as [|raw rest IH]; intro pre; [reflexivity|].
  cbn [map List.length]. rewrite <- (length_map previewFields rest).
  rewrite modalSamples_from, sampleAt_snoc, length_map.
  specialize (IH (pre ++ [previewFields raw])).
  rewrite !lastSeen_snoc in *.
  cbn [previewMoves]. unfold previewFields in *.
  destruct (isEmpty (cleanLine raw)); [exact IH|].
  destruct (negb match findGMove is0or1 (cleanLine raw) with
                 | Some _ => true | None => false end
            && negb (hasLetter chX (cleanLine raw))
            && negb (hasLetter chY (cleanLine raw)))%bool; [exact IH|].
  unfold updateField, fieldX, fieldY, fieldC, moveOf in *.
  destruct (matchField chX (cleanLine raw)) as [mx|],
           (matchField chY (cleanLine raw)) as [my|],
           (matchField chC (cleanLine raw)) as [mc|];
    cbn [option_map fst snd] in *;
    repeat match goal with
           | |- context [match lastSeen ?sel pre with _ => _ end] =>
               destruct (lastSeen sel pre)
           end;
    rewrite IH; reflexivity.
Qed.

End ModalProofs.

(** C7 *)
Theorem parser_modal_semantics :
  forall (num : Type) (JN : JSNumber num) (NT : NumText num)
         (cfg : MachineSettings num) (text : str),
    parseGCode cfg text =
      modalSamples
        (fun x y _ => mkPoint (x / guardedScale cfg) (- y / guardedScale cfg))%js
        (map parserFields (splitLines text))
    /\ (forall flipY : bool,
          previewMoves flipY cfg None None None (splitLines text) =
            modalSamples (moveOf flipY cfg) (map previewFields (splitLines text)))
    /\ (forall (A : Type) (emit : num -> num -> option num -> A)
               (evs : list (option Fields)),
          lastSeen fieldX evs = None \/ lastSeen fieldY evs = None ->
          modalSamples emit evs = []).
Proof.
  intros num JN NT cfg text. split; [|split].
  - unfold parseGCode, modalSamples. rewrite length_map.
    apply (parseLines_modal _ (splitLines text) []).
  - intro flipY. unfold modalSamples. rewrite length_map.
    apply (previewMoves_modal flipY cfg (splitLines text) []).
  - intros A emit evs Hnone. unfold modalSamples.
    induction (seq 0 (List.length evs)) as [|k ks IH]; [reflexivity|].
    cbn [flat_map]. rewrite IH, app_nil_r.
    unfold sampleAt. destruct (nth k evs None); [|reflexivity].
    assert (Hx : lastSeen fieldX (firstn (S k) evs) <> None ->
                 lastSeen fieldX evs <> None).
    { intro H. rewrite <- (firstn_skipn (S k) evs).
      apply lastSeen_app_some. exact H. }
    assert (Hy : lastSeen fieldY (firstn (S k) evs) <> None ->
                 lastSeen fieldY evs <> None).
    { intro H. rewrite <- (firstn_skipn (S k) evs).
      apply lastSeen_app_some. exact H. }
    destruct (lastSeen fieldX (firstn (S k) evs));
      destruct (lastSeen fieldY (firstn (S k) evs)); try reflexivity.
    exfalso. destruct Hnone as [H|H]; [apply Hx | apply Hy]; congruence.
Qed.

(* ----------------------------------------------------------------- *)
(** ** The playback path on every number system *)

Section PartitionProofs.

Context {num : Type} {JN : JSNumber num}.
Variable hypot : num -> num -> num.
Local Open Scope js_scope.

Lemma buildSegments_partition (fuel : nat) (rest : list (Move num)) :
  forall (cum : num) (a : Move num) (segs : list (Segment num)) (total : num),
    buildSegments hypot fuel cum a rest = Some (segs, total) ->
    partitionFrom cum segs total.
Proof.
  induction rest as [|b rest IH]; intros cum a segs total H; cbn [buildSegments] in H.
  - injection H as <- <-. reflexivity.
  - destruct (hypot (mx b - mx a) (my b - my a) <=? ofDec 1 6) eqn:Hlen.
    + exact (IH _ _ _ _ H).
    + destruct (match mc a, mc b with
                | Some ca, Some cb => getAngleDifference fuel ca cb
                | _, _ => Some (ofZ 0)
                end) as [ad|]; [|discriminate].
      destruct (buildSegments hypot fuel (cum + hypot (mx b - mx a) (my b - my a)) b rest)
        as [[segs' total']|] eqn:Hrest; [|discriminate].
      injection H as <- <-. cbn [partitionFrom cumStart cumEnd len].
      repeat split; try assumption. exact (IH _ _ _ _ Hrest).
Qed.

Lemma partitionFrom_each (segs : list (Segment num)) :
  forall cum total, partitionFrom cum segs total ->
    Forall (fun s => cumEnd s = cumStart s + len s
                     /\ (len s <=? ofDec 1 6) = false) segs.
Proof.
  induction segs as [|s rest IH]; intros cum total H; [constructor|].
  destruct H as (_ & He & Hl & Hrest).
  constructor; [split; assumption | exact (IH _ _ Hrest)].
Qed.

Lemma partitionFrom_head (segs : list (Segment num)) (cum total : num) (s : Segment num) :
  partitionFrom cum segs total -> nth_error segs 0 = Some s -> cumStart s = cum.
Proof.
  destruct segs as [|s0 rest]; [discriminate|].
  intros (Hs & _) [= <-]. exact Hs.
Qed.

Lemma partitionFrom_contiguous (segs : list (Segment num)) :
  forall cum total, partitionFrom cum segs total -> contiguous segs.
Proof.
  induction segs as [|s0 rest IH]; intros cum total H i s s' Hi Hi'.
  - destruct i; discriminate.
  - destruct H as (_ & _ & _ & Hrest). destruct i as [|i].
    + injection Hi as <-. cbn [nth_error] in Hi'.
      exact (partitionFrom_head rest _ _ _ Hrest Hi').
    + exact (IH _ _ Hrest i s s' Hi Hi').
Qed.

(** The total is the sum of the lengths, added in traversal order. *)
Lemma partitionFrom_total (segs : list (Segment num)) :
  forall cum total, partitionFrom cum segs total ->
    total = fold_left add (map (@len num) segs) cum.
Proof.
  induction segs as [|s rest IH]; intros cum total H; [exact H|].
  destruct H as (Hs & He & _ & Hrest).
  cbn [map fold_left]. rewrite <- Hs, <- He. exact (IH _ _ Hrest).
Qed.

Lemma last_cons_default {A : Type} (l : list A) :
  forall a d : A, last (a :: l) d = last l a.
Proof.
  induction l as [|b l IH]; intros a d; [reflexivity|].
  change (last (a :: b :: l) d) with (last (b :: l) d).
  rewrite (IH b d), (IH b a). reflexivity.
Qed.

Lemma partitionFrom_last (segs : list (Segment num)) :
  forall cum total (first : Segment num),
    partitionFrom cum (first :: segs) total ->
    total = cumEnd (last segs first).
Proof.
  induction segs as [|s rest IH]; intros cum total first H;
    destruct H as (_ & _ & _ & H).
  - exact H.
  - rewrite last_cons_default. exact (IH _ _ _ H).
Qed.

(** The loop of [distToPoint] finds nothing beyond every segment's end. *)
Lemma findSegment_beyond (d : num) (segs : list (Segment num)) :
  Forall (fun s => (d <=? cumEnd s) = false) segs ->
  findSegment hypot d segs = None.
Proof.
  induction 1 as [|s rest Hs _ IH]; [reflexivity|].
  cbn [findSegment]. rewrite Hs. exact IH.
Qed.

End PartitionProofs.

(* ----------------------------------------------------------------- *)
(** ** The playback path on exact numbers *)

Section ExactPath.

Variable hypot : xnum -> xnum -> xnum.
Hypothesis hypot_finite : forall a b, finite a -> finite b -> finite (hypot a b).

Local Open Scope Q_scope.

Lemma finite_toQ (a : xnum) : finite a -> a = Fin (toQ a).
Proof. destruct a; simpl; intros H; try contradiction; reflexivity. Qed.

Lemma finite_add (a b : xnum) : finite a -> finite b -> finite (xadd a b).
Proof. destruct a, b; simpl; auto. Qed.

Lemma finite_sub (a b : xnum) : finite a -> finite b -> finite (xsub a b).
Proof. destruct a, b; simpl; auto. Qed.

Lemma xleb_false_finite (a : xnum) (q : Q) :
  finite a -> xleb a (Fin q) = false -> q < toQ a.
Proof.
  destruct a; simpl; try contradiction. intros _ H.
  apply Qnot_le_lt. intro L. apply Qle_bool_iff in L. congruence.
Qed.

Lemma buildSegments_proper (fuel : nat) (rest : list (Move xnum)) :
  forall (cum : xnum) (a : Move xnum) (segs : list (Segment xnum)) (total : xnum),
    finite cum -> finiteMove a -> Forall finiteMove rest ->
    buildSegments hypot fuel cum a rest = Some (segs, total) ->
    Forall properSegment segs.
Proof.
  induction rest as [|b rest IH]; intros cum a segs total Hc Ha Hrest H;
    cbn [buildSegments] in H.
  - injection H as <- <-. constructor.
  - inversion Hrest as [|b' rest' Hb Hrest']; subst.
    destruct Ha as [Hax Hay], Hb as [Hbx Hby].
    assert (Hl : finite (hypot (sub (mx b) (mx a)) (sub (my b) (my a)))).
    { apply hypot_finite; apply finite_sub; assumption. }
    set (l := hypot (sub (mx b) (mx a)) (sub (my b) (my a))) in *. clearbody l.
    destruct (leb l (ofDec 1 6)) eqn:Hlen.
    + exact (IH _ _ _ _ Hc (conj Hbx Hby) Hrest' H).
    + destruct (match mc a, mc b with
                | Some ca, Some cb => getAngleDifference fuel ca cb
                | _, _ => Some (ofZ 0)
                end) as [ad|]; [|discriminate].
      destruct (buildSegments hypot fuel (add cum l) b rest)
        as [[segs' total']|] eqn:Hbuild; [|discriminate].
      injection H as <- <-.
      pose proof (xleb_false_finite _ (1 # 1000000) Hl Hlen) as Hpos.
      assert (H0 : 0 < 1 # 1000000) by reflexivity.
      constructor.
      * unfold properSegment. cbn [x1 y1 x2 y2 len cumStart cumEnd].
        repeat split; try assumption.
        -- apply finite_add; assumption.
        -- lra.
        -- rewrite (finite_toQ _ Hc), (finite_toQ _ Hl). cbn [add Exact xadd toQ].
           lra.
      * apply (IH _ _ _ _ (finite_add _ _ Hc Hl) (conj Hbx Hby) Hrest' Hbuild).
Qed.

(** Along a partition of proper segments the running length grows. *)
Lemma partition_grows (segs : list (Segment xnum)) :
  forall cum total,
    partitionFrom cum segs total -> Forall properSegment segs ->
    toQ cum <= toQ total /\ (segs <> [] -> toQ cum < toQ total).
Proof.
  induction segs as [|s rest IH]; intros cum total H Hp.
  - cbn in H. subst. split; [lra | congruence].
  - destruct H as (Hs & _ & _ & Hrest). inversion Hp as [|s' rest' Hps Hprest]; subst.
    destruct (IH _ _ Hrest Hprest) as [Hle _].
    destruct Hps as (_ & _ & _ & _ & _ & _ & _ & _ & Hlt).
    split; [|intros _]; lra.
Qed.

Lemma partition_starts_after (segs : list (Segment xnum)) :
  forall cum total (j : nat) (s : Segment xnum),
    partitionFrom cum segs total -> Forall properSegment segs ->
    nth_error segs j = Some s -> toQ cum <= toQ (cumStart s).
Proof.
  induction segs as [|s0 rest IH]; intros cum total j s H Hp Hj.
  - destruct j; discriminate.
  - destruct H as (Hs & _ & _ & Hrest). inversion Hp as [|s' rest' Hps Hprest]; subst.
    destruct j as [|j].
    + injection Hj as <-. lra.
    + pose proof (IH _ _ j s Hrest Hprest Hj).
      destruct Hps as (_ & _ & _ & _ & _ & _ & _ & _ & Hlt). lra.
Qed.

Lemma partition_nonOverlapping (segs : list (Segment xnum)) :
  forall cum total,
    partitionFrom cum segs total -> Forall properSegment segs ->
    nonOverlapping segs.
Proof.
  induction segs as [|s0 rest IH]; intros cum total H Hp i j s s' Hij Hi Hj.
  - destruct i; discriminate.
  - destruct H as (Hs & _ & _ & Hrest). inversion Hp as [|s1 rest' Hps Hprest]; subst.
    destruct j as [|j]; [lia|]. cbn [nth_error] in Hj.
    destruct i as [|i].
    + injection Hi as <-. exact (partition_starts_after rest _ _ j s' Hrest Hprest Hj).
    + exact (IH _ _ Hrest Hprest i j s s' ltac:(lia) Hi Hj).
Qed.

Lemma partition_finite (segs : list (Segment xnum)) :
  forall cum total,
    partitionFrom cum segs total -> Forall properSegment segs ->
    finite cum -> finite total.
Proof.
  induction segs as [|s rest IH]; intros cum total H Hp Hc.
  - cbn in H. subst. exact Hc.
  - destruct H as (_ & _ & _ & Hrest). inversion Hp as [|s' rest' Hps Hprest]; subst.
    apply (IH _ _ Hrest Hprest).
    destruct Hps as (_ & _ & _ & _ & _ & _ & Hf & _). exact Hf.
Qed.

(** A proper segment, field by field. *)
Lemma properSegment_inv (s : Segment xnum) :
  properSegment s ->
  exists (a1 b1 a2 b2 l cs ce : Q) (ang : option xnum) (ad : xnum),
    s = mkSegment (Fin a1) (Fin b1) (Fin a2) (Fin b2) (Fin l) (Fin cs) (Fin ce)
          ang ad
    /\ 0 < l /\ cs < ce.
Proof.
  destruct s as [a1 b1 a2 b2 l cs ce ang ad]. unfold properSegment.
  cbn [x1 y1 x2 y2 len cumStart cumEnd angle angleDiff].
  intros (H1 & H2 & H3 & H4 & H5 & H6 & H7 & Hl & Hc).
  destruct a1; try contradiction. destruct b1; try contradiction.
  destruct a2; try contradiction. destruct b2; try contradiction.
  destruct l; try contradiction. destruct cs; try contradiction.
  destruct ce; try contradiction.
  do 9 eexists. split; [reflexivity|]. split; assumption.
Qed.

(** At the total length the loop of [distToPoint] stops in the last
    segment, at its end point. *)
Lemma findSegment_total (others : list (Segment xnum)) :
  forall (first : Segment xnum) (cum total : xnum),
    partitionFrom cum (first :: others) total ->
    Forall properSegment (first :: others) ->
    exists p : Position xnum,
      findSegment hypot total (first :: others) = Some p
      /\ xeq (pos_x p) (x2 (last others first))
      /\ xeq (pos_y p) (y2 (last others first))
      /\ pos_angle p = angle (last others first).
Proof.
  induction others as [|s rest IH]; intros first cum total H Hp.
  - destruct H as (_ & He & _ & Ht). cbn [partitionFrom] in Ht. subst total.
    inversion Hp as [|s' rest' Hps _]; subst.
    destruct (properSegment_inv first Hps)
      as (a1 & b1 & a2 & b2 & l & cs & ce & ang & ad & -> & Hl & Hc).
    cbn [cumEnd cumStart len] in He. cbn [add Exact xadd] in He.
    injection He as He.
    cbn [findSegment cumEnd cumStart len x1 x2 y1 y2 last].
    cbn [leb ltb sub div mul add Exact xleb xltb xsub xadd xneg xdiv xmul ofZ].
    replace (Qle_bool ce ce) with true by (symmetry; apply Qle_bool_iff; lra).
    replace (Qltb (inject_Z 0) l) with true
      by (symmetry; apply Qltb_true; change (inject_Z 0) with 0; lra).
    replace (Qeq_bool l 0) with false.
    2:{ symmetry. apply not_true_iff_false. intro E. apply Qeq_bool_iff in E. lra. }
    eexists. split; [reflexivity|].
    unfold positionOn. cbn [pos_x pos_y pos_angle angle x2 y2 xeq].
    assert (Ht : (ce + - cs) / l == 1) by (rewrite He; field; lra).
    rewrite !Ht. repeat split; ring.
  - destruct H as (Hs & He & Hlen & Hrest).
    inversion Hp as [|s' rest' Hps Hprest]; subst.
    destruct (partition_grows (s :: rest) _ _ Hrest Hprest) as [_ Hgrow].
    specialize (Hgrow ltac:(discriminate)).
    destruct (IH s _ _ Hrest Hprest) as (p & Hfind & Hx & Hy & Ha).
    exists p. rewrite last_cons_default. split; [|repeat split; assumption].
    cbn [findSegment].
    replace (leb total (cumEnd first)) with false; [exact Hfind|].
    symmetry.
    destruct (properSegment_inv first Hps)
      as (a1 & b1 & a2 & b2 & l & cs & ce & ang & ad & -> & Hl & Hc).
    cbn [cumEnd toQ] in *.
    destruct (partition_grows _ _ _ Hrest Hprest) as [_ _].
    pose proof (partition_finite _ _ _ Hrest Hprest I) as Hfin.
    destruct total; try contradiction. cbn [leb Exact xleb toQ] in *.
    apply Qle_bool_false. exact Hgrow.
Qed.

(** Beyond the end of the last segment the loop finds nothing. *)
Lemma findSegment_past (segs : list (Segment xnum)) :
  forall (cum total d : xnum),
    partitionFrom cum segs total -> Forall properSegment segs ->
    finite cum -> xltb total d = true ->
    findSegment hypot d segs = None.
Proof.
  induction segs as [|s rest IH]; intros cum total d H Hp Hc Hd; [reflexivity|].
  destruct H as (Hs & He & _ & Hrest).
  inversion Hp as [|s' rest' Hps Hprest]; subst.
  destruct (partition_grows rest _ _ Hrest Hprest) as [Hle _].
  destruct (properSegment_inv s Hps)
    as (a1 & b1 & a2 & b2 & l & cs & ce & ang & ad & -> & Hl & Hlt).
  cbn [findSegment cumEnd cumStart] in *.
  rewrite (IH _ _ d Hrest Hprest I Hd).
  replace (leb d (Fin ce)) with false; [reflexivity|].
  symmetry.
  pose proof (partition_finite _ _ _ Hrest Hprest I) as Hfin.
  destruct total as [t| | |]; try contradiction.
  destruct d as [d| | |]; cbn [xltb leb Exact xleb toQ] in *;
    try discriminate; try reflexivity.
  apply Qltb_true in Hd. apply Qle_bool_false. lra.
Qed.

End ExactPath.

(* ----------------------------------------------------------------- *)
(** ** Characters *)

(** Goals about the classes of one character are linear arithmetic over
    its code. *)
Ltac char_arith :=
  unfold numChar, isDigit, isSpace, isLineTerm, isLetter, isChar,
    chX, chY, chZ, chC, chF, chG in *;
  repeat match goal with
         | H : _ = true |- _ =>
             rewrite ?orb_true_iff, ?andb_true_iff, ?negb_true_iff,
               ?N.eqb_eq, ?N.leb_le in H
         | H : _ = false |- _ =>
             rewrite ?orb_false_iff, ?andb_false_iff, ?negb_false_iff,
               ?N.eqb_neq, ?N.leb_gt in H
         end;
  repeat rewrite ?orb_true_iff, ?andb_true_iff, ?negb_true_iff,
    ?orb_false_iff, ?andb_false_iff, ?negb_false_iff,
    ?N.eqb_eq, ?N.eqb_neq, ?N.leb_le, ?N.leb_gt;
  lia.

Lemma digit_numChar (c : ascii) : isDigit c = true -> numChar c = true.
Proof. intro H. unfold numChar. rewrite H. reflexivity. Qed.

Lemma numChar_not_letter (upper : N) (c : ascii) :
  (64 < upper)%N -> numChar c = true -> isLetter upper c = false.
Proof. intros Hu H. char_arith. Qed.

Lemma numChar_not_space (c : ascii) : numChar c = true -> isSpace c = false.
Proof. intro H. char_arith. Qed.

Lemma numChar_plain (c : ascii) :
  numChar c = true -> (isChar 59 c || isChar 40 c || isLineTerm c)%bool = false.
Proof. intro H. char_arith. Qed.

Lemma digit_not_point (c : ascii) : isDigit c = true -> isChar 46 c = false.
Proof. intro H. char_arith. Qed.

Lemma digit_not_minus (c : ascii) : isDigit c = true -> isChar 45 c = false.
Proof. intro H. char_arith. Qed.

Lemma point_not_minus (c : ascii) : isChar 46 c = true -> isChar 45 c = false.
Proof. intro H. char_arith. Qed.

Lemma point_not_digit (c : ascii) : isChar 46 c = true -> isDigit c = false.
Proof. intro H. char_arith. Qed.

Lemma code_digitChar (d : Z) :
  (0 <= d < 10)%Z -> code (digitChar d) = (48 + Z.to_N d)%N.
Proof.
  intro H. unfold code, digitChar. apply N_ascii_embedding. lia.
Qed.

Lemma digitChar_digit (d : Z) : (0 <= d < 10)%Z -> isDigit (digitChar d) = true.
Proof.
  intro H. unfold isDigit. rewrite (code_digitChar d H).
  rewrite andb_true_iff, !N.leb_le. lia.
Qed.

Lemma digitVal_digitChar (d : Z) : (0 <= d < 10)%Z -> digitVal (digitChar d) = d.
Proof.
  intro H. unfold digitVal. rewrite (code_digitChar d H). lia.
Qed.

(* ----------------------------------------------------------------- *)
(** ** Printed digits *)

Lemma showDigits_length (w : nat) : forall n, List.length (showDigits w n) = w.
Proof.
  induction w as [|w IH]; intro n; cbn [showDigits]; [reflexivity|].
  rewrite length_app, IH. cbn. lia.
Qed.

Lemma showDigits_digits (w : nat) : forall n, forallb isDigit (showDigits w n) = true.
Proof.
  induction w as [|w IH]; intro n; cbn [showDigits]; [reflexivity|].
  rewrite forallb_app, IH. cbn [forallb].
  rewrite digitChar_digit; [reflexivity|].
  apply Z.mod_pos_bound. lia.
Qed.

Lemma digitsValue_app (a b : str) :
  digitsValue (a ++ b) =
  fold_left (fun v c => (10 * v + digitVal c)%Z) b (digitsValue a).
Proof. unfold digitsValue. apply fold_left_app. Qed.

Lemma digitsValue_showDigits (w : nat) :
  forall n, (0 <= n)%Z -> digitsValue (showDigits w n) = (n mod 10 ^ Z.of_nat w)%Z.
Proof.
  induction w as [|w IH]; intros n Hn.
  - cbn. rewrite Z.mod_1_r. reflexivity.
  - cbn [showDigits]. rewrite digitsValue_app. cbn [fold_left].
    rewrite IH by (apply Z.div_pos; lia).
    rewrite digitVal_digitChar by (apply Z.mod_pos_bound; lia).
    rewrite Nat2Z.inj_succ, Z.pow_succ_r by lia.
    rewrite Z.rem_mul_r by (try apply Z.pow_nonzero; lia).
    lia.
Qed.

Lemma countDigits_pos (fuel : nat) : forall n, (1 <= countDigits fuel n)%nat.
Proof. induction fuel; intro n; cbn [countDigits]; [lia|]. destruct (n <? 10)%Z; lia. Qed.

Lemma countDigits_enough (fuel : nat) :
  forall n, (0 <= n < 2 ^ Z.of_nat (S fuel))%Z ->
            (n < 10 ^ Z.of_nat (countDigits fuel n))%Z.
Proof.
  induction fuel as [|fuel IH]; intros n Hn.
  - cbn in *. lia.
  - cbn [countDigits]. destruct (Z.ltb_spec n 10) as [Hlt|Hge]; [cbn; lia|].
    rewrite Nat2Z.inj_succ, Z.pow_succ_r by lia.
    assert (Hdiv : (n / 10 < 10 ^ Z.of_nat (countDigits fuel (n / 10)))%Z).
    { apply IH. split; [apply Z.div_pos; lia|].
      apply Z.div_lt_upper_bound; [lia|].
      rewrite (Nat2Z.inj_succ (S fuel)), Z.pow_succ_r in Hn by lia.
      assert (0 < 2 ^ Z.of_nat (S fuel))%Z by (apply Z.pow_pos_nonneg; lia).
      lia. }
    pose proof (Z.div_mod n 10 ltac:(lia)) as Hdm.
    pose proof (Z.mod_pos_bound n 10 ltac:(lia)). lia.
Qed.

Lemma showNat_digits (n : Z) : forallb isDigit (showNat n) = true.
Proof. apply showDigits_digits. Qed.

Lemma showNat_nonempty (n : Z) : showNat n <> [].
Proof.
  unfold showNat. intro H. apply (f_equal (@List.length _)) in H.
  rewrite showDigits_length in H. cbn in H.
  pose proof (countDigits_pos (Z.to_nat (Z.log2 n)) n). lia.
Qed.

Lemma digitsValue_showNat (n : Z) : (0 <= n)%Z -> digitsValue (showNat n) = n.
Proof.
  intro Hn. unfold showNat. rewrite digitsValue_showDigits by exact Hn.
  apply Z.mod_small. split; [exact Hn|].
  apply countDigits_enough. split; [exact Hn|].
  destruct (Z.eq_dec n 0) as [->|Hnz]; [cbn; lia|].
  rewrite Nat2Z.inj_succ, Z2Nat.id by (apply Z.log2_nonneg).
  apply Z.log2_spec. lia.
Qed.

(* ----------------------------------------------------------------- *)
(** ** Rounding to thousandths *)

Local Open Scope Q_scope.

Lemma thousandths_nonneg (q : Q) : (0 <= thousandths q)%Z.
Proof.
  unfold thousandths. change 0%Z with (Qfloor 0). apply Qfloor_resp_le.
  pose proof (Qabs_nonneg q). lra.
Qed.

Lemma thousandths_near (q : Q) :
  Qabs (inject_Z (thousandths q) / 1000 - Qabs q) <= 1 # 2000.
Proof.
  unfold thousandths.
  pose proof (Qfloor_le (Qabs q * 1000 + (1 # 2))) as H1.
  pose proof (Qlt_floor (Qabs q * 1000 + (1 # 2))) as H2.
  rewrite inject_Z_plus in H2. change (inject_Z 1) with 1 in H2.
  set (n := inject_Z (Qfloor (Qabs q * 1000 + (1 # 2)))) in *. clearbody n.
  assert (Hn : n / 1000 == n * (1 # 1000)) by (field).
  rewrite Hn. apply Qabs_Qle_condition. split; lra.
Qed.

(** The printed value is within half a thousandth of the number. *)
Lemma round3_near (q : Q) : Qabs (round3 q - q) <= 1 # 2000.
Proof.
  unfold round3. pose proof (thousandths_near q) as H.
  set (v := inject_Z (thousandths q) / 1000) in *. clearbody v.
  apply Qabs_Qle_condition in H. apply Qabs_Qle_condition.
  destruct (Qltb q 0) eqn:E.
  - apply Qltb_true in E. rewrite (Qabs_neg q) in H by lra. split; lra.
  - apply Qltb_false in E. rewrite (Qabs_pos q) in H by lra. split; lra.
Qed.

(* ----------------------------------------------------------------- *)
(** ** Scanning numbers *)

Lemma spanDigits_app (ds rest : str) :
  forallb isDigit ds = true -> stopsDigits rest = true ->
  spanDigits (ds ++ rest) = (ds, rest).
Proof.
  intros Hds Hrest. induction ds as [|d ds IH]; cbn [app].
  - destruct rest as [|c rest]; [reflexivity|].
    cbn [stopsDigits] in Hrest. cbn [spanDigits].
    apply negb_true_iff in Hrest. rewrite Hrest. reflexivity.
  - cbn [forallb] in Hds. apply andb_true_iff in Hds as [Hd Hds].
    cbn [spanDigits]. rewrite Hd, (IH Hds). reflexivity.
Qed.

Lemma spanDigits_all (ds : str) :
  forallb isDigit ds = true -> spanDigits ds = (ds, []).
Proof.
  intro H. rewrite <- (app_nil_r ds) at 1. apply spanDigits_app; [exact H|reflexivity].
Qed.

(** What [spanDigits] returns: digits, then a text they stop at. *)
Lemma spanDigits_spec (s : str) :
  forall ds rest, spanDigits s = (ds, rest) ->
    s = ds ++ rest /\ forallb isDigit ds = true /\ stopsDigits rest = true.
Proof.
  induction s as [|c s IH]; intros ds rest H; cbn [spanDigits] in H.
  - injection H as <- <-. repeat split.
  - destruct (isDigit c) eqn:Hc.
    + destruct (spanDigits s) as [ds' rest'] eqn:Hs. injection H as <- <-.
      destruct (IH _ _ eq_refl) as (-> & Hds & Hstop).
      cbn [forallb app]. rewrite Hc, Hds. repeat split. exact Hstop.
    + injection H as <- <-. cbn [app forallb stopsDigits]. rewrite Hc. repeat split.
Qed.

Lemma decimalText_app (negative : bool) (ip fp rest : str) :
  decimalText negative ip fp ++ rest =
  (if negative then ["-"%char] else []) ++ ip ++ "."%char :: fp ++ rest.
Proof.
  unfold decimalText. rewrite <- !app_assoc. reflexivity.
Qed.

Lemma matchNumber_decimal (negative : bool) (ip fp rest : str) :
  ip <> [] -> fp <> [] ->
  forallb isDigit ip = true -> forallb isDigit fp = true ->
  stopsDigits rest = true ->
  matchNumber (decimalText negative ip fp ++ rest) =
  Some (decimalText negative ip fp).
Proof.
  intros Hip Hfp Hipd Hfpd Hrest.
  rewrite decimalText_app. unfold matchNumber, decimalText.
  assert (Hspan : spanDigits (ip ++ "."%char :: fp ++ rest)
                  = (ip, "."%char :: fp ++ rest))
    by (apply spanDigits_app; [exact Hipd | reflexivity]).
  assert (Hfrac : spanDigits (fp ++ rest) = (fp, rest))
    by (apply spanDigits_app; assumption).
  destruct negative.
  - cbn [app]. change (isChar 45 "-"%char) with true. cbn iota.
    rewrite Hspan. change (isChar 46 "."%char) with true. cbn iota.
    rewrite Hfrac. destruct fp as [|d fs]; [congruence|]. reflexivity.
  - destruct ip as [|c ip]; [congruence|].
    cbn [forallb] in Hipd. apply andb_true_iff in Hipd as [Hc Hipd].
    cbn [app] in *. rewrite (digit_not_minus c Hc).
    rewrite Hspan. change (isChar 46 "."%char) with true. cbn iota.
    rewrite Hfrac. destruct fp as [|d fs]; [congruence|]. reflexivity.
Qed.

Lemma parseDecimal_decimal (negative : bool) (ip fp : str) :
  ip <> [] ->
  forallb isDigit ip = true -> forallb isDigit fp = true ->
  parseDecimal (decimalText negative ip fp) =
  Some (let v := inject_Z (digitsValue ip)
                 + inject_Z (digitsValue fp) / inject_Z (10 ^ Z.of_nat (List.length fp)) in
        if negative then - v else v)%Q.
Proof.
  intros Hip Hipd Hfpd.
  unfold parseDecimal, decimalText.
  assert (Hspan : spanDigits (ip ++ "."%char :: fp) = (ip, "."%char :: fp))
    by (apply spanDigits_app; [exact Hipd | reflexivity]).
  pose proof (spanDigits_all fp Hfpd) as Hfrac.
  destruct negative.
  - cbn [app]. change (isChar 45 "-"%char) with true. cbn iota.
    rewrite Hspan. change (isChar 46 "."%char) with true. cbn iota.
    rewrite Hfrac. cbn [fst].
    destruct ip as [|c ip]; [congruence|]. reflexivity.
  - destruct ip as [|c ip]; [congruence|].
    cbn [forallb] in Hipd. apply andb_true_iff in Hipd as [Hc Hipd].
    cbn [app] in *. rewrite (digit_not_minus c Hc).
    rewrite Hspan. change (isChar 46 "."%char) with true. cbn iota.
    rewrite Hfrac. reflexivity.
Qed.

(** The unsigned part of a captured number is read back as written. *)
Lemma parseDecimal_unsigned (negative : bool) (ds tail : str) :
  forallb isDigit ds = true ->
  (tail = [] /\ ds <> []) \/
  (exists c fp, tail = c :: fp /\ isChar 46 c = true
                /\ forallb isDigit fp = true /\ (ds <> [] \/ fp <> [])) ->
  exists q : Q,
    (let (ip, s2) := spanDigits (ds ++ tail) in
     let fp :=
       match s2 with
       | c :: rest => if isChar 46 c then fst (spanDigits rest) else []
       | [] => []
       end in
     match ip, fp with
     | [], [] => None
     | _, _ =>
         let v := (inject_Z (digitsValue ip)
                   + inject_Z (digitsValue fp)
                     / inject_Z (10 ^ Z.of_nat (List.length fp)))%Q in
         Some (if negative then (- v)%Q else v)
     end) = Some q.
Proof.
  intros Hds [[-> Hne] | (c & fp & -> & Hc & Hfp & Hne)].
  - rewrite app_nil_r, (spanDigits_all ds Hds).
    destruct ds; [congruence|]. eexists. reflexivity.
  - rewrite (spanDigits_app ds (c :: fp) Hds).
    2:{ cbn [stopsDigits]. rewrite (point_not_digit c Hc). reflexivity. }
    rewrite Hc, (spanDigits_all fp Hfp). cbn [fst].
    destruct ds, fp; try (eexists; reflexivity).
    destruct Hne; congruence.
Qed.

(** Whatever the field pattern captures, [parseFloat] reads a number. *)
Lemma matchNumber_parses (s n : str) :
  matchNumber s = Some n -> exists q : Q, parseDecimal n = Some q.
Proof.
  unfold matchNumber.
  assert (Hcore : forall (sign s1 : str),
    (sign = [] /\ (match s1 with c :: _ => isChar 45 c = false | [] => True end)
     \/ exists c, sign = [c] /\ isChar 45 c = true) ->
    (let (ds, s2) := spanDigits s1 in
     match s2 with
     | c :: rest =>
         if isChar 46 c then
           match spanDigits rest with
           | (d :: fs, _) => Some (sign ++ ds ++ c :: d :: fs)
           | ([], _) => match ds with [] => None | _ => Some (sign ++ ds) end
           end
         else match ds with [] => None | _ => Some (sign ++ ds) end
     | [] => match ds with [] => None | _ => Some (sign ++ ds) end
     end) = Some n ->
    exists q : Q, parseDecimal n = Some q).
  { intros sign s1 Hsign H.
    destruct (spanDigits s1) as [ds s2] eqn:Hspan.
    destruct (spanDigits_spec s1 ds s2 Hspan) as (-> & Hds & Hstop).
    assert (Hshape : exists tail, n = sign ++ ds ++ tail /\
      ((tail = [] /\ ds <> []) \/
       (exists c fp, tail = c :: fp /\ isChar 46 c = true
                     /\ forallb isDigit fp = true /\ (ds <> [] \/ fp <> [])))).
    { destruct s2 as [|c rest].
      - destruct ds; [discriminate|]. injection H as <-.
        exists []. rewrite app_nil_r. split; [reflexivity|]. left. split; congruence.
      - destruct (isChar 46 c) eqn:Hc.
        + destruct (spanDigits rest) as [fs r] eqn:Hfs.
          destruct (spanDigits_spec rest fs r Hfs) as (_ & Hfsd & _).
          destruct fs as [|d fs].
          * destruct ds; [discriminate|]. injection H as <-.
            exists []. rewrite app_nil_r. split; [reflexivity|]. left. split; congruence.
          * injection H as <-. exists (c :: d :: fs). split; [reflexivity|].
            right. exists c, (d :: fs). repeat split; try assumption. right. congruence.
        + destruct ds; [discriminate|]. injection H as <-.
          exists []. rewrite app_nil_r. split; [reflexivity|]. left. split; congruence. }
    destruct Hshape as (tail & -> & Htail).
    unfold parseDecimal.
    destruct Hsign as [[-> Hhead] | (c & -> & Hc)].
    - cbn [app].
      pose proof (parseDecimal_unsigned false ds tail Hds Htail) as Hq.
      destruct ds as [|d ds].
      + destruct Htail as [[_ Hne] | (c & fp & -> & Hc & Hrest)]; [congruence|].
        cbn [app] in *. rewrite (point_not_minus c Hc). exact Hq.
      + cbn [forallb] in Hds. apply andb_true_iff in Hds as [Hd _].
        cbn [app] in *. rewrite (digit_not_minus d Hd). exact Hq.
    - cbn [app]. rewrite Hc. exact (parseDecimal_unsigned true ds tail Hds Htail). }
  destruct s as [|c rest].
  - apply (Hcore [] []). left. split; [reflexivity|exact I].
  - destruct (isChar 45 c) eqn:Hc.
    + apply (Hcore [c] rest). right. exists c. split; [reflexivity|exact Hc].
    + apply (Hcore [] (c :: rest)). left. split; [reflexivity|exact Hc].
Qed.

Lemma matchField_parses (upper : N) (s n : str) :
  matchField upper s = Some n -> exists q : Q, xparseFloat n = Fin q.
Proof.
  induction s as [|c rest IH]; cbn [matchField]; [discriminate|].
  intro H. destruct (isLetter upper c); [|exact (IH H)].
  destruct (matchNumber rest) as [m|] eqn:Hm; [|exact (IH H)].
  injection H as <-. destruct (matchNumber_parses rest m Hm) as [q Hq].
  exists q. unfold xparseFloat. rewrite Hq. reflexivity.
Qed.

(* ----------------------------------------------------------------- *)
(** ** Printed numbers *)

Lemma forallb_weaken {A : Type} (P R : A -> bool) (l : list A) :
  (forall a, P a = true -> R a = true) ->
  forallb P l = true -> forallb R l = true.
Proof.
  intros HPR. induction l as [|a l IH]; cbn [forallb]; [reflexivity|].
  rewrite !andb_true_iff. intros [Ha Hl]. split; auto.
Qed.

Lemma toFixed3Q_fixed (q : Q) :
  Qabs q < inject_Z (10 ^ 21) ->
  toFixed3Q q =
  decimalText (Qltb q 0) (showNat (thousandths q / 1000))
    (showDigits 3 (thousandths q mod 1000)).
Proof.
  intro Hq. unfold toFixed3Q.
  replace (Qle_bool (inject_Z (10 ^ 21)) (Qabs q)) with false
    by (symmetry; apply Qle_bool_false; exact Hq).
  unfold decimalText. destruct (Qltb q 0); reflexivity.
Qed.

Lemma decimalText_numChars (negative : bool) (ip fp : str) :
  forallb isDigit ip = true -> forallb isDigit fp = true ->
  forallb numChar (decimalText negative ip fp) = true.
Proof.
  intros Hip Hfp. unfold decimalText.
  rewrite !forallb_app. cbn [forallb].
  rewrite (forallb_weaken isDigit numChar ip digit_numChar Hip).
  rewrite (forallb_weaken isDigit numChar fp digit_numChar Hfp).
  destruct negative; reflexivity.
Qed.

Lemma toFixed3Q_numChars (q : Q) :
  Qabs q < inject_Z (10 ^ 21) -> forallb numChar (toFixed3Q q) = true.
Proof.
  intro Hq. rewrite (toFixed3Q_fixed q Hq).
  apply decimalText_numChars; [apply showNat_digits | apply showDigits_digits].
Qed.

(** The last character of a printed number is a digit. *)
Lemma toFixed3Q_ends (q : Q) :
  Qabs q < inject_Z (10 ^ 21) ->
  exists (body : str) (d : ascii),
    toFixed3Q q = body ++ [d] /\ isDigit d = true.
Proof.
  intro Hq. rewrite (toFixed3Q_fixed q Hq). unfold decimalText.
  cbn [showDigits]. set (n := (thousandths q mod 1000)%Z).
  exists ((if Qltb q 0 then ["-"%char] else []) ++ showNat (thousandths q / 1000)
          ++ "."%char :: (showDigits 0 (n / 10 / 10 / 10) ++ [digitChar (n / 10 / 10 mod 10)])
                          ++ [digitChar (n / 10 mod 10)]),
         (digitChar (n mod 10)).
  split.
  - rewrite <- !app_assoc. cbn [app]. reflexivity.
  - apply digitChar_digit. apply Z.mod_pos_bound. lia.
Qed.

Lemma Z_split_thousand (n : Z) :
  (inject_Z (n / 1000) + inject_Z (n mod 1000) / inject_Z (10 ^ Z.of_nat 3)
   == inject_Z n / 1000)%Q.
Proof.
  change (inject_Z (10 ^ Z.of_nat 3)) with 1000%Q.
  rewrite (Z.div_mod n 1000) at 3 by lia.
  rewrite inject_Z_plus, inject_Z_mult. change (inject_Z 1000) with 1000%Q.
  field.
Qed.

(** Reading a printed number back gives the number rounded to
    thousandths. *)
Lemma parse_toFixed3Q (q : Q) :
  Qabs q < inject_Z (10 ^ 21) ->
  exists v : Q, xparseFloat (toFixed3Q q) = Fin v /\ (v == round3 q)%Q.
Proof.
  intro Hq. rewrite (toFixed3Q_fixed q Hq). unfold xparseFloat.
  rewrite parseDecimal_decimal;
    [| apply showNat_nonempty | apply showNat_digits | apply showDigits_digits].
  eexists. split; [reflexivity|].
  pose proof (thousandths_nonneg q) as Hn.
  rewrite digitsValue_showNat by (apply Z.div_pos; lia).
  rewrite digitsValue_showDigits by (apply Z.mod_pos_bound; lia).
  rewrite showDigits_length.
  rewrite (Z.mod_small (thousandths q mod 1000) (10 ^ Z.of_nat 3))
    by (change (10 ^ Z.of_nat 3)%Z with 1000%Z; apply Z.mod_pos_bound; lia).
  unfold round3. cbv zeta.
  destruct (Qltb q 0); rewrite Z_split_thousand; reflexivity.
Qed.

(** In a run of text a printed number is found where it starts. *)
Lemma matchNumber_toFixed3Q (q : Q) (rest : str) :
  Qabs q < inject_Z (10 ^ 21) -> stopsDigits rest = true ->
  matchNumber (toFixed3Q q ++ rest) = Some (toFixed3Q q).
Proof.
  intros Hq Hrest. rewrite (toFixed3Q_fixed q Hq).
  apply matchNumber_decimal; try assumption.
  - apply showNat_nonempty.
  - intro H. apply (f_equal (@List.length _)) in H.
    rewrite showDigits_length in H. discriminate.
  - apply showNat_digits.
  - apply showDigits_digits.
Qed.

(* ----------------------------------------------------------------- *)
(** ** Lines *)

Lemma plainText_no_semicolon (s : str) :
  plainText s = true -> forallb (fun c => negb (isChar 59 c)) s = true.
Proof.
  apply forallb_weaken. intros c H.
  apply negb_true_iff in H. apply orb_false_iff in H as [H _].
  apply orb_false_iff in H as [H _]. rewrite H. reflexivity.
Qed.

Lemma numChars_plain (s : str) : forallb numChar s = true -> plainText s = true.
Proof.
  apply forallb_weaken. intros c H. rewrite (numChar_plain c H). reflexivity.
Qed.

Lemma numChars_noLetter (upper : N) (s : str) :
  (64 < upper)%N -> forallb numChar s = true -> noLetter upper s = true.
Proof.
  intro Hu. apply forallb_weaken. intros c H.
  rewrite (numChar_not_letter upper c Hu H). reflexivity.
Qed.

Lemma plainText_oneLine (s : str) : plainText s = true -> oneLine s = true.
Proof.
  apply forallb_weaken. intros c H.
  apply negb_true_iff in H. apply orb_false_iff in H as [_ H].
  rewrite H. reflexivity.
Qed.

(** The comment is cut off a line. *)
Lemma stripSemicolon_comment (body comment : str) :
  plainText body = true -> oneLine comment = true ->
  stripSemicolon (body ++ ";"%char :: comment) = body.
Proof.
  intros Hb Hc. apply plainText_no_semicolon in Hb.
  induction body as [|c body IH]; cbn [app stripSemicolon].
  - change (isChar 59 ";"%char) with true. unfold oneLine in Hc. rewrite Hc. reflexivity.
  - cbn [forallb] in Hb. apply andb_true_iff in Hb as [Hc0 Hb].
    apply negb_true_iff in Hc0. rewrite Hc0. cbn [andb]. rewrite (IH Hb). reflexivity.
Qed.

Lemma stripSemicolon_plain (body : str) :
  plainText body = true -> stripSemicolon body = body.
Proof.
  intro Hb. apply plainText_no_semicolon in Hb.
  induction body as [|c body IH]; cbn [stripSemicolon]; [reflexivity|].
  cbn [forallb] in Hb. apply andb_true_iff in Hb as [Hc0 Hb].
  apply negb_true_iff in Hc0. rewrite Hc0. cbn [andb]. rewrite (IH Hb). reflexivity.
Qed.

Lemma stripParens_plain (body : str) :
  plainText body = true -> stripParens body = body.
Proof.
  unfold stripParens.
  induction body as [|c body IH]; cbn [stripParensFrom forallb plainText];
    [reflexivity|].
  intro H. apply andb_true_iff in H as [Hc Hb].
  apply negb_true_iff in Hc. apply orb_false_iff in Hc as [Hc _].
  apply orb_false_iff in Hc as [_ Hc]. rewrite Hc. cbn [andb].
  rewrite (IH Hb). reflexivity.
Qed.

Lemma plainText_app (a b : str) :
  plainText (a ++ b) = (plainText a && plainText b)%bool.
Proof. apply forallb_app. Qed.

Lemma noLetter_app (upper : N) (a b : str) :
  noLetter upper (a ++ b) = (noLetter upper a && noLetter upper b)%bool.
Proof. apply forallb_app. Qed.

Lemma oneLine_app (a b : str) : oneLine (a ++ b) = (oneLine a && oneLine b)%bool.
Proof. apply forallb_app. Qed.

(** Blanks at the end of a text that starts and ends with other
    characters are all that [trim] removes. *)
Lemma trim_body (c d : ascii) (mid blanks : str) :
  isSpace c = false -> isSpace d = false -> forallb isSpace blanks = true ->
  trim (c :: mid ++ d :: blanks) = c :: mid ++ [d].
Proof.
  intros Hc Hd Hb. unfold trim. cbn [trimStart]. rewrite Hc.
  replace (rev (c :: mid ++ d :: blanks)) with (rev blanks ++ d :: rev (c :: mid)).
  2:{ change (c :: mid ++ d :: blanks) with ((c :: mid) ++ d :: blanks).
      rewrite rev_app_distr. cbn [rev]. rewrite <- !app_assoc. reflexivity. }
  assert (Hrev : forall bs tail, forallb isSpace bs = true ->
            trimStart (bs ++ d :: tail) = d :: tail).
  { induction bs as [|b bs IH]; intros tail Hbs; cbn [app trimStart].
    - rewrite Hd. reflexivity.
    - cbn [forallb] in Hbs. apply andb_true_iff in Hbs as [Hb0 Hbs].
      rewrite Hb0. exact (IH tail Hbs). }
  rewrite Hrev.
  2:{ rewrite forallb_forall in *. intros x Hx. apply Hb. apply in_rev. exact Hx. }
  change (d :: rev (c :: mid)) with (rev (rev [d]) ++ rev (c :: mid)) || idtac.
  cbn [rev]. rewrite rev_app_distr. cbn [rev app].
  rewrite rev_app_distr, rev_involutive. reflexivity.
Qed.

(** Scanning for a field passes over text without its letter. *)
Lemma matchField_skip (upper : N) (pre s : str) :
  noLetter upper pre = true -> matchField upper (pre ++ s) = matchField upper s.
Proof.
  intro H. induction pre as [|c pre IH]; cbn [app matchField]; [reflexivity|].
  cbn [noLetter forallb] in H. apply andb_true_iff in H as [Hc Hpre].
  apply negb_true_iff in Hc. rewrite Hc. exact (IH Hpre).
Qed.

Lemma matchField_none (upper : N) (s : str) :
  noLetter upper s = true -> matchField upper s = None.
Proof.
  intro H. rewrite <- (app_nil_r s). rewrite (matchField_skip upper s [] H). reflexivity.
Qed.

Lemma hasLetter_none (upper : N) (s : str) :
  noLetter upper s = true -> hasLetter upper s = false.
Proof.
  intro H. unfold hasLetter. induction s as [|c s IH]; cbn [existsb]; [reflexivity|].
  cbn [noLetter forallb] in H. apply andb_true_iff in H as [Hc Hs].
  apply negb_true_iff in Hc. rewrite Hc, (IH Hs). reflexivity.
Qed.

Lemma hasGDigits_none (s : str) : noLetter chG s = true -> hasGDigits s = false.
Proof.
  intro H. induction s as [|c s IH]; cbn [hasGDigits]; [reflexivity|].
  cbn [noLetter forallb] in H. apply andb_true_iff in H as [Hc Hs].
  apply negb_true_iff in Hc. destruct s as [|d s]; [reflexivity|].
  rewrite Hc, (IH Hs). reflexivity.
Qed.

(* ----------------------------------------------------------------- *)
(** ** Joining and splitting lines *)

Lemma splitLines_line (l : str) : oneLine l = true -> splitLines l = [l].
Proof.
  induction l as [|c l IH]; intro H; [reflexivity|].
  cbn [oneLine forallb] in H. apply andb_true_iff in H as [Hc Hl].
  apply negb_true_iff in Hc. apply orb_false_iff in Hc as [Hnl Hcr].
  cbn [splitLines]. rewrite Hnl.
  destruct l as [|d l]; [reflexivity|].
  rewrite Hcr. cbn [andb]. rewrite (IH Hl). reflexivity.
Qed.

Lemma splitLines_cons (l rest : str) :
  oneLine l = true -> splitLines (l ++ NL :: rest) = l :: splitLines rest.
Proof.
  induction l as [|c l IH]; intro H.
  - cbn [app splitLines]. change (isChar 10 NL) with true. reflexivity.
  - cbn [oneLine forallb] in H. apply andb_true_iff in H as [Hc Hl].
    apply negb_true_iff in Hc. apply orb_false_iff in Hc as [Hnl Hcr].
    cbn [app splitLines]. rewrite Hnl. specialize (IH Hl).
    destruct (l ++ NL :: rest) as [|d t] eqn:E.
    + destruct l; discriminate.
    + rewrite Hcr. cbn [andb]. rewrite IH. reflexivity.
Qed.

(** Splitting a joined text gives back its lines. *)
Lemma splitLines_join (lines : list str) :
  lines <> [] -> forallb oneLine lines = true ->
  splitLines (join lines) = lines.
Proof.
  induction lines as [|l rest IH]; intros Hne H; [congruence|].
  cbn [forallb] in H. apply andb_true_iff in H as [Hl Hrest].
  cbn [join]. destruct rest as [|l' rest'].
  - apply splitLines_line. exact Hl.
  - rewrite (splitLines_cons l _ Hl). f_equal. apply IH; [discriminate|exact Hrest].
Qed.

(* ----------------------------------------------------------------- *)
(** ** What the parsers read is finite *)

Local Open Scope Q_scope.

Lemma updateField_finite (upper : N) (line : str) (last : option xnum) :
  optFinite last -> optFinite (updateField upper line last).
Proof.
  intro H. unfold updateField.
  destruct (matchField upper line) as [m|] eqn:Hm; [|exact H].
  destruct (matchField_parses upper line m Hm) as [q Hq].
  cbn [parseFloat ExactText optFinite]. rewrite Hq. exact I.
Qed.

Lemma xdiv_finite (a : xnum) (s : Q) :
  finite a -> ~ s == 0 -> finite (xdiv a (Fin s)).
Proof.
  intros Ha Hs. destruct a; try contradiction. cbn [xdiv].
  replace (Qeq_bool s 0) with false; [exact I|].
  symmetry. apply not_true_iff_false. intro E. apply Qeq_bool_iff in E. auto.
Qed.

Lemma xneg_finite (a : xnum) : finite a -> finite (xneg a).
Proof. destruct a; auto. Qed.

Lemma previewMoves_finite (flipY : bool) (cfg : MachineSettings xnum) (s : Q)
    (lines : list str) :
  scaleFactor cfg = Fin s -> ~ s == 0 ->
  forall lastX lastY lastC : option xnum,
    optFinite lastX -> optFinite lastY ->
    Forall finiteMove (previewMoves flipY cfg lastX lastY lastC lines).
Proof.
  intros Hsf Hs.
  induction lines as [|raw rest IH]; intros lastX lastY lastC HX HY;
    cbn [previewMoves]; [constructor|].
  destruct (isEmpty (cleanLine raw)); [exact (IH _ _ _ HX HY)|].
  destruct (negb match findGMove is0or1 (cleanLine raw) with
                 | Some _ => true | None => false end
            && negb (hasLetter chX (cleanLine raw))
            && negb (hasLetter chY (cleanLine raw)))%bool; [exact (IH _ _ _ HX HY)|].
  pose proof (updateField_finite chX (cleanLine raw) lastX HX) as HX'.
  pose proof (updateField_finite chY (cleanLine raw) lastY HY) as HY'.
  destruct (updateField chX (cleanLine raw) lastX) as [x|];
    [|exact (IH _ _ _ HX' HY')].
  destruct (updateField chY (cleanLine raw) lastY) as [y|];
    [|exact (IH _ _ _ HX' HY')].
  constructor; [|exact (IH _ _ _ HX' HY')].
  unfold finiteMove. cbn [mx my]. rewrite Hsf. cbn [div neg Exact].
  split; [apply xdiv_finite; assumption|].
  apply xdiv_finite; [|exact Hs]. destruct flipY; [apply xneg_finite|]; exact HY'.
Qed.

(* ----------------------------------------------------------------- *)
(** ** The playback path built from a program *)

Lemma hypotUp_finite (a b : xnum) : finite a -> finite b -> finite (hypotUp a b).
Proof. destruct a, b; simpl; auto. Qed.

Section BuiltPath.

Variable hypot : xnum -> xnum -> xnum.
Hypothesis hypot_finite : forall a b, finite a -> finite b -> finite (hypot a b).

(** What holds of every path built from moves between finite points. *)
Lemma previewOfMoves_partition (fuel : nat) (moves : list (Move xnum))
    (pv : Preview xnum) :
  Forall finiteMove moves ->
  previewOfMoves hypot fuel moves = Some pv ->
  partitionFrom (Fin 0) (segments pv) (totalLength pv)
  /\ Forall properSegment (segments pv).
Proof.
  intros Hm H. unfold previewOfMoves in H.
  destruct moves as [|a rest].
  - injection H as <-. cbn. split; [reflexivity|constructor].
  - inversion Hm as [|a' rest' Ha Hrest]; subst.
    destruct (buildSegments hypot fuel (ofZ 0) a rest) as [[segs total]|] eqn:Hb;
      [|discriminate].
    injection H as <-. cbn [segments totalLength]. split.
    + exact (buildSegments_partition hypot fuel rest (Fin 0) a segs total Hb).
    + exact (buildSegments_proper hypot hypot_finite fuel rest (Fin 0) a segs total
               I Ha Hrest Hb).
Qed.

Lemma built_moves_finite (cfg : MachineSettings xnum) (text : str)
    (flipY : bool) :
  finite (scaleFactor cfg) -> ~ toQ (scaleFactor cfg) == 0 ->
  Forall finiteMove (previewMoves flipY cfg None None None (splitLines text)).
Proof.
  intros Hf Hs.
  apply (previewMoves_finite flipY cfg (toQ (scaleFactor cfg)));
    [apply finite_toQ; exact Hf | exact Hs | exact I | exact I].
Qed.

End BuiltPath.


Lemma tenth_nonzero : ~ toQ (scaleFactor defaultSettings) == 0.
Proof. intro H. discriminate H. Qed.




(* ----------------------------------------------------------------- *)
(** ** The scale-factor guard of [parseGCode] *)

Lemma parseLines_finite (emit : xnum -> xnum -> Point xnum) (lines : list str) :
  (forall x y, finite x -> finite y -> finitePoint (emit x y)) ->
  forall lastX lastY : option xnum,
    optFinite lastX -> optFinite lastY ->
    Forall finitePoint (parseLines emit lastX lastY lines).
Proof.
  intro Hemit.
  induction lines as [|raw rest IH]; intros lastX lastY HX HY;
    cbn [parseLines]; [constructor|].
  destruct (isEmpty (cleanLine raw)); [exact (IH _ _ HX HY)|].
  destruct (negb (looksLikeMotion (cleanLine raw))); [exact (IH _ _ HX HY)|].
  pose proof (updateField_finite chX (cleanLine raw) lastX HX) as HX'.
  pose proof (updateField_finite chY (cleanLine raw) lastY HY) as HY'.
  destruct (updateField chX (cleanLine raw) lastX) as [x|]; [|exact (IH _ _ HX' HY')].
  destruct (updateField chY (cleanLine raw) lastY) as [y|]; [|exact (IH _ _ HX' HY')].
  constructor; [exact (Hemit x y HX' HY') | exact (IH _ _ HX' HY')].
Qed.



(* ----------------------------------------------------------------- *)
(** ** The lines of a generated program *)

Lemma printable_inv (a : xnum) :
  printable a -> a = Fin (toQ a) /\ (Qabs (toQ a) < inject_Z (10 ^ 21))%Q.
Proof.
  destruct a as [q| | |]; intro H;
    [split; [reflexivity|exact H] | destruct H | destruct H | destruct H].
Qed.

Lemma formatNum_printed (a : xnum) : printable a -> printedNumber (formatNum a).
Proof.
  intro H. destruct (printable_inv a H) as [-> Hq].
  cbn [formatNum toFixed3 ExactText xtoFixed3]. split.
  - exact (toFixed3Q_numChars _ Hq).
  - exact (toFixed3Q_ends _ Hq).
Qed.

Lemma printedNumber_plain (f : str) : printedNumber f -> plainText f = true.
Proof. intros [H _]. exact (numChars_plain f H). Qed.

Lemma printedNumber_noLetter (upper : N) (f : str) :
  (64 < upper)%N -> printedNumber f -> noLetter upper f = true.
Proof. intros Hu [H _]. exact (numChars_noLetter upper f Hu H). Qed.

Lemma printedNumber_oneLine (f : str) : printedNumber f -> oneLine f = true.
Proof. intro H. apply plainText_oneLine, printedNumber_plain, H. Qed.

(** Cleaning a line that ends in a printed number, with or without a
    comment behind it, leaves the line up to the number. *)
Lemma cleanLine_numbered (pre f tail : str) :
  startsClean pre = true -> plainText pre = true -> printedNumber f ->
  tail = [] \/ (exists comment, tail = " "%char :: ";"%char :: comment
                                /\ oneLine comment = true) ->
  cleanLine (pre ++ f ++ tail) = pre ++ f.
Proof.
  intros Hstart Hpre [Hnum (body & d & -> & Hd)] Htail.
  destruct pre as [|c pre]; [discriminate|].
  cbn [startsClean] in Hstart. apply negb_true_iff in Hstart.
  assert (Hplain : plainText ((c :: pre) ++ body ++ [d]) = true).
  { rewrite plainText_app, Hpre. exact (numChars_plain _ Hnum). }
  assert (Hdsp : isSpace d = false) by (apply numChar_not_space, digit_numChar, Hd).
  assert (Hshape : forall blanks,
            (c :: pre) ++ (body ++ [d]) ++ blanks = c :: (pre ++ body) ++ d :: blanks).
  { intro blanks. cbn [app]. rewrite <- !app_assoc. reflexivity. }
  unfold cleanLine. destruct Htail as [-> | (comment & -> & Hcomment)].
  - rewrite app_nil_r.
    rewrite (stripSemicolon_plain _ Hplain), (stripParens_plain _ Hplain).
    rewrite <- (app_nil_r ((c :: pre) ++ body ++ [d])) at 1.
    rewrite <- app_assoc, Hshape.
    rewrite (trim_body c d (pre ++ body) [] Hstart Hdsp eq_refl).
    cbn [app]. rewrite <- app_assoc. reflexivity.
  - assert (Hplain' : plainText (((c :: pre) ++ body ++ [d]) ++ [" "%char]) = true).
    { rewrite plainText_app, Hplain. reflexivity. }
    replace ((c :: pre) ++ (body ++ [d]) ++ " "%char :: ";"%char :: comment)
      with ((((c :: pre) ++ body ++ [d]) ++ [" "%char]) ++ ";"%char :: comment)
      by (rewrite <- !app_assoc; reflexivity).
    rewrite (stripSemicolon_comment _ comment Hplain' Hcomment).
    rewrite (stripParens_plain _ Hplain').
    rewrite <- app_assoc, Hshape.
    rewrite (trim_body c d (pre ++ body) [" "%char] Hstart Hdsp eq_refl).
    cbn [app]. rewrite <- app_assoc. reflexivity.
Qed.

(** A comment line is empty once cleaned. *)
Lemma cleanLine_comment (comment : str) :
  oneLine comment = true -> cleanLine (";"%char :: comment) = [].
Proof.
  intro H. unfold cleanLine.
  change (";"%char :: comment) with ([] ++ ";"%char :: comment).
  rewrite (stripSemicolon_comment [] comment eq_refl H). reflexivity.
Qed.

(** What [parseGCode] reads on a line, from the cleaned line. *)
Lemma parserFields_cleaned (raw line : str) :
  cleanLine raw = line ->
  parserFields (NT := ExactText) raw =
  if isEmpty line then None
  else if negb (looksLikeMotion line) then None
  else Some (option_map xparseFloat (matchField chX line),
             option_map xparseFloat (matchField chY line), None).
Proof. intros <-. reflexivity. Qed.

Lemma tail_cases (comment : string) :
  oneLine (lit comment) = true ->
  forall tail, tail = [] \/ tail = lit " ;" ++ lit comment ->
  tail = [] \/ (exists c, tail = " "%char :: ";"%char :: c /\ oneLine c = true).
Proof.
  intros Hc tail [-> | ->]; [left; reflexivity|].
  right. exists (lit comment). split; [reflexivity|exact Hc].
Qed.

Ltac no_letter :=
  repeat rewrite noLetter_app;
  repeat match goal with
         | H : printedNumber ?f |- context [noLetter ?u ?f] =>
             rewrite (printedNumber_noLetter u f eq_refl H)
         end;
  reflexivity.

Ltac plain_text :=
  repeat rewrite plainText_app;
  repeat match goal with
         | H : printedNumber ?f |- context [plainText ?f] =>
             rewrite (printedNumber_plain f H)
         end;
  reflexivity.

(** A comment line is passed over. *)
Lemma parserFields_comment (comment : str) :
  oneLine comment = true ->
  parserFields (NT := ExactText) (";"%char :: comment) = None.
Proof.
  intro H. rewrite (parserFields_cleaned _ [] (cleanLine_comment comment H)).
  reflexivity.
Qed.

(** The feed line is passed over: it holds no G, X or Y. *)
Lemma parserFields_feed (f tail : str) :
  printedNumber f ->
  tail = [] \/ (exists c, tail = " "%char :: ";"%char :: c /\ oneLine c = true) ->
  parserFields (NT := ExactText) (lit "F" ++ f ++ tail) = None.
Proof.
  intros Hf Htail.
  rewrite (parserFields_cleaned _ (lit "F" ++ f)
             (cleanLine_numbered (lit "F") f tail eq_refl eq_refl Hf Htail)).
  unfold looksLikeMotion.
  rewrite hasGDigits_none, !hasLetter_none by no_letter.
  reflexivity.
Qed.

(** A Z move holds no X and no Y. *)
Lemma parserFields_z (g f tail : str) :
  g = lit "G0 Z" \/ g = lit "G1 Z" ->
  printedNumber f ->
  tail = [] \/ (exists c, tail = " "%char :: ";"%char :: c /\ oneLine c = true) ->
  parserFields (NT := ExactText) (g ++ f ++ tail) = Some (None, None, None).
Proof.
  intros Hg Hf Htail.
  assert (Hclean : cleanLine (g ++ f ++ tail) = g ++ f)
    by (destruct Hg as [-> | ->];
        [exact (cleanLine_numbered (lit "G0 Z") f tail eq_refl eq_refl Hf Htail)
        |exact (cleanLine_numbered (lit "G1 Z") f tail eq_refl eq_refl Hf Htail)]).
  rewrite (parserFields_cleaned _ _ Hclean).
  assert (Hmotion : looksLikeMotion (g ++ f) = true)
    by (destruct Hg as [-> | ->]; reflexivity).
  rewrite Hmotion.
  rewrite !matchField_none by (destruct Hg as [-> | ->]; no_letter).
  destruct Hg as [-> | ->]; reflexivity.
Qed.

(** The plunge move: a Z and a feed, no X and no Y. *)
Lemma parserFields_plunge (f1 f2 tail : str) :
  printedNumber f1 -> printedNumber f2 ->
  tail = [] \/ (exists c, tail = " "%char :: ";"%char :: c /\ oneLine c = true) ->
  parserFields (NT := ExactText) (lit "G1 Z" ++ f1 ++ lit " F" ++ f2 ++ tail)
  = Some (None, None, None).
Proof.
  intros Hf1 Hf2 Htail.
  assert (Hclean : cleanLine (lit "G1 Z" ++ f1 ++ lit " F" ++ f2 ++ tail)
                   = lit "G1 Z" ++ f1 ++ lit " F" ++ f2).
  { replace (lit "G1 Z" ++ f1 ++ lit " F" ++ f2 ++ tail)
      with ((lit "G1 Z" ++ f1 ++ lit " F") ++ f2 ++ tail)
      by (rewrite <- !app_assoc; reflexivity).
    rewrite (cleanLine_numbered (lit "G1 Z" ++ f1 ++ lit " F") f2 tail
               eq_refl ltac:(plain_text) Hf2 Htail).
    rewrite <- !app_assoc. reflexivity. }
  rewrite (parserFields_cleaned _ _ Hclean).
  change (looksLikeMotion (lit "G1 Z" ++ f1 ++ lit " F" ++ f2)) with true.
  rewrite !matchField_none by no_letter.
  reflexivity.
Qed.

(** A move with X and Y: both fields are read where they were printed.
    [rest] is empty or the feed field. *)
Lemma parserFields_xy (g : str) (qx qy : Q) (rest : str) :
  g = lit "G0 " \/ g = lit "G1 " ->
  (Qabs qx < inject_Z (10 ^ 21))%Q -> (Qabs qy < inject_Z (10 ^ 21))%Q ->
  rest = [] \/ (exists f, rest = lit " F" ++ f /\ printedNumber f) ->
  parserFields (NT := ExactText)
    (g ++ "X"%char :: toFixed3Q qx ++ lit " Y" ++ toFixed3Q qy ++ rest)
  = Some (Some (xparseFloat (toFixed3Q qx)), Some (xparseFloat (toFixed3Q qy)), None).
Proof.
  intros Hg Hx Hy Hrest.
  pose proof (formatNum_printed (Fin qx) Hx) as Hpx.
  pose proof (formatNum_printed (Fin qy) Hy) as Hpy.
  cbn [formatNum toFixed3 ExactText xtoFixed3] in Hpx, Hpy.
  set (fx := toFixed3Q qx) in *. set (fy := toFixed3Q qy) in *.
  assert (Hclean : cleanLine (g ++ "X"%char :: fx ++ lit " Y" ++ fy ++ rest)
                   = g ++ "X"%char :: fx ++ lit " Y" ++ fy ++ rest).
  { assert (Hnil : forall P f, printedNumber f -> startsClean P = true ->
              plainText P = true -> cleanLine (P ++ f) = P ++ f).
    { intros P f Hf HP1 HP2. rewrite <- (app_nil_r f) at 1.
      apply cleanLine_numbered; try assumption. left. reflexivity. }
    destruct Hrest as [-> | (f & -> & Hf)].
    - rewrite app_nil_r.
      replace (g ++ "X"%char :: fx ++ lit " Y" ++ fy)
        with ((g ++ lit "X" ++ fx ++ lit " Y") ++ fy)
        by (rewrite <- !app_assoc; reflexivity).
      apply Hnil; [assumption | |]; destruct Hg as [-> | ->];
        try reflexivity; plain_text.
    - replace (g ++ "X"%char :: fx ++ lit " Y" ++ fy ++ lit " F" ++ f)
        with ((g ++ lit "X" ++ fx ++ lit " Y" ++ fy ++ lit " F") ++ f)
        by (rewrite <- !app_assoc; reflexivity).
      apply Hnil; [assumption | |]; destruct Hg as [-> | ->];
        try reflexivity; plain_text. }
  rewrite (parserFields_cleaned _ _ Hclean).
  assert (Hmotion : looksLikeMotion (g ++ "X"%char :: fx ++ lit " Y" ++ fy ++ rest) = true)
    by (destruct Hg as [-> | ->]; reflexivity).
  assert (Hne : isEmpty (g ++ "X"%char :: fx ++ lit " Y" ++ fy ++ rest) = false)
    by (destruct Hg as [-> | ->]; reflexivity).
  rewrite Hne, Hmotion. cbn [negb].
  assert (HX : matchField chX (g ++ "X"%char :: fx ++ lit " Y" ++ fy ++ rest) = Some fx).
  { rewrite matchField_skip by (destruct Hg as [-> | ->]; reflexivity).
    cbn [matchField]. change (isLetter chX "X"%char) with true. cbn iota.
    unfold fx.
    rewrite (matchNumber_toFixed3Q qx (lit " Y" ++ fy ++ rest) Hx eq_refl).
    reflexivity. }
  assert (HY : matchField chY (g ++ "X"%char :: fx ++ lit " Y" ++ fy ++ rest) = Some fy).
  { replace (g ++ "X"%char :: fx ++ lit " Y" ++ fy ++ rest)
      with ((g ++ lit "X" ++ fx ++ lit " ") ++ "Y"%char :: fy ++ rest)
      by (rewrite <- !app_assoc; reflexivity).
    rewrite matchField_skip by (destruct Hg as [-> | ->]; no_letter).
    cbn [matchField]. change (isLetter chY "Y"%char) with true. cbn iota.
    unfold fy. rewrite (matchNumber_toFixed3Q qy rest Hy).
    - reflexivity.
    - destruct Hrest as [-> | (f & -> & _)]; reflexivity. }
  rewrite HX, HY. reflexivity.
Qed.

(* ----------------------------------------------------------------- *)
(** ** The scale inside the header comment *)

Lemma forallb_rev {A : Type} (P : A -> bool) (l : list A) :
  forallb P l = true -> forallb P (rev l) = true.
Proof.
  rewrite !forallb_forall. intros H x Hx. apply H. apply in_rev. exact Hx.
Qed.

Lemma forallb_firstn {A : Type} (P : A -> bool) (n : nat) (l : list A) :
  forallb P l = true -> forallb P (firstn n l) = true.
Proof.
  revert l. induction n as [|n IH]; intros [|a l] H; try reflexivity.
  cbn [firstn forallb] in *. apply andb_true_iff in H as [Ha Hl].
  rewrite Ha, (IH l Hl). reflexivity.
Qed.

Lemma forallb_tl {A : Type} (P : A -> bool) (l : list A) :
  forallb P l = true -> forallb P (tl l) = true.
Proof.
  destruct l as [|a l]; [reflexivity|]. cbn [tl forallb].
  intro H. apply andb_true_iff in H as [_ Hl]. exact Hl.
Qed.

Lemma forallb_dropTrailingZeros (P : ascii -> bool) (l : str) :
  forallb P l = true -> forallb P (dropTrailingZeros l) = true.
Proof.
  induction l as [|c l IH]; [reflexivity|]. intro H. cbn [dropTrailingZeros].
  destruct (isChar 48 c); [|exact H].
  cbn [forallb] in H. apply andb_true_iff in H as [_ Hl]. exact (IH Hl).
Qed.

Lemma digits_oneLine (s : str) : forallb isDigit s = true -> oneLine s = true.
Proof.
  intro H. apply plainText_oneLine, numChars_plain.
  revert H. apply forallb_weaken. exact digit_numChar.
Qed.

Lemma fraction_oneLine (frac : str) :
  oneLine frac = true ->
  oneLine match frac with [] => [] | _ => lit "." ++ frac end = true.
Proof. intro H. destruct frac; [reflexivity|]. exact H. Qed.

Lemma sign_oneLine (negative : bool) :
  oneLine (if negative then lit "-" else []) = true.
Proof. destruct negative; reflexivity. Qed.

Lemma showExponent_oneLine (negative : bool) (n : Z) :
  oneLine (showExponent negative n) = true.
Proof.
  unfold showExponent. rewrite !oneLine_app, sign_oneLine.
  rewrite (digits_oneLine (firstn 1 (showNat n)))
    by (apply forallb_firstn, showNat_digits).
  rewrite fraction_oneLine.
  - rewrite (digits_oneLine (showNat _)) by apply showNat_digits. reflexivity.
  - apply digits_oneLine, forallb_rev, forallb_dropTrailingZeros, forallb_rev,
      forallb_firstn, forallb_tl, showNat_digits.
Qed.

Lemma toStrQ_oneLine (q : Q) : oneLine (toStrQ q) = true.
Proof.
  unfold toStrQ. destruct (Qle_bool (inject_Z (10 ^ 21)) (Qabs q)).
  - apply showExponent_oneLine.
  - cbv zeta. rewrite !oneLine_app, sign_oneLine.
    rewrite (digits_oneLine (showNat _)) by apply showNat_digits.
    rewrite fraction_oneLine; [reflexivity|].
    apply digits_oneLine, forallb_rev, forallb_dropTrailingZeros, forallb_rev,
      showDigits_digits.
Qed.

Lemma xtoStr_oneLine (a : xnum) : oneLine (xtoStr a) = true.
Proof. destruct a; try reflexivity. apply toStrQ_oneLine. Qed.

(* ----------------------------------------------------------------- *)
(** ** The parser, line by line *)

Section ParserSteps.

Context {num : Type} {JN : JSNumber num} {NT : NumText num}.
Variable emit : num -> num -> Point num.

(** A line that the parser passes over leaves the modal state alone. *)
Lemma parseLines_skip (lastX lastY : option num) (raw : str) (rest : list str) :
  parserFields raw = None ->
  parseLines emit lastX lastY (raw :: rest) = parseLines emit lastX lastY rest.
Proof.
  unfold parserFields. cbn [parseLines].
  destruct (isEmpty (cleanLine raw)); [reflexivity|].
  destruct (negb (looksLikeMotion (cleanLine raw))); [reflexivity|discriminate].
Qed.

(** A motion line without X and Y repeats the modal sample, if there is
    one. *)
Lemma parseLines_repeat (lastX lastY : option num) (raw : str) (rest : list str) :
  parserFields raw = Some (None, None, None) ->
  parseLines emit lastX lastY (raw :: rest) =
  match lastX, lastY with
  | Some x, Some y => emit x y :: parseLines emit lastX lastY rest
  | _, _ => parseLines emit lastX lastY rest
  end.
Proof.
  unfold parserFields. cbn [parseLines].
  destruct (isEmpty (cleanLine raw)); [discriminate|].
  destruct (negb (looksLikeMotion (cleanLine raw))); [discriminate|].
  unfold updateField.
  destruct (matchField chX (cleanLine raw)); [discriminate|].
  destruct (matchField chY (cleanLine raw)); [discriminate|].
  reflexivity.
Qed.

(** A motion line with X and Y gives a sample of its own. *)
Lemma parseLines_move (lastX lastY : option num) (raw : str) (rest : list str)
    (x y : num) :
  parserFields raw = Some (Some x, Some y, None) ->
  parseLines emit lastX lastY (raw :: rest) =
  emit x y :: parseLines emit (Some x) (Some y) rest.
Proof.
  unfold parserFields. cbn [parseLines].
  destruct (isEmpty (cleanLine raw)); [discriminate|].
  destruct (negb (looksLikeMotion (cleanLine raw))); [discriminate|].
  unfold updateField.
  destruct (matchField chX (cleanLine raw)); [|discriminate].
  destruct (matchField chY (cleanLine raw)); [|discriminate].
  cbn [option_map]. intro H. injection H as <- <-. reflexivity.
Qed.

End ParserSteps.

(* ----------------------------------------------------------------- *)
(** ** The positional program, read back *)

Lemma parserFields_move (g : str) (a b : xnum) (rest : str) :
  g = lit "G0 " \/ g = lit "G1 " ->
  printable a -> printable b ->
  rest = [] \/ (exists f, rest = lit " F" ++ f /\ printedNumber f) ->
  parserFields (g ++ "X"%char :: formatNum a ++ lit " Y" ++ formatNum b ++ rest)
  = Some (Some (parseFloat (formatNum a)), Some (parseFloat (formatNum b)), None).
Proof.
  intros Hg Ha Hb Hrest.
  destruct a as [qa| | |]; try contradiction.
  destruct b as [qb| | |]; try contradiction.
  exact (parserFields_xy g qa qb rest Hg Ha Hb Hrest).
Qed.

Ltac one_line :=
  repeat rewrite oneLine_app;
  repeat match goal with
         | H : printedNumber ?f |- context [oneLine ?f] =>
             rewrite (printedNumber_oneLine f H)
         end;
  reflexivity.

Lemma unitName_oneLine (u : Unit) : oneLine (unitName u) = true.
Proof. destruct u; reflexivity. Qed.

Lemma last_map_default {A B : Type} (f : A -> B) (l : list A) :
  forall d : A, last (map f l) (f d) = f (last l d).
Proof.
  induction l as [|a l IH]; intro d; [reflexivity|].
  cbn [map]. rewrite !last_cons_default. apply IH.
Qed.

(** Either copy: [flipY] tells the generator, [emit] the parser. *)
Section ReadBack.

Variable cfg : MachineSettings xnum.
Variable flipY : bool.
Variable emit : xnum -> xnum -> Point xnum.
Hypothesis Hsafe : printable (safeHeight cfg).
Hypothesis Hdepth : printable (cutDepth cfg).
Hypothesis Hfeed : printable (feedRate cfg).
Hypothesis Hrapid : printable (rapidRate cfg).

(** The cutting moves give one sample each. *)
Lemma parseLines_cuts (rest : list (Point xnum)) :
  forall (p0 : Point xnum) (tail : list str),
    Forall (printableAs flipY cfg) rest ->
    parseLines emit (Some (readX cfg p0)) (Some (readY flipY cfg p0))
      (map (cutLine flipY cfg) rest ++ tail) =
    map (readBack cfg flipY emit) rest
    ++ parseLines emit (Some (readX cfg (last rest p0)))
         (Some (readY flipY cfg (last rest p0))) tail.
Proof.
  induction rest as [|p rest IH]; intros p0 tail H; [reflexivity|].
  inversion H as [|? ? [Hx Hy] Hrest]; subst.
  cbn [map app].
  rewrite (parseLines_move emit _ _ _ _ (readX cfg p) (readY flipY cfg p)).
  - rewrite (IH p tail Hrest).
    rewrite (last_cons_default rest p p0). reflexivity.
  - apply (parserFields_move (lit "G1 ") _ _ (lit " F" ++ formatNum (feedRate cfg)));
      [right; reflexivity | exact Hx | exact Hy |].
    right. exists (formatNum (feedRate cfg)).
    split; [reflexivity | apply formatNum_printed, Hfeed].
Qed.

Lemma cutLine_oneLine (p : Point xnum) :
  printableAs flipY cfg p -> oneLine (cutLine flipY cfg p) = true.
Proof.
  intros [Hx Hy]. unfold cutLine. cbv beta zeta.
  pose proof (formatNum_printed _ Hx). pose proof (formatNum_printed _ Hy).
  pose proof (formatNum_printed _ Hfeed). one_line.
Qed.

Lemma pathLines_oneLine (poly : list (Point xnum)) :
  Forall (printableAs flipY cfg) poly ->
  forallb oneLine (pathLines flipY cfg poly) = true.
Proof.
  intro H. destruct poly as [|p0 rest]; [reflexivity|].
  inversion H as [|? ? [Hx Hy] Hrest]; subst.
  pose proof (formatNum_printed _ Hx). pose proof (formatNum_printed _ Hy).
  pose proof (formatNum_printed _ Hfeed). pose proof (formatNum_printed _ Hsafe).
  pose proof (formatNum_printed _ Hdepth).
  unfold pathLines. cbv beta zeta. rewrite !forallb_app.
  apply andb_true_iff. split; [|apply andb_true_iff; split].
  - cbn [forallb]. rewrite !andb_true_iff. repeat split; one_line.
  - apply forallb_forall. intros l Hl. apply in_map_iff in Hl as (p & <- & Hp).
    apply cutLine_oneLine. rewrite Forall_forall in Hrest. exact (Hrest p Hp).
  - cbn [forallb]. rewrite andb_true_r. one_line.
Qed.

Lemma headerLines_oneLine (now : str) :
  oneLine now = true ->
  forallb oneLine (headerLines (lit "; TangentCNC G-code") now cfg) = true.
Proof.
  intro Hnow. cbn [headerLines forallb]. rewrite !oneLine_app, Hnow.
  rewrite unitName_oneLine.
  change (toStr (scaleFactor cfg)) with (xtoStr (scaleFactor cfg)).
  rewrite xtoStr_oneLine. reflexivity.
Qed.

Lemma modeLines_oneLine : forallb oneLine (modeLines cfg) = true.
Proof.
  pose proof (formatNum_printed _ Hrapid) as Hr.
  cbn [modeLines forallb]. rewrite !oneLine_app, (printedNumber_oneLine _ Hr).
  destruct (unit_ cfg); reflexivity.
Qed.

(** Reading a generated program back: the samples that the generator
    printed, the first one once more in front and the last one once more
    at the end. *)
Lemma parseLines_program (now : str) (poly : list (Point xnum)) :
  oneLine now = true -> Forall (printableAs flipY cfg) poly ->
  parseLines emit None None (splitLines (gcodeOfPolyline flipY now cfg poly))
  = framed (map (readBack cfg flipY emit) poly).
Proof.
  intros Hnow Hpoly.
  pose proof (formatNum_printed _ Hsafe) as Psafe.
  pose proof (formatNum_printed _ Hdepth) as Pdepth.
  pose proof (formatNum_printed _ Hfeed) as Pfeed.
  pose proof (formatNum_printed _ Hrapid) as Prapid.
  unfold gcodeOfPolyline.
  rewrite splitLines_join.
  2:{ cbn [headerLines app]. discriminate. }
  2:{ rewrite !forallb_app, (headerLines_oneLine now Hnow), modeLines_oneLine,
        (pathLines_oneLine poly Hpoly). reflexivity. }
  assert (H1 : parserFields (NT := ExactText) (lit "; TangentCNC G-code") = None)
    by reflexivity.
  assert (H2 : parserFields (NT := ExactText) (lit "; Generated: " ++ now) = None).
  { apply (parserFields_comment (lit " Generated: " ++ now)).
    rewrite oneLine_app, Hnow. reflexivity. }
  assert (H3 : parserFields (NT := ExactText)
                 (lit "; Units: " ++ unitName (unit_ cfg)) = None)
    by (destruct (unit_ cfg); reflexivity).
  assert (H4 : parserFields (NT := ExactText)
                 (lit "; Scale: " ++ toStr (scaleFactor cfg)
                  ++ lit " (canvas pixels to " ++ unitName (unit_ cfg) ++ lit ")")
               = None).
  { apply (parserFields_comment
             (lit " Scale: " ++ toStr (scaleFactor cfg)
              ++ lit " (canvas pixels to " ++ unitName (unit_ cfg) ++ lit ")")).
    rewrite !oneLine_app, unitName_oneLine.
    change (toStr (scaleFactor cfg)) with (xtoStr (scaleFactor cfg)).
    rewrite xtoStr_oneLine. reflexivity. }
  assert (M1 : parserFields (NT := ExactText) (lit "G90    ; Absolute positioning")
               = Some (None, None, None)) by reflexivity.
  assert (M2 : parserFields (NT := ExactText)
                 (unitCode (unit_ cfg) ++ lit "   ; Unit: " ++ unitName (unit_ cfg))
               = Some (None, None, None))
    by (destruct (unit_ cfg); reflexivity).
  assert (M3 : parserFields (NT := ExactText) (lit "G17    ; XY plane")
               = Some (None, None, None)) by reflexivity.
  assert (M4 : parserFields (NT := ExactText)
                 (lit "F" ++ formatNum (rapidRate cfg) ++ lit " ; Rapid feed rate")
               = None).
  { apply parserFields_feed; [exact Prapid|].
    right. exists (lit " Rapid feed rate"). split; reflexivity. }
  assert (E : parserFields (NT := ExactText) (lit "M2     ; Program end") = None)
    by reflexivity.
  cbn [headerLines modeLines app].
  rewrite (parseLines_skip emit _ _ _ _ H1), (parseLines_skip emit _ _ _ _ H2),
    (parseLines_skip emit _ _ _ _ H3), (parseLines_skip emit _ _ _ _ H4),
    (parseLines_repeat emit _ _ _ _ M1), (parseLines_repeat emit _ _ _ _ M2),
    (parseLines_repeat emit _ _ _ _ M3), (parseLines_skip emit _ _ _ _ M4).
  destruct poly as [|p0 rest].
  - cbn [pathLines app]. rewrite (parseLines_skip emit _ _ _ _ E). reflexivity.
  - inversion Hpoly as [|? ? [Hx Hy] Hrest]; subst.
    assert (Z1 : parserFields (NT := ExactText)
                   (lit "G0 Z" ++ formatNum (safeHeight cfg) ++ lit " ; Safe height")
                 = Some (None, None, None)).
    { apply parserFields_z; [left; reflexivity | exact Psafe |].
      right. exists (lit " Safe height"). split; reflexivity. }
    assert (Z2 : parserFields (NT := ExactText)
                   (lit "G0 Z" ++ formatNum (safeHeight cfg) ++ lit " ; Retract")
                 = Some (None, None, None)).
    { apply parserFields_z; [left; reflexivity | exact Psafe |].
      right. exists (lit " Retract"). split; reflexivity. }
    assert (Z3 : parserFields (NT := ExactText)
                   (lit "G1 Z" ++ formatNum (cutDepth cfg) ++ lit " F"
                    ++ formatNum (feedRate cfg) ++ lit " ; Plunge to cut depth")
                 = Some (None, None, None)).
    { apply parserFields_plunge; [exact Pdepth | exact Pfeed |].
      right. exists (lit " Plunge to cut depth"). split; reflexivity. }
    assert (S0 : parserFields (NT := ExactText)
                   (lit "G0 X" ++ formatNum (px p0 * scaleFactor cfg)%js ++ lit " Y"
                    ++ formatNum ((if flipY then - py p0 else py p0)
                                  * scaleFactor cfg)%js)
                 = Some (Some (readX cfg p0), Some (readY flipY cfg p0), None)).
    { pose proof (parserFields_move (lit "G0 ") _ _ []
                    (or_introl eq_refl) Hx Hy (or_introl eq_refl)) as S0.
      rewrite app_nil_r in S0. exact S0. }
    cbn [pathLines app]. cbv beta zeta. rewrite <- app_assoc. cbn [app].
    rewrite (parseLines_repeat emit _ _ _ _ Z1).
    rewrite (parseLines_move emit _ _ _ _ _ _ S0).
    rewrite (parseLines_repeat emit _ _ _ _ Z3).
    rewrite (parseLines_cuts rest p0 _ Hrest).
    rewrite (parseLines_repeat emit _ _ _ _ Z2).
    rewrite (parseLines_skip emit _ _ _ _ E).
    cbn [parseLines]. fold (readBack cfg flipY emit p0). fold (readBack cfg flipY emit (last rest p0)).
    unfold framed. cbn [map app].
    rewrite last_cons_default, last_map_default. reflexivity.
Qed.

End ReadBack.

Local Open Scope Q_scope.

(* ----------------------------------------------------------------- *)
(** ** The precision of the round trip *)

Lemma xinf_not_printable (q : Q) : ~ printable (xinf q).
Proof.
  unfold xinf. destruct (Qeq_bool q 0); [|destruct (Qle_bool 0 q)]; exact (fun H => H).
Qed.

(** A product with the scale that is printable has a finite factor. *)
Lemma printable_scaled (a : xnum) (s : Q) :
  printable (xmul a (Fin s)) ->
  exists x : Q, a = Fin x /\ Qabs (x * s) < inject_Z (10 ^ 21).
Proof.
  destruct a as [x| | |]; cbn [xmul].
  - intro H. exists x. split; [reflexivity|exact H].
  - intro H. exfalso. exact (xinf_not_printable _ H).
  - intro H. exfalso. exact (xinf_not_printable _ H).
  - intros [].
Qed.

Lemma scaled_error (e d s : Q) :
  ~ s == 0 -> d == e / s -> Qabs e <= 1 # 2000 ->
  Qabs d <= (1 # 2000) / Qabs s.
Proof.
  intros Hs Hd He. rewrite Hd. unfold Qdiv.
  rewrite Qabs_Qmult, Qabs_Qinv.
  apply Qmult_le_compat_r; [exact He|].
  apply Qinv_le_0_compat, Qabs_nonneg.
Qed.

Lemma xdiv_nonzero (v s : Q) : ~ s == 0 -> xdiv (Fin v) (Fin s) = Fin (v / s).
Proof.
  intro Hs. cbn [xdiv]. destruct (Qeq_bool s 0) eqn:E; [|reflexivity].
  apply Qeq_bool_iff in E. contradiction.
Qed.

Lemma guardedScale_nonzero (cfg : MachineSettings xnum) (s : Q) :
  scaleFactor cfg = Fin s -> ~ s == 0 -> guardedScale cfg = scaleFactor cfg.
Proof.
  intros Hscale Hs. unfold guardedScale. rewrite Hscale. cbn [truthy Exact xtruthy].
  destruct (Qeq_bool s 0) eqn:E; [|reflexivity].
  apply Qeq_bool_iff in E. contradiction.
Qed.

(** A sample comes back within half a thousandth of a machine unit,
    that is within 0.0005 / |scale| on the canvas. *)
Lemma parsedPoint_near (cfg : MachineSettings xnum) (s : Q) (p : Point xnum) :
  scaleFactor cfg = Fin s -> ~ s == 0 -> printablePoint cfg p ->
  near ((1 # 2000) / Qabs s) p (parsedPoint cfg p).
Proof.
  intros Hscale Hs [Hx Hy]. unfold parsedPoint. rewrite Hscale in *.
  destruct p as [a b]. cbn [px py] in *.
  cbn [mul neg div Exact] in *.
  destruct (printable_scaled a s Hx) as (x & -> & Hqx).
  destruct (printable_scaled (xneg b) s Hy) as (y' & Eb & Hqy).
  destruct b as [y| | |]; try discriminate.
  cbn [xneg] in Eb. injection Eb as <-.
  cbn [xmul xneg formatNum toFixed3 parseFloat ExactText xtoFixed3].
  destruct (parse_toFixed3Q (x * s) Hqx) as (vx & -> & Hvx).
  destruct (parse_toFixed3Q (- y * s) Hqy) as (vy & -> & Hvy).
  cbn [xneg]. rewrite !xdiv_nonzero by exact Hs.
  unfold near. cbn [px py finite toQ].
  pose proof (round3_near (x * s)) as Hrx. rewrite <- Hvx in Hrx.
  pose proof (round3_near (- y * s)) as Hry. rewrite <- Hvy in Hry.
  split; [exact I|]. split; [exact I|]. split.
  - apply (scaled_error (vx - x * s)); [exact Hs | field; exact Hs | exact Hrx].
  - apply (scaled_error (- (vy - - y * s))); [exact Hs | field; exact Hs |].
    rewrite Qabs_opp. exact Hry.
Qed.

(** In the second copy a sample comes back as its machine coordinates,
    within half a thousandth. *)
Lemma parsedPoint2_near (cfg : MachineSettings xnum) (s : Q) (p : Point xnum) :
  scaleFactor cfg = Fin s -> printableAs false cfg p ->
  nearScaled (1 # 2000) s p (parsedPoint2 cfg p).
Proof.
  intros Hscale [Hx Hy]. unfold parsedPoint2, readX, readY. rewrite Hscale in *.
  destruct p as [a b]. cbn [px py] in *.
  cbn [mul Exact] in *.
  destruct (printable_scaled a s Hx) as (x & -> & Hqx).
  destruct (printable_scaled b s Hy) as (y & -> & Hqy).
  cbn [xmul formatNum toFixed3 parseFloat ExactText xtoFixed3].
  destruct (parse_toFixed3Q (x * s) Hqx) as (vx & -> & Hvx).
  destruct (parse_toFixed3Q (y * s) Hqy) as (vy & -> & Hvy).
  unfold nearScaled. cbn [px py finite toQ].
  pose proof (round3_near (x * s)) as Hrx. rewrite <- Hvx in Hrx.
  pose proof (round3_near (y * s)) as Hry. rewrite <- Hvy in Hry.
  repeat split; assumption.
Qed.







(* ----------------------------------------------------------------- *)
(** ** The two oriented generators *)

(** The two oriented generators disagree (claim C2) on the stroke from
    (0, 0) straight down to (0, 100) at the default settings and
    resolution 2.  Working from the points,
    the generator writes the heading -90 on the start move and on both
    cutting moves.  Working from the positional program of the same
    stroke, it writes 0 on the start move (the move it takes for the
    next one is the plunge line's repeat of the start position), 90 on
    the cutting moves (the Y of the program points up already and
    [angleDeg] flips it once more), and gives a heading 0 to the plunge
    and retract lines, which have none in the other program. *)
Theorem oriented_generators_disagree :
  exists base fromBase fromPoints : str,
    generateGCodeString 5 sampleDate defaultSettings downStroke (Fin 2)
      = Some base
    /\ generateOrientedGCodeFromBase hypotUp atan2Compass piApprox
         defaultSettings 5 base = Some fromBase
    /\ generateOrientedGCodeFromPoints atan2Compass piApprox 5 sampleDate
         defaultSettings downStroke (Fin 2) = Some fromPoints
    /\ headingLines fromBase =
         [ lit "G0 X0.000 Y0.000 C0.000 ; ORI=0.000deg";
           lit "G1 Z-1.000 C0.000 F300.000 ; ORI=0.000deg  Plunge to cut depth";
           lit "G1 X0.000 Y-5.000 C90.000 F300.000 ; ORI=90.000deg";
           lit "G1 X0.000 Y-10.000 C90.000 F300.000 ; ORI=90.000deg";
           lit "G0 Z5.000 C0.000 ; ORI=0.000deg  Retract" ]
    /\ headingLines fromPoints =
         [ lit "G0 X0.000 Y0.000 C-90.000 ; ORI=-90.000deg";
           lit "G1 X0.000 Y-5.000 C-90.000 F300.000 ; ORI=-90.000deg";
           lit "G1 X0.000 Y-10.000 C-90.000 F300.000 ; ORI=-90.000deg" ].
Proof.
  eexists. eexists. eexists.
  split; [reflexivity|]. split; [vm_compute; reflexivity|].
  split; [vm_compute; reflexivity|].
  split; vm_compute; reflexivity.
Qed.

(* ----------------------------------------------------------------- *)
(** ** The ends of the sampled polyline *)

(** The first sample is the first control point, on every number
    system. *)
Theorem sampler_starts_at_first :
  forall (num : Type) (JN : JSNumber num) (fuel : nat) (first : Point num)
         (others : list (Point num)) (curveResolution : num)
         (poly : list (Point num)),
    samplePolylinePoints fuel (first :: others) curveResolution = Some poly ->
    exists rest : list (Point num),
      poly = mkPoint (px first) (py first) :: rest.
Proof.
  intros num JN fuel first others r poly H.
  unfold samplePolylinePoints in H.
  destruct others as [|p2 more].
  - injection H as <-. exists []. reflexivity.
  - destruct more as [|p3 more'].
    + destruct (sweep _ _ _ _) as [ps|]; [|discriminate].
      injection H as <-. exists ps. reflexivity.
    + destruct (sampleSegments _ _ _ _) as [ps|]; [|discriminate].
      injection H as <-. exists ps. reflexivity.
Qed.

Lemma sampler_starts_at_first_witness :
  exists rest : list (Point xnum),
    slantedPolyline = mkPoint (Fin 0) (Fin 0) :: rest.
Proof.
  exact (sampler_starts_at_first xnum Exact 5 (mkPoint (Fin 0) (Fin 0))
           [mkPoint (Fin 30) (Fin 40)] (Fin 2) slantedPolyline eq_refl).
Defined.

(** On binary64 the sampler misses the last control point (claim C3).
    Between (0, 0) and (100, 0) at the
    default resolution 100 the sampler returns 101 samples that start at
    (0, 0) and end beyond (100, 0): the parameter has grown to
    1.0000000000000007 by a hundred additions of 0.01, and the branch
    for two points does not clamp it.  Through (0, 0), (100, 0),
    (100, 100) at resolution 10 the last parameter stops short of 1, the
    clamp of the spline branch does nothing, and the last sample is not
    (100, 100). *)
Theorem sampler_misses_last_point :
  exists line spline : list (Point float),
    samplePolylinePoints 200 rightStroke64 100%float = Some line
    /\ List.length line = 101%nat
    /\ hd origin line = mkPoint 0%float 0%float
    /\ py (last line origin) = 0%float
    /\ PrimFloat.ltb 100%float (px (last line origin)) = true
    /\ samplePolylinePoints 200 cornerStroke64 10%float = Some spline
    /\ List.length spline = 21%nat
    /\ py (last spline origin) = 100%float
    /\ PrimFloat.ltb 100%float (px (last spline origin)) = true.
Proof.
  eexists. eexists.
  split; [vm_compute; reflexivity|].
  split; [vm_compute; reflexivity|].
  split; [vm_compute; reflexivity|].
  split; [vm_compute; reflexivity|].
  split; [vm_compute; reflexivity|].
  split; [vm_compute; reflexivity|].
  split; [vm_compute; reflexivity|].
  split; vm_compute; reflexivity.
Qed.

(* ----------------------------------------------------------------- *)
(** ** The end of the playback path on binary64 *)

(** On binary64 a long path absorbs a short last segment (claim C9):
    the path of [longPath64] has two segments that
    both end at the running length 2e10 (2e10 + 1.1e-6 rounds to 2e10),
    and the query at the total length stops in the first of them: it
    returns the point (2e10, 0) with the heading 0, while the final
    segment ends at (2e10, 1.1e-6) with the heading 90. *)
Lemma distToPoint_lands_early :
  exists (pv : Preview float) (first final : Segment float) (p : Position float),
    previewOfMoves hypot64 5 longPath64 = Some pv
    /\ segments pv = [first; final]
    /\ cumEnd first = totalLength pv /\ cumEnd final = totalLength pv
    /\ distToPoint hypot64 pv (totalLength pv) = Some p
    /\ pos_angle p = Some 0%float /\ angle final = Some 90%float
    /\ pos_y p = 0%float /\ PrimFloat.ltb 0%float (y2 final) = true.
Proof.
  eexists. eexists. eexists. eexists.
  split; [vm_compute; reflexivity|].
  split; [reflexivity|].
  repeat split; vm_compute; reflexivity.
Qed.

(* ----------------------------------------------------------------- *)
(** ** The playback path on every number system, from a program *)

(** On every number system (binary64 among them), whatever [Math.hypot]
    returns: each segment that [buildPreviewFromGCode] stores (either
    copy) has [cumEnd = cumStart + len] and a length that is not
    [<= 1e-6]; the first one starts at 0, each next one starts where the
    one before ends, and [totalLength] is the sum of the lengths, added
    from the left. *)
Theorem preview_partition_structure :
  forall (num : Type) (JN : JSNumber num) (NT : NumText num)
         (hypot : num -> num -> num) (fuel : nat)
         (cfg : MachineSettings num) (text : str) (pv : Preview num),
    buildPreviewFromGCode hypot fuel cfg text = Some pv
    \/ buildPreviewFromGCode2 hypot fuel cfg text = Some pv ->
    Forall (fun s => cumEnd s = (cumStart s + len s)%js
                     /\ (len s <=? ofDec 1 6)%js = false) (segments pv)
    /\ (forall s, nth_error (segments pv) 0 = Some s -> cumStart s = ofZ 0)
    /\ contiguous (segments pv)
    /\ (forall first others, segments pv = first :: others ->
          totalLength pv = cumEnd (last others first))
    /\ totalLength pv = fold_left add (map (@len num) (segments pv)) (ofZ 0).
Proof.
  intros num JN NT hypot fuel cfg text pv Hbuilt.
  assert (Hpart : partitionFrom (ofZ 0) (segments pv) (totalLength pv)).
  { assert (Hof : forall moves, previewOfMoves hypot fuel moves = Some pv ->
                    partitionFrom (ofZ 0) (segments pv) (totalLength pv)).
    { intros moves H. unfold previewOfMoves in H. destruct moves as [|a rest].
      - injection H as <-. reflexivity.
      - destruct (buildSegments hypot fuel (ofZ 0) a rest) as [[segs total]|] eqn:Hb;
          [|discriminate].
        injection H as <-. cbn [segments totalLength].
        exact (buildSegments_partition hypot fuel rest _ _ _ _ Hb). }
    destruct Hbuilt as [H|H]; exact (Hof _ H). }
  split; [|split; [|split; [|split]]].
  - exact (partitionFrom_each (segments pv) _ _ Hpart).
  - intros s Hs0. exact (partitionFrom_head (segments pv) _ _ s Hpart Hs0).
  - exact (partitionFrom_contiguous (segments pv) _ _ Hpart).
  - intros first others E. rewrite E in Hpart.
    exact (partitionFrom_last others _ _ first Hpart).
  - exact (partitionFrom_total (segments pv) _ _ Hpart).
Qed.

Lemma preview_partition_structure_witness :
  exists pv : Preview xnum,
    buildPreviewFromGCode hypotUp 5 defaultSettings sampleProgram = Some pv
    /\ List.length (segments pv) = 2%nat
    /\ Forall (fun s => cumEnd s = (cumStart s + len s)%js
                        /\ (len s <=? ofDec 1 6)%js = false) (segments pv)
    /\ (forall s, nth_error (segments pv) 0 = Some s -> cumStart s = ofZ 0)
    /\ contiguous (segments pv)
    /\ (forall first others, segments pv = first :: others ->
          totalLength pv = cumEnd (last others first))
    /\ totalLength pv = fold_left add (map (@len xnum) (segments pv)) (ofZ 0).
Proof.
  eexists. split; [vm_compute; reflexivity|]. split; [reflexivity|].
  apply (preview_partition_structure xnum Exact ExactText hypotUp 5
           defaultSettings sampleProgram).
  left. vm_compute. reflexivity.
Defined.

(** On every number system: [distToPoint] returns null exactly on an
    empty segment list; and when no segment has [d <= cumEnd] it returns
    the end point and the heading of the last segment as stored. *)
Theorem distToPoint_defined :
  forall (num : Type) (JN : JSNumber num) (hypot : num -> num -> num)
         (pv : Preview num) (d : num),
    match segments pv with
    | [] => distToPoint hypot pv d = None
    | first :: others =>
        exists p : Position num,
          distToPoint hypot pv d = Some p
          /\ (Forall (fun s => (d <=? cumEnd s)%js = false) (segments pv) ->
              pos_x p = x2 (last others first)
              /\ pos_y p = y2 (last others first)
              /\ pos_angle p = angle (last others first))
    end.
Proof.
  intros num JN hypot pv d. unfold distToPoint.
  destruct (segments pv) as [|first others] eqn:E; [reflexivity|].
  destruct (findSegment hypot d (first :: others)) as [p|] eqn:F.
  - exists p. split; [reflexivity|]. intro H.
    rewrite (findSegment_beyond hypot d _ H) in F. discriminate.
  - eexists. split; [reflexivity|]. intros _. repeat split.
Qed.

(* ----------------------------------------------------------------- *)
(** ** Positions along the playback path, on exact numbers *)

Section OnPath.

Variable hypot : xnum -> xnum -> xnum.

Local Open Scope Q_scope.

(** A distance within the running lengths of a partition falls in one
    of its segments, and the loop of [distToPoint] returns the point of
    that segment at the matching fraction. *)
Lemma findSegment_within (segs : list (Segment xnum)) :
  forall (cum total : xnum) (d : Q),
    partitionFrom cum segs total -> Forall properSegment segs ->
    finite cum -> segs <> [] ->
    toQ cum <= d <= toQ total ->
    exists (s : Segment xnum) (p : Position xnum) (t : Q),
      In s segs
      /\ findSegment hypot (Fin d) segs = Some p
      /\ toQ (cumStart s) <= d <= toQ (cumEnd s)
      /\ t == (d - toQ (cumStart s)) / toQ (len s)
      /\ 0 <= t <= 1
      /\ finite (pos_x p) /\ finite (pos_y p)
      /\ toQ (pos_x p) == toQ (x1 s) + (toQ (x2 s) - toQ (x1 s)) * t
      /\ toQ (pos_y p) == toQ (y1 s) + (toQ (y2 s) - toQ (y1 s)) * t
      /\ pos_angle p = angle s.
Proof.
  induction segs as [|s rest IH]; intros cum total d H Hp Hc Hne Hd;
    [congruence|].
  destruct H as (Hs & He & _ & Hrest).
  inversion Hp as [|s' rest' Hps Hprest]; subst.
  destruct (partition_grows rest _ _ Hrest Hprest) as [Hle Hlt].
  destruct (properSegment_inv s Hps)
    as (a1 & b1 & a2 & b2 & l & cs & ce & ang & ad & -> & Hl & Hcs).
  cbn [cumStart cumEnd len x1 x2 y1 y2 angle toQ] in *.
  cbn [add Exact xadd] in He. injection He as He.
  destruct (Qlt_le_dec ce d) as [Hpast|Hin].
  - destruct rest as [|s2 rest2].
    { cbn [partitionFrom] in Hrest. subst total. cbn [toQ] in Hd. lra. }
    destruct (IH (Fin ce) total d Hrest Hprest I ltac:(discriminate))
      as (s & p & t & Hin & Hfind & Hrange & Ht & Ht01 & Hfx & Hfy & Hx & Hy & Ha).
    { cbn [toQ]. lra. }
    exists s, p, t. split; [right; exact Hin|].
    split; [|repeat split; try assumption; try apply Hrange; try apply Ht01].
    cbn [findSegment cumEnd]. cbn [leb Exact xleb].
    replace (Qle_bool d ce) with false by (symmetry; apply Qle_bool_false; exact Hpast).
    exact Hfind.
  - exists (mkSegment (Fin a1) (Fin b1) (Fin a2) (Fin b2) (Fin l) (Fin cs) (Fin ce)
              ang ad).
    cbn [findSegment cumEnd cumStart len x1 x2 y1 y2].
    cbn [leb ltb sub div mul add Exact xleb xltb xsub xadd xneg xdiv xmul ofZ].
    replace (Qle_bool d ce) with true by (symmetry; apply Qle_bool_iff; exact Hin).
    replace (Qltb (inject_Z 0) l) with true
      by (symmetry; apply Qltb_true; change (inject_Z 0) with 0; lra).
    replace (Qeq_bool l 0) with false.
    2:{ symmetry. apply not_true_iff_false. intro E. apply Qeq_bool_iff in E. lra. }
    eexists. exists ((d - cs) / l).
    split; [left; reflexivity|]. split; [reflexivity|].
    unfold positionOn. cbn [pos_x pos_y pos_angle angle toQ finite].
    assert (Hsub : d + - cs == d - cs) by ring.
    assert (He' : cs + l == ce) by (rewrite He; reflexivity).
    split; [split; [exact (proj1 Hd) | exact Hin]|]. split; [reflexivity|]. split.
    { split.
      - apply Qle_shift_div_l; lra.
      - apply Qle_shift_div_r; lra. }
    split; [exact I|]. split; [exact I|].
    split; [|split]; [| |reflexivity].
    + rewrite Hsub. ring.
    + rewrite Hsub. ring.
Qed.

End OnPath.



Local Open Scope Q_scope.

(* ----------------------------------------------------------------- *)
(** ** The spline and the sampler on exact numbers *)

Lemma finitePoint_inv (p : Point xnum) :
  finitePoint p -> exists x y : Q, p = mkPoint (Fin x) (Fin y).
Proof.
  destruct p as [[x| | |] [y| | |]]; intros [Hx Hy]; try contradiction.
  exists x, y. reflexivity.
Qed.

Lemma catmullRomSpline_finite (p0 p1 p2 p3 : Point xnum) (t : Q) :
  finitePoint p0 -> finitePoint p1 -> finitePoint p2 -> finitePoint p3 ->
  finitePoint (catmullRomSpline p0 p1 p2 p3 (Fin t)).
Proof.
  intros H0 H1 H2 H3.
  destruct (finitePoint_inv _ H0) as (x0 & y0 & ->).
  destruct (finitePoint_inv _ H1) as (x1 & y1 & ->).
  destruct (finitePoint_inv _ H2) as (x2 & y2 & ->).
  destruct (finitePoint_inv _ H3) as (x3 & y3 & ->).
  split; exact I.
Qed.

Lemma half_value : xdec 5 1 = Fin (5 # 10).
Proof. reflexivity. Qed.

(** The spline at a parameter that is numerically 0 or 1. *)
Lemma catmullRomSpline_at (p0 p1 p2 p3 : Point xnum) (t : Q) :
  finitePoint p0 -> finitePoint p1 -> finitePoint p2 -> finitePoint p3 ->
  (t == 0 -> samePoint (catmullRomSpline p0 p1 p2 p3 (Fin t)) p1)
  /\ (t == 1 -> samePoint (catmullRomSpline p0 p1 p2 p3 (Fin t)) p2).
Proof.
  intros H0 H1 H2 H3.
  destruct (finitePoint_inv _ H0) as (x0 & y0 & ->).
  destruct (finitePoint_inv _ H1) as (x1 & y1 & ->).
  destruct (finitePoint_inv _ H2) as (x2 & y2 & ->).
  destruct (finitePoint_inv _ H3) as (x3 & y3 & ->).
  unfold catmullRomSpline, samePoint. cbn [px py].
  cbn [mul add sub neg ofZ ofDec Exact xmul xadd xsub xneg].
  rewrite half_value. cbn [xmul xeq].
  change (inject_Z 2) with 2. change (inject_Z 3) with 3.
  change (inject_Z 4) with 4. change (inject_Z 5) with 5.
  split; intro Ht; rewrite Ht; split; ring.
Qed.



Lemma last_nonempty {A : Type} (a : A) (l : list A) (d : A) :
  l <> [] -> last (a :: l) d = last l d.
Proof. destruct l; [congruence|reflexivity]. Qed.

Lemma last_app_nonempty {A : Type} (l1 l2 : list A) (d : A) :
  l2 <> [] -> last (l1 ++ l2) d = last l2 d.
Proof.
  intro H. induction l1 as [|a l1 IH]; [reflexivity|].
  cbn [app]. rewrite last_nonempty; [exact IH|].
  destruct l1; [exact H | discriminate].
Qed.

Lemma nth_last_default {A : Type} (l : list A) (d : A) :
  nth (List.length l - 1) l d = last l d.
Proof.
  induction l as [|a l IH]; [reflexivity|].
  destruct l as [|b l]; [reflexivity|].
  replace (List.length (a :: b :: l) - 1)%nat
    with (S (List.length (b :: l) - 1)) by (cbn [List.length]; lia).
  change (nth (S (List.length (b :: l) - 1)) (a :: b :: l) d)
    with (nth (List.length (b :: l) - 1) (b :: l) d).
  rewrite IH. reflexivity.
Qed.

Lemma last_seq (k : nat) : last (seq 0 (S k)) 0%nat = k.
Proof. rewrite seq_S. rewrite last_last. reflexivity. Qed.

Lemma pointAt_finite (points : list (Point xnum)) (i : nat) :
  Forall finitePoint points -> finitePoint (pointAt points i).
Proof.
  intro H. unfold pointAt. revert i.
  induction H as [|p l Hp _ IH]; intros [|i]; cbn [nth]; try (split; exact I); auto.
Qed.

(** The sampler at a whole resolution [n] from 1 to below 1e9. *)
Section WholeResolution.

Variable n : Z.
Hypothesis n_range : (1 <= n < 10 ^ 9)%Z.

(** The step of the parameter, [1 / n]. *)
Variable s : Q.
Hypothesis s_def : s = inject_Z 1 / inject_Z n.

Lemma resolution_positive : 0 < inject_Z n.
Proof. change 0 with (inject_Z 0). rewrite <- Zlt_Qlt. lia. Qed.

Lemma step_value : (ofZ 1 / Fin (inject_Z n))%js = Fin s.
Proof.
  rewrite s_def. cbn [div ofZ Exact xdiv].
  destruct (Qeq_bool (inject_Z n) 0) eqn:E; [|reflexivity].
  apply Qeq_bool_iff in E. pose proof resolution_positive. lra.
Qed.

Lemma step_times : s * inject_Z n == 1.
Proof.
  rewrite s_def. change (inject_Z 1) with 1. field.
  pose proof resolution_positive. lra.
Qed.

Lemma step_positive : (1 # 1000000000) < s.
Proof.
  rewrite s_def. change (inject_Z 1) with 1. apply Qlt_shift_div_l.
  - exact resolution_positive.
  - assert (inject_Z n < 1000000000).
    { change 1000000000 with (inject_Z (10 ^ 9)). rewrite <- Zlt_Qlt. lia. }
    lra.
Qed.

Lemma limit_value : (ofZ 1 + ofDec 1 9)%js = Fin (1 + (1 # 1000000000)).
Proof. reflexivity. Qed.

(** The loop over [t]: [j] samples are left when [t] stands at
    [(n - j + 1) / n], the last of them at a parameter that is
    numerically 1. *)
Lemma sweep_exact (f : xnum -> Point xnum) (P : Point xnum -> Prop) :
  (forall t : Q, P (f (Fin t))) ->
  forall (j : nat) (t : Q) (fuel : nat),
    (Z.of_nat j <= n)%Z ->
    t == inject_Z (n - Z.of_nat j + 1) * s ->
    (j < fuel)%nat ->
    exists l : list (Point xnum),
      sweep fuel (Fin s) f (Fin t) = Some l
      /\ List.length l = j
      /\ Forall P l
      /\ (j <> 0%nat ->
          exists t' : Q, t' == 1 /\ forall d, last l d = f (Fin t')).
Proof.
  intro HP. pose proof step_times as Hst. pose proof step_positive as Hsp.
  pose proof resolution_positive as Hn.
  induction j as [|j IH]; intros t fuel Hj Ht Hfuel.
  - destruct fuel as [|k]; [lia|].
    exists []. cbn [sweep]. rewrite limit_value. cbn [leb Exact xleb].
    replace (Qle_bool t (1 + (1 # 1000000000))) with false.
    { repeat split; [constructor | congruence]. }
    symmetry. apply Qle_bool_false.
    rewrite Ht. replace (n - Z.of_nat 0 + 1)%Z with (n + 1)%Z by lia.
    rewrite inject_Z_plus. change (inject_Z 1) with 1.
    set (N := inject_Z n) in *. clearbody N. lra.
  - destruct fuel as [|k]; [lia|].
    replace (n - Z.of_nat (S j) + 1)%Z with (n - Z.of_nat j)%Z in Ht by lia.
    assert (Hle : t <= 1).
    { rewrite Ht, <- Hst, (Qmult_comm s).
      apply Qmult_le_compat_r; [|lra].
      rewrite <- Zle_Qle. lia. }
    destruct (IH (t + s) k) as (l & Hrun & Hlen & Hall & Hlast); [lia | | lia |].
    { rewrite Ht, inject_Z_plus. change (inject_Z 1) with 1. ring. }
    exists (f (Fin t) :: l). cbn [sweep]. rewrite limit_value. cbn [leb Exact xleb].
    replace (Qle_bool t (1 + (1 # 1000000000))) with true
      by (symmetry; apply Qle_bool_iff; lra).
    change (Fin t + Fin s)%js with (Fin (t + s)). rewrite Hrun.
    split; [reflexivity|]. split; [cbn [List.length]; lia|].
    split; [constructor; [apply HP | exact Hall]|].
    intros _. destruct j as [|j].
    + destruct l; [|discriminate]. exists t. split; [|reflexivity].
      rewrite Ht. replace (n - Z.of_nat 0)%Z with n by lia.
      rewrite Qmult_comm. exact Hst.
    + destruct (Hlast ltac:(discriminate)) as (t' & Ht' & Hl).
      exists t'. split; [exact Ht'|]. intro d.
      rewrite last_nonempty; [apply Hl|].
      destruct l; [discriminate|discriminate].
Qed.

(** A whole sweep: [n] samples from [t = 1/n]. *)
Lemma sweep_whole (f : xnum -> Point xnum) (P : Point xnum -> Prop) (fuel : nat) :
  (forall t : Q, P (f (Fin t))) ->
  (Z.to_nat n < fuel)%nat ->
  exists (l : list (Point xnum)) (t' : Q),
    sweep fuel (Fin s) f (Fin s) = Some l
    /\ List.length l = Z.to_nat n
    /\ Forall P l
    /\ l <> []
    /\ t' == 1 /\ forall d, last l d = f (Fin t').
Proof.
  intros HP Hfuel.
  destruct (sweep_exact f P HP (Z.to_nat n) s fuel) as (l & Hrun & Hlen & Hall & Hlast).
  - rewrite Z2Nat.id; lia.
  - rewrite Z2Nat.id by lia. replace (n - n + 1)%Z with 1%Z by lia.
    change (inject_Z 1) with 1. ring.
  - exact Hfuel.
  - destruct Hlast as (t' & Ht' & Hl); [lia|].
    exists l, t'. repeat split; try assumption.
    intro E. subst l. cbn in Hlen. lia.
Qed.

Lemma sampleSegments_exact (points : list (Point xnum)) (fuel : nat) :
  Forall finitePoint points -> (Z.to_nat n < fuel)%nat ->
  forall idxs : list nat,
    idxs <> [] ->
    exists l : list (Point xnum),
      sampleSegments fuel points (Fin s) idxs = Some l
      /\ List.length l = (Z.to_nat n * List.length idxs)%nat
      /\ Forall finitePoint l
      /\ l <> []
      /\ samePoint (last l origin) (pointAt points (last idxs 0%nat + 1)).
Proof.
  intros Hpts Hfuel. induction idxs as [|i rest IH]; intro Hne; [congruence|].
  cbn [sampleSegments]. cbv zeta.
  set (p0 := pointAt points (Nat.max 0 (i - 1))).
  set (p1 := pointAt points i).
  set (p2 := pointAt points (i + 1)).
  set (p3 := pointAt points (Nat.min (List.length points - 1) (i + 2))).
  assert (H0 : finitePoint p0) by apply pointAt_finite, Hpts.
  assert (H1 : finitePoint p1) by apply pointAt_finite, Hpts.
  assert (H2 : finitePoint p2) by apply pointAt_finite, Hpts.
  assert (H3 : finitePoint p3) by apply pointAt_finite, Hpts.
  assert (Hmin : forall t : Q, exists u : Q,
            nmin (Fin t) (ofZ 1) = Fin u /\ (t == 1 -> u == 1)).
  { intro t. cbn [nmin ofZ Exact xmin]. destruct (xltb (Fin (inject_Z 1)) (Fin t)).
    - exists (inject_Z 1). split; [reflexivity|]. intros _. reflexivity.
    - exists t. split; [reflexivity|]. auto. }
  destruct (sweep_whole
              (fun t => catmullRomSpline p0 p1 p2 p3 (nmin t (ofZ 1)))
              finitePoint fuel) as (ps & t' & Hrun & Hlen & Hall & Hps & Ht' & Hlast).
  { intro t. destruct (Hmin t) as (u & -> & _).
    apply catmullRomSpline_finite; assumption. }
  { exact Hfuel. }
  rewrite Hrun.
  destruct rest as [|i2 rest'].
  - cbn [sampleSegments]. exists (ps ++ []). split; [reflexivity|].
    rewrite app_nil_r. cbn [List.length last].
    split; [lia|]. split; [exact Hall|]. split; [exact Hps|].
    rewrite Hlast. destruct (Hmin t') as (u & -> & Hu).
    apply (catmullRomSpline_at p0 p1 p2 p3 u H0 H1 H2 H3). exact (Hu Ht').
  - destruct (IH ltac:(discriminate)) as (qs & Hqs & Hqlen & Hqall & Hqne & Hqlast).
    rewrite Hqs. exists (ps ++ qs). split; [reflexivity|].
    split; [rewrite length_app, Hlen, Hqlen; cbn [List.length]; lia|].
    split; [apply Forall_app; split; assumption|].
    split; [destruct ps; [congruence|discriminate]|].
    rewrite (last_app_nonempty ps qs origin Hqne).
    rewrite last_nonempty by discriminate. exact Hqlast.
Qed.

End WholeResolution.



Local Open Scope Q_scope.

(* ----------------------------------------------------------------- *)
(** ** Headings *)



(** The shortest-path carry of [normalizeAngle], step by step. *)
Lemma normalizeAngle_carry (cfg : MachineSettings xnum) (a off p : Q) :
  angleOffset cfg = Fin off ->
  exists v m : Q,
    (forall fuel, (turnsOf (a + off) < fuel)%nat ->
       normalizeAngle cfg fuel (Fin a) None = Some (Fin v)
       /\ normalizeAngle cfg fuel (Fin a) (Some (Fin p)) = Some (Fin m))
    /\ inRange (angleMode cfg) v
    /\ (shortestPath cfg = false -> m == v)
    /\ (shortestPath cfg = true ->
        (180 < v - p -> m == v - 360)
        /\ (v - p < -180 -> m == v + 360)
        /\ (-180 <= v - p <= 180 -> m == v)).
Proof.
  intro Hoff.
  destruct (normalizeAngle_exact cfg a off Hoff) as (v & Hrun & Hin & _).
  assert (Hfolded : forall fuel, (turnsOf (a + off) < fuel)%nat ->
    match angleMode cfg with
    | Mode180 => fold180 fuel (Fin a + angleOffset cfg)%js
    | Mode360 => Some ((((Fin a + angleOffset cfg) mod ofZ 360) + ofZ 360) mod ofZ 360)%js
    end = Some (Fin v)).
  { intros fuel Hfuel. specialize (Hrun fuel Hfuel). unfold normalizeAngle in Hrun.
    destruct (angleMode cfg);
      [destruct (fold180 fuel (Fin a + angleOffset cfg)%js)|]; congruence. }
  assert (Hsub : v + - p == v - p) by ring.
  unfold normalizeAngle in *.
  destruct (shortestPath cfg).
  - destruct (Qltb 180 (v + - p)) eqn:E1; [|destruct (Qltb (v + - p) (- 180)) eqn:E2].
    + exists v, (v + - 360). split; [|split; [exact Hin|split; [discriminate|]]].
      * intros fuel Hfuel. split; [exact (Hrun fuel Hfuel)|].
        rewrite (Hfolded fuel Hfuel).
        cbn. change (inject_Z 180) with 180. rewrite E1. reflexivity.
      * intros _. apply Qltb_true in E1. repeat split; intros; lra.
    + exists v, (v + 360). split; [|split; [exact Hin|split; [discriminate|]]].
      * intros fuel Hfuel. split; [exact (Hrun fuel Hfuel)|].
        rewrite (Hfolded fuel Hfuel).
        cbn. change (inject_Z 180) with 180. rewrite E1.
        change (- 180) with (- (180)) in E2. rewrite E2. reflexivity.
      * intros _. apply Qltb_false in E1. apply Qltb_true in E2.
        repeat split; intros; lra.
    + exists v, v. split; [|split; [exact Hin|split; [discriminate|]]].
      * intros fuel Hfuel. split; [exact (Hrun fuel Hfuel)|].
        rewrite (Hfolded fuel Hfuel).
        cbn. change (inject_Z 180) with 180. rewrite E1.
        change (- 180) with (- (180)) in E2. rewrite E2. reflexivity.
      * intros _. apply Qltb_false in E1. apply Qltb_false in E2.
        repeat split; intros; lra.
  - exists v, v. split; [|split; [exact Hin|split; [reflexivity|discriminate]]].
    intros fuel Hfuel. split; [exact (Hrun fuel Hfuel)|].
    rewrite (Hfolded fuel Hfuel). reflexivity.
Qed.




(* ----------------------------------------------------------------- *)
(** ** The lines of the oriented program made from a base program *)

Section OrientedLines.

Context {num : Type} {JN : JSNumber num} {NT : NumText num}.
Variable hypot : num -> num -> num.
Variable atan2 : num -> num -> num.
Variable PI : num.

(** The second pass gives one output line for each input line, in
    order; a line that passes through is copied, every other line is
    copied or rewritten with a heading. *)
Lemma orientLines_lines (cfg : MachineSettings num) (fuel : nat)
    (moves : list (Point num)) (lines : list str) :
  forall (lastX lastY : option num) (moveIndex : nat) (prevAngle : option num)
         (out : list str),
    orientLines hypot atan2 PI cfg fuel moves lastX lastY moveIndex prevAngle lines
      = Some out ->
    Forall2 (fun raw o =>
               (passesThrough raw = true -> o = raw)
               /\ (o = raw
                   \/ exists (x y angle : num),
                        o = orientedLine (trim (stripSemicolon raw)) (commentOf raw)
                              x y angle))
      lines out.
Proof.
  induction lines as [|raw rest IH]; intros lastX lastY moveIndex prevAngle out H.
  - injection H as <-. constructor.
  - cbn [orientLines] in H. cbv zeta in H.
    destruct (isEmpty (trim (stripSemicolon raw))) eqn:Hempty.
    { destruct (orientLines _ _ _ _ _ _ _ _ _ _ rest) as [o|] eqn:Hrest; [|discriminate].
      injection H as <-. constructor; [|exact (IH _ _ _ _ _ Hrest)].
      split; [reflexivity | left; reflexivity]. }
    destruct (negb match findGMove is0or1 (trim (stripSemicolon raw)) with
                   | Some _ => true | None => false end
              && negb (hasLetter chX (trim (stripSemicolon raw)))
              && negb (hasLetter chY (trim (stripSemicolon raw))))%bool eqn:Hmotion.
    { destruct (orientLines _ _ _ _ _ _ _ _ _ _ rest) as [o|] eqn:Hrest; [|discriminate].
      injection H as <-. constructor; [|exact (IH _ _ _ _ _ Hrest)].
      split; [reflexivity | left; reflexivity]. }
    destruct (updateField chX (trim (stripSemicolon raw)) lastX) as [x|];
      [destruct (updateField chY (trim (stripSemicolon raw)) lastY) as [y|]|].
    + destruct (moveIndex <? List.length moves)%nat.
      * destruct (normalizeAngle cfg fuel _ prevAngle) as [angle|]; [|discriminate].
        destruct (orientLines _ _ _ _ _ _ _ _ _ _ rest) as [o|] eqn:Hrest; [|discriminate].
        injection H as <-. constructor; [|exact (IH _ _ _ _ _ Hrest)].
        split; [unfold passesThrough; cbv zeta; rewrite Hempty, Hmotion; discriminate|].
        right. exists x, y, angle. reflexivity.
      * destruct (orientLines _ _ _ _ _ _ _ _ _ _ rest) as [o|] eqn:Hrest; [|discriminate].
        injection H as <-. constructor; [|exact (IH _ _ _ _ _ Hrest)].
        split; [reflexivity | left; reflexivity].
    + destruct (orientLines _ _ _ _ _ _ _ _ _ _ rest) as [o|] eqn:Hrest; [|discriminate].
      injection H as <-. constructor; [|exact (IH _ _ _ _ _ Hrest)].
      split; [reflexivity | left; reflexivity].
    + destruct (orientLines _ _ _ _ _ _ _ _ _ _ rest) as [o|] eqn:Hrest; [|discriminate].
      injection H as <-. constructor; [|exact (IH _ _ _ _ _ Hrest)].
      split; [reflexivity | left; reflexivity].
Qed.

End OrientedLines.

(** On every number system, whatever the host's [Math] functions
    return: when [generateOrientedGCodeFromBase] returns, its text is
    the join of exactly one line for each line of the base program, in
    order.  Comment lines, blank lines and lines without G0, G1, X and Y
    are copied as they are; each other line is copied or rewritten
    with a heading field and an ORI comment. *)
Theorem oriented_from_base_keeps_lines :
  forall (num : Type) (JN : JSNumber num) (NT : NumText num)
         (hypot atan2 : num -> num -> num) (PI : num)
         (cfg : MachineSettings num) (fuel : nat) (baseGcode text : str),
    generateOrientedGCodeFromBase hypot atan2 PI cfg fuel baseGcode = Some text ->
    exists out : list str,
      text = join out
      /\ List.length out = List.length (splitLines baseGcode)
      /\ Forall2 (fun raw o =>
                    (passesThrough raw = true -> o = raw)
                    /\ (o = raw
                        \/ exists (x y angle : num),
                             o = orientedLine (trim (stripSemicolon raw))
                                   (commentOf raw) x y angle))
           (splitLines baseGcode) out.
Proof.
  intros num JN NT hypot atan2 PI cfg fuel base text H.
  unfold generateOrientedGCodeFromBase in H. cbv zeta in H.
  destruct (orientLines _ _ _ _ _ _ _ _ _ _ (splitLines base)) as [out|] eqn:Hout;
    [|discriminate].
  injection H as <-. exists out. split; [reflexivity|].
  pose proof (orientLines_lines hypot atan2 PI cfg fuel _ _ _ _ _ _ _ Hout) as HF.
  split; [|exact HF].
  symmetry. exact (Forall2_length HF).
Qed.

Lemma oriented_from_base_keeps_lines_witness :
  exists (text : str) (out : list str),
    generateOrientedGCodeFromBase hypotUp atan2Compass piApprox defaultSettings 5
      sampleProgram = Some text
    /\ text = join out
    /\ List.length out = List.length (splitLines sampleProgram)
    /\ Forall2 (fun raw o =>
                  (passesThrough raw = true -> o = raw)
                  /\ (o = raw
                      \/ exists (x y angle : xnum),
                           o = orientedLine (trim (stripSemicolon raw))
                                 (commentOf raw) x y angle))
         (splitLines sampleProgram) out.
Proof.
  eexists.
  assert (H : generateOrientedGCodeFromBase hypotUp atan2Compass piApprox
                defaultSettings 5 sampleProgram = Some ?[text])
    by (vm_compute; reflexivity).
  destruct (oriented_from_base_keeps_lines xnum Exact ExactText hypotUp atan2Compass
              piApprox defaultSettings 5 sampleProgram _ H) as (out & Hrest).
  exists out. split; [exact H | exact Hrest].
Defined.

Local Open Scope Q_scope.

(* ----------------------------------------------------------------- *)
(** ** Playback *)

Ltac within_path :=
  unfold withinPath;
  cbn [pb_currentDist pb_path totalLength toQ finite withPlaying withDist withLastTs];
  repeat split; lra.

Lemma withinPath_inv (st : Playback xnum) :
  withinPath st ->
  exists (segs : list (Segment xnum)) (T c : Q),
    st = mkPlayback (mkPreview segs (Fin T)) (pb_playing st) (pb_speedPxPerSec st)
           (Fin c) (pb_lastTs st) (pb_gcodeLoaded st)
    /\ 0 <= c <= T.
Proof.
  destruct st as [[segs total] playing speed cur lastTs loaded].
  unfold withinPath. cbn [pb_path pb_currentDist totalLength pb_playing
                          pb_speedPxPerSec pb_lastTs pb_gcodeLoaded].
  intros (Hc & Ht & Hr).
  destruct cur as [c| | |]; try contradiction.
  destruct total as [T| | |]; try contradiction.
  exists segs, T, c. split; [reflexivity|exact Hr].
Qed.

(** On exact numbers, while the position is within the path, the speed
    is not negative and the time stamps do not go back: [step] keeps
    the position within the path and never moves it back; it leaves the
    path alone; it does nothing when playback is paused; it requests
    another frame only while the end is not reached; and when it
    requests none during playback the position is the total length --
    playback is then switched off, provided G-code is loaded and the
    path is not empty. *)
Theorem step_keeps_position :
  forall (st : Playback xnum) (ts : xnum),
    withinPath st ->
    finite (pb_speedPxPerSec st) -> 0 <= toQ (pb_speedPxPerSec st) ->
    finite ts ->
    match pb_lastTs st with
    | Some l => finite l /\ toQ l <= toQ ts
    | None => True
    end ->
    withinPath (fst (step ts st))
    /\ pb_path (fst (step ts st)) = pb_path st
    /\ toQ (pb_currentDist st) <= toQ (pb_currentDist (fst (step ts st)))
    /\ (pb_playing st = false -> step ts st = (st, false))
    /\ (snd (step ts st) = true ->
        pb_playing (fst (step ts st)) = true
        /\ pb_lastTs (fst (step ts st)) = Some ts
        /\ toQ (pb_currentDist (fst (step ts st))) < toQ (totalLength (pb_path st)))
    /\ (pb_playing st = true -> snd (step ts st) = false ->
        pb_currentDist (fst (step ts st)) = totalLength (pb_path st)
        /\ (pb_gcodeLoaded st = true -> 0 < toQ (totalLength (pb_path st)) ->
            pb_playing (fst (step ts st)) = false)).
Proof.
  intros st ts Hin Hsf Hs Hts Hlast.
  destruct st as [[segs total] playing speed cur lastTs loaded].
  unfold withinPath in *.
  cbn [pb_path pb_currentDist totalLength pb_playing pb_speedPxPerSec pb_lastTs
       pb_gcodeLoaded] in *.
  destruct Hin as (Hcf & Htf & Hc).
  destruct cur as [c| | |]; try contradiction.
  destruct total as [T| | |]; try contradiction.
  destruct speed as [sp| | |]; try contradiction.
  destruct ts as [t| | |]; try contradiction.
  cbn [toQ] in *.
  assert (Hl : exists l : Q, l <= t /\
            match lastTs with Some x => x | None => Fin t end = Fin l).
  { destruct lastTs as [x|].
    - destruct Hlast as [Hf Hle]. destruct x as [l| | |]; try contradiction.
      exists l. split; [exact Hle|reflexivity].
    - exists t. split; [lra|reflexivity]. }
  destruct Hl as (l & Hlt & El).
  destruct playing.
  2:{ cbn. repeat split; try lra; discriminate. }
  cbv beta iota zeta delta
    [step togglePlay withDist withLastTs withPlaying pb_path pb_playing
     pb_speedPxPerSec pb_currentDist pb_lastTs pb_gcodeLoaded totalLength negb].
  rewrite El.
  cbn [sub div mul add ofZ Exact xsub xadd xneg xmul].
  change (inject_Z 1000) with 1000. change (inject_Z 0) with 0.
  assert (Hdiv : xdiv (Fin (t + - l)) (Fin 1000) = Fin ((t + - l) / 1000))
    by reflexivity.
  rewrite Hdiv. cbn [xmul xadd leb Exact xleb].
  set (c' := c + sp * ((t + - l) / 1000)).
  assert (Hgrow : c <= c').
  { unfold c'. assert (0 <= sp * ((t + - l) / 1000)); [|lra].
    apply Qmult_le_0_compat; [exact Hs|].
    apply Qle_shift_div_l; lra. }
  destruct (Qle_bool T c') eqn:Eend.
  - apply Qle_bool_iff in Eend.
    destruct loaded.
    + destruct (Qle_bool T 0) eqn:Ezero; cbn [fst snd toQ finite];
        repeat split; try lra; try discriminate; try reflexivity.
      intros _ Hpos. apply Qle_bool_iff in Ezero. lra.
    + cbn [fst snd toQ finite].
      repeat split; try lra; try discriminate; try reflexivity.
  - apply Qle_bool_false in Eend. cbn [fst snd toQ finite].
    repeat split; try lra; try discriminate; try reflexivity.
Qed.

Lemma step_keeps_position_witness :
  withinPath (fst (step (Fin 1016) samplePlayback))
  /\ pb_path (fst (step (Fin 1016) samplePlayback)) = pb_path samplePlayback
  /\ toQ (pb_currentDist samplePlayback)
     <= toQ (pb_currentDist (fst (step (Fin 1016) samplePlayback)))
  /\ (pb_playing samplePlayback = false ->
      step (Fin 1016) samplePlayback = (samplePlayback, false))
  /\ (snd (step (Fin 1016) samplePlayback) = true ->
      pb_playing (fst (step (Fin 1016) samplePlayback)) = true
      /\ pb_lastTs (fst (step (Fin 1016) samplePlayback)) = Some (Fin 1016)
      /\ toQ (pb_currentDist (fst (step (Fin 1016) samplePlayback)))
         < toQ (totalLength (pb_path samplePlayback)))
  /\ (pb_playing samplePlayback = true ->
      snd (step (Fin 1016) samplePlayback) = false ->
      pb_currentDist (fst (step (Fin 1016) samplePlayback))
        = totalLength (pb_path samplePlayback)
      /\ (pb_gcodeLoaded samplePlayback = true ->
          0 < toQ (totalLength (pb_path samplePlayback)) ->
          pb_playing (fst (step (Fin 1016) samplePlayback)) = false)).
Proof.
  apply (step_keeps_position samplePlayback (Fin 1016)).
  - unfold withinPath. cbn. repeat split; discriminate.
  - exact I.
  - discriminate.
  - exact I.
  - cbn. split; [exact I | discriminate].
Defined.

(** On exact numbers, for a finite position and a finite total length
    that is not negative: [clampPreviewDist] brings the position within
    the path and leaves it alone if it is there already; the slider
    handler puts it within the path for every finite slider value; and
    the percentage that [updateProgressUI] shows for a position within
    the path lies from 0 to 100, and is 0 (not a division by zero) on a
    path of length 0. *)
Theorem clamp_keeps_position :
  forall (st : Playback xnum) (v : xnum),
    finite (pb_currentDist st) -> finite (totalLength (pb_path st)) ->
    0 <= toQ (totalLength (pb_path st)) ->
    finite v ->
    withinPath (clampPreviewDist st)
    /\ pb_path (clampPreviewDist st) = pb_path st
    /\ (withinPath st -> clampPreviewDist st = st)
    /\ withinPath (scrubTo v st)
    /\ exists pct : Q,
         progressPercent (clampPreviewDist st) = Fin pct
         /\ 0 <= pct <= 100
         /\ (toQ (totalLength (pb_path st)) == 0 -> pct == 0).
Proof.
  intros st v Hcf Htf Ht Hv.
  destruct st as [[segs total] playing speed cur lastTs loaded].
  cbn [pb_path pb_currentDist totalLength] in *.
  destruct cur as [c| | |]; try contradiction.
  destruct total as [T| | |]; try contradiction.
  destruct v as [q| | |]; try contradiction.
  cbn [toQ] in *.
  assert (Hclamp : forall x : Q,
            exists x' : Q,
              clampPreviewDist
                (mkPlayback (mkPreview segs (Fin T)) playing speed (Fin x) lastTs loaded)
              = mkPlayback (mkPreview segs (Fin T)) playing speed (Fin x') lastTs loaded
              /\ 0 <= x' <= T /\ (0 <= x <= T -> Fin x' = Fin x)).
  { intro x.
    cbv beta iota zeta delta
      [clampPreviewDist withDist pb_path pb_playing pb_speedPxPerSec pb_currentDist
       pb_lastTs pb_gcodeLoaded totalLength].
    cbn [ltb ofZ Exact xltb]. change (inject_Z 0) with 0.
    destruct (Qltb x 0) eqn:E0.
    - apply Qltb_true in E0.
      cbv beta iota zeta delta
        [pb_path pb_playing pb_speedPxPerSec pb_currentDist pb_lastTs
         pb_gcodeLoaded totalLength].
      cbn [xltb]. destruct (Qltb T 0) eqn:ET.
      + apply Qltb_true in ET. lra.
      + exists 0. split; [reflexivity|]. split; [lra|]. intro. lra.
    - apply Qltb_false in E0.
      cbv beta iota zeta delta
        [pb_path pb_playing pb_speedPxPerSec pb_currentDist pb_lastTs
         pb_gcodeLoaded totalLength].
      cbn [xltb]. destruct (Qltb T x) eqn:ET.
      + apply Qltb_true in ET. exists T. split; [reflexivity|].
        split; [lra|]. intro. lra.
      + apply Qltb_false in ET. exists x. split; [reflexivity|].
        split; [lra|]. intro. reflexivity. }
  destruct (Hclamp c) as (c' & Ec & Hc' & Hsame).
  split; [rewrite Ec; unfold withinPath; cbn; repeat split; lra|].
  split; [rewrite Ec; reflexivity|].
  split.
  { unfold withinPath. cbn [pb_path pb_currentDist totalLength toQ].
    intros (_ & _ & Hr). rewrite Ec, (Hsame Hr). reflexivity. }
  split.
  { unfold scrubTo.
    cbv beta iota zeta delta
      [withDist pb_path pb_playing pb_speedPxPerSec pb_currentDist pb_lastTs
       pb_gcodeLoaded totalLength].
    assert (Hm : (Fin T * (Fin q / ofZ 100))%js = Fin (T * (q / 100))) by reflexivity.
    rewrite Hm.
    destruct (Hclamp (T * (q / 100))) as (x' & -> & Hx' & _).
    unfold withinPath. cbn. repeat split; lra. }
  rewrite Ec. unfold progressPercent.
  cbn [pb_path pb_currentDist totalLength ltb ofZ Exact xltb].
  change (inject_Z 0) with 0.
  destruct (Qltb 0 T) eqn:Epos.
  - apply Qltb_true in Epos.
    cbn [div mul Exact xdiv].
    replace (Qeq_bool T 0) with false.
    2:{ symmetry. apply not_true_iff_false. intro E. apply Qeq_bool_iff in E. lra. }
    cbn [xmul]. change (inject_Z 100) with 100.
    exists (c' / T * 100). split; [reflexivity|].
    assert (H01 : 0 <= c' / T <= 1).
    { split; [apply Qle_shift_div_l | apply Qle_shift_div_r]; lra. }
    split; [lra|]. intro. lra.
  - exists 0. split; [reflexivity|]. split; [lra|]. intro. reflexivity.
Qed.

Lemma clamp_keeps_position_witness :
  withinPath (clampPreviewDist (withDist (Fin 250) samplePlayback))
  /\ pb_path (clampPreviewDist (withDist (Fin 250) samplePlayback))
     = pb_path (withDist (Fin 250) samplePlayback)
  /\ (withinPath (withDist (Fin 250) samplePlayback) ->
      clampPreviewDist (withDist (Fin 250) samplePlayback)
      = withDist (Fin 250) samplePlayback)
  /\ withinPath (scrubTo (Fin (-30)) (withDist (Fin 250) samplePlayback))
  /\ exists pct : Q,
       progressPercent (clampPreviewDist (withDist (Fin 250) samplePlayback)) = Fin pct
       /\ 0 <= pct <= 100
       /\ (toQ (totalLength (pb_path (withDist (Fin 250) samplePlayback))) == 0 ->
           pct == 0).
Proof.
  apply (clamp_keeps_position (withDist (Fin 250) samplePlayback) (Fin (-30)));
    try exact I.
  discriminate.
Defined.

(* ----------------------------------------------------------------- *)
(** ** Editing the control points *)

Section EditorProofs.

Context {num : Type} {JN : JSNumber num}.
Variable sqrt : num -> num.
Variable square : num -> num.

Local Open Scope js_scope.

Lemma firstHit_spec (r x y : num) (points : list (Point num)) :
  forall i : nat,
    match firstHit sqrt square r x y i points with
    | Some k =>
        (i <= k)%nat
        /\ exists p : Point num,
             nth_error points (k - i) = Some p
             /\ (hitDistance sqrt square p x y <? r) = true
             /\ Forall (fun q => (hitDistance sqrt square q x y <? r) = false)
                  (firstn (k - i) points)
    | None =>
        Forall (fun q => (hitDistance sqrt square q x y <? r) = false) points
    end.
Proof.
  induction points as [|p rest IH]; intro i; cbn [firstHit]; [constructor|].
  destruct (hitDistance sqrt square p x y <? r) eqn:E.
  - split; [lia|]. exists p. rewrite Nat.sub_diag.
    split; [reflexivity|]. split; [exact E|constructor].
  - specialize (IH (S i)).
    destruct (firstHit sqrt square r x y (S i) rest) as [k|]; [|constructor; assumption].
    destruct IH as (Hk & q & Hq & Hhit & Hbefore).
    split; [lia|]. exists q.
    replace (k - i)%nat with (S (k - S i)) by lia.
    split; [exact Hq|]. split; [exact Hhit|].
    cbn [firstn]. constructor; assumption.
Qed.

End EditorProofs.

(** On every number system, whatever [Math.sqrt] and [**] return:
    [getPointAt] returns the index of the first point, in the order of
    the list, whose distance to [(x, y)] is below the hit radius (20 on
    a narrow window, else the given radius), and null exactly when no
    point is that near. *)
Theorem getPointAt_first_hit :
  forall (num : Type) (JN : JSNumber num) (sqrt square : num -> num)
         (isMobile : bool) (points : list (Point num)) (x y radius : num),
    match getPointAt sqrt square isMobile points x y radius with
    | Some k =>
        exists p : Point num,
          nth_error points k = Some p
          /\ (hitDistance sqrt square p x y <? hitRadiusOf isMobile radius)%js = true
          /\ Forall (fun q => (hitDistance sqrt square q x y
                               <? hitRadiusOf isMobile radius)%js = false)
               (firstn k points)
    | None =>
        Forall (fun q => (hitDistance sqrt square q x y
                          <? hitRadiusOf isMobile radius)%js = false) points
    end.
Proof.
  intros num JN sqrt square isMobile points x y radius. unfold getPointAt.
  pose proof (firstHit_spec sqrt square (hitRadiusOf isMobile radius) x y points 0) as H.
  destruct (firstHit sqrt square (hitRadiusOf isMobile radius) x y 0 points) as [k|];
    [|exact H].
  destruct H as (_ & p & Hp & Hhit & Hbefore).
  rewrite Nat.sub_0_r in *. exists p. repeat split; assumption.
Qed.


(* ----------------------------------------------------------------- *)
(** ** Comments and line ends *)

(** A comment behind a line is cut off with whatever comment the line
    has already. *)
Lemma stripSemicolon_append (raw comment : str) :
  oneLine comment = true ->
  stripSemicolon (raw ++ ";"%char :: comment) = stripSemicolon raw.
Proof.
  intro Hc. induction raw as [|c raw IH]; cbn [app stripSemicolon].
  - change (isChar 59 ";"%char) with true. unfold oneLine in Hc. rewrite Hc.
    reflexivity.
  - rewrite forallb_app. cbn [forallb].
    change (negb (isLineTerm ";"%char)) with true. unfold oneLine in Hc.
    rewrite Hc, !andb_true_r, IH. reflexivity.
Qed.

Lemma splitLines_cons_crlf (l rest : str) :
  oneLine l = true -> splitLines (l ++ CR :: NL :: rest) = l :: splitLines rest.
Proof.
  induction l as [|c l IH]; intro H.
  - reflexivity.
  - cbn [oneLine forallb] in H. apply andb_true_iff in H as [Hc Hl].
    apply negb_true_iff in Hc. apply orb_false_iff in Hc as [Hnl Hcr].
    cbn [app splitLines]. rewrite Hnl. specialize (IH Hl).
    destruct (l ++ CR :: NL :: rest) as [|d t] eqn:E.
    + destruct l; discriminate.
    + rewrite Hcr. cbn [andb]. rewrite IH. reflexivity.
Qed.

Lemma splitLines_joinCRLF (lines : list str) :
  lines <> [] -> forallb oneLine lines = true ->
  splitLines (joinCRLF lines) = lines.
Proof.
  induction lines as [|l rest IH]; intros Hne H; [congruence|].
  cbn [forallb] in H. apply andb_true_iff in H as [Hl Hrest].
  cbn [joinCRLF]. destruct rest as [|l' rest'].
  - apply splitLines_line. exact Hl.
  - rewrite (splitLines_cons_crlf l _ Hl). f_equal.
    apply IH; [discriminate|exact Hrest].
Qed.

Section LayoutProofs.

Context {num : Type} {JN : JSNumber num} {NT : NumText num}.

(** The parsers see a line only once it is cleaned. *)
Lemma parseLines_cleaned (emit : num -> num -> Point num) (l1 l2 : list str) :
  Forall2 (fun a b => cleanLine a = cleanLine b) l1 l2 ->
  forall lastX lastY : option num,
    parseLines emit lastX lastY l1 = parseLines emit lastX lastY l2.
Proof.
  induction 1 as [|a b l1 l2 Hab _ IH]; intros lastX lastY; [reflexivity|].
  cbn [parseLines]. rewrite Hab.
  destruct (isEmpty (cleanLine b)); [apply IH|].
  destruct (negb (looksLikeMotion (cleanLine b))); [apply IH|].
  destruct (updateField chX (cleanLine b) lastX);
    destruct (updateField chY (cleanLine b) lastY); rewrite IH; reflexivity.
Qed.

Lemma previewMoves_cleaned (flipY : bool) (cfg : MachineSettings num)
    (l1 l2 : list str) :
  Forall2 (fun a b => cleanLine a = cleanLine b) l1 l2 ->
  forall lastX lastY lastC : option num,
    previewMoves flipY cfg lastX lastY lastC l1
    = previewMoves flipY cfg lastX lastY lastC l2.
Proof.
  induction 1 as [|a b l1 l2 Hab _ IH]; intros lastX lastY lastC; [reflexivity|].
  cbn [previewMoves]. rewrite Hab.
  destruct (isEmpty (cleanLine b)); [apply IH|]. cbv zeta.
  destruct (negb match findGMove is0or1 (cleanLine b) with
                 | Some _ => true | None => false end
            && negb (hasLetter chX (cleanLine b))
            && negb (hasLetter chY (cleanLine b)))%bool; [apply IH|].
  destruct (updateField chX (cleanLine b) lastX);
    destruct (updateField chY (cleanLine b) lastY); rewrite IH; reflexivity.
Qed.

Lemma withComment_cleaned (ls : list (str * str)) :
  Forall (fun l => oneLine (fst l) = true /\ oneLine (snd l) = true) ls ->
  Forall2 (fun a b => cleanLine a = cleanLine b)
    (map withComment ls) (map fst ls).
Proof.
  induction 1 as [|l ls [_ Hc] _ IH]; cbn [map]; constructor; [|exact IH].
  unfold cleanLine, withComment. rewrite (stripSemicolon_append _ _ Hc).
  reflexivity.
Qed.

Lemma withComment_oneLine (ls : list (str * str)) :
  Forall (fun l => oneLine (fst l) = true /\ oneLine (snd l) = true) ls ->
  forallb oneLine (map withComment ls) = true
  /\ forallb oneLine (map fst ls) = true.
Proof.
  induction 1 as [|l ls [Hl Hc] _ [IH1 IH2]]; [split; reflexivity|].
  cbn [map forallb]. rewrite IH1, IH2, Hl. unfold withComment.
  rewrite oneLine_app, Hl. cbn [oneLine forallb].
  unfold oneLine in Hc. rewrite Hc. split; reflexivity.
Qed.

End LayoutProofs.

(** On every number system: what [parseGCode] returns and what the
    first loop of [buildPreviewFromGCode] reads (either copy) do not
    change when a semicolon comment is put behind lines of the program
    -- behind a line that has a comment already, too -- nor when the
    lines end in carriage return and line feed instead of a line
    feed. *)
Theorem parsers_ignore_layout :
  forall (num : Type) (JN : JSNumber num) (NT : NumText num)
         (cfg : MachineSettings num) (flipY : bool) (ls : list (str * str)),
    ls <> [] ->
    Forall (fun l => oneLine (fst l) = true /\ oneLine (snd l) = true) ls ->
    parseGCode cfg (join (map withComment ls)) = parseGCode cfg (join (map fst ls))
    /\ parseGCode cfg (joinCRLF (map fst ls)) = parseGCode cfg (join (map fst ls))
    /\ parseGCode2 (join (map withComment ls)) = parseGCode2 (join (map fst ls))
    /\ parseGCode2 (joinCRLF (map fst ls)) = parseGCode2 (join (map fst ls))
    /\ previewMoves flipY cfg None None None
         (splitLines (join (map withComment ls)))
       = previewMoves flipY cfg None None None (splitLines (join (map fst ls)))
    /\ previewMoves flipY cfg None None None
         (splitLines (joinCRLF (map fst ls)))
       = previewMoves flipY cfg None None None (splitLines (join (map fst ls))).
Proof.
  intros num JN NT cfg flipY ls Hne Hls.
  destruct (withComment_oneLine ls Hls) as [H1 H2].
  assert (N1 : map withComment ls <> []) by (destruct ls; [congruence|discriminate]).
  assert (N2 : map fst ls <> []) by (destruct ls; [congruence|discriminate]).
  unfold parseGCode, parseGCode2. cbv zeta.
  rewrite (splitLines_join _ N1 H1), (splitLines_join _ N2 H2),
    (splitLines_joinCRLF _ N2 H2).
  pose proof (withComment_cleaned ls Hls) as Hclean.
  repeat split; try reflexivity.
  - apply parseLines_cleaned. exact Hclean.
  - apply parseLines_cleaned. exact Hclean.
  - apply previewMoves_cleaned. exact Hclean.
Qed.

Lemma parsers_ignore_layout_witness :
  parseGCode defaultSettings (join (map withComment commentedLines))
  = parseGCode defaultSettings (join (map fst commentedLines))
  /\ parseGCode defaultSettings (joinCRLF (map fst commentedLines))
     = parseGCode defaultSettings (join (map fst commentedLines))
  /\ parseGCode2 (NT := ExactText) (join (map withComment commentedLines))
     = parseGCode2 (join (map fst commentedLines))
  /\ parseGCode2 (NT := ExactText) (joinCRLF (map fst commentedLines))
     = parseGCode2 (join (map fst commentedLines))
  /\ previewMoves true defaultSettings None None None
       (splitLines (join (map withComment commentedLines)))
     = previewMoves true defaultSettings None None None
         (splitLines (join (map fst commentedLines)))
  /\ previewMoves true defaultSettings None None None
       (splitLines (joinCRLF (map fst commentedLines)))
     = previewMoves true defaultSettings None None None
         (splitLines (join (map fst commentedLines))).
Proof.
  apply (parsers_ignore_layout xnum Exact ExactText defaultSettings true commentedLines).
  - discriminate.
  - repeat constructor.
Defined.
